(** * CBB MIDI Player: transport and timing controller

    A shallow embedding of the transport logic of the player page and of
    the [JSSynthPlayer] adapter around the FluidSynth engine, followed by
    the properties stated about them.

    What is embedded.
    - The app script in the version built around [class TimingState]:
      [formatTimeStr], the playlist helpers, [checkForTrackEnd],
      [updateTimeline], the low-power timer, the transport controls,
      [parsePpqFromSmfHeader], [loadTrack] and the handler of the seek
      slider.
    - The adapter in the version that has [setAudioState]: [seek], [play],
      [pause], [loadMIDI], the connection and idle controls.  The three
      getters are given as in synthesizer-player.js, and also as in the
      later adapter.

    Conventions.
    - A JavaScript number is a [number]: a finite value carried as a
      rational, or one of [NaN], [+Infinity], [-Infinity].  Every finite
      double is a rational, and [Math.floor], [Math.max], [%] and the
      comparisons are exact on doubles.  The quotients of [formatTimeStr]
      and the quotient and the product of the seek slider are rounded to
      the nearest double ([nearest_double]), as [/] and [*] round them;
      [String(n)] prints a whole number from 2^53 on with the fewest
      digits that give it back.  The seconds of one tick are kept as the
      exact quotient.  Tick counts, indices and byte values are integers
      ([Z]).
    - The synthesizer is an external collaborator: commands sent to it are
      recorded as [Event]s, and what it answers to a query is an argument
      of the operation that asks (the same answer if the operation asks
      twice).  A command to an existing synthesizer returns normally;
      without a synthesizer, [this._synth.m()] throws.
    - An [async] function is run to completion with the answers it awaits;
      where the interleaving at an [await] matters, the function is split
      into the segments before and after that [await].  In a frame of the
      UI loop the calls that nobody awaits are [Task]s: each runs to its
      first [await] inside the frame and goes on after the frame has
      returned, in turns with the other.
    - The page elements (labels, slider, button icon) are only written,
      never read back by the transport, and are left out; the Loop
      checkbox is the flag [loopOn]. *)

From Stdlib Require Import ZArith QArith Qround Qabs String Ascii List Bool Lia.
From Stdlib Require Import Strings.Byte DecimalString.
Import ListNotations.
Open Scope Z_scope.

(* ===================================================================== *)
(** ** JavaScript values *)
(* ===================================================================== *)

Inductive number : Type :=
| Fin (q : Q)
| NaN
| PosInf
| NegInf.

(** A value is either of type 'number', or something else (string, boolean,
    null, undefined, object), kept through the result that the builtin
    [Number(x)] conversion gives on it. *)
Inductive jsval : Type :=
| VNum (n : number)
| VNonNum (toNumber : number).

Definition num (z : Z) : number := Fin (inject_Z z).

(** [Number(x)] *)
Definition Number (x : jsval) : number :=
  match x with
  | VNum n => n
  | VNonNum n => n
  end.

(** [typeof x === 'number'] *)
Definition is_number (x : jsval) : bool :=
  match x with
  | VNum _ => true
  | VNonNum _ => false
  end.

(** [isFinite(n)] on a number *)
Definition isFinite (n : number) : bool :=
  match n with
  | Fin _ => true
  | _ => false
  end.

(** Truthiness of a number: [0] and [NaN] are falsy. *)
Definition truthy (n : number) : bool :=
  match n with
  | Fin q => negb (Qeq_bool q 0)
  | NaN => false
  | PosInf | NegInf => true
  end.

(** [n || d] *)
Definition or_else (n d : number) : number := if truthy n then n else d.

(** [Math.floor(n)] *)
Definition Math_floor (n : number) : number :=
  match n with
  | Fin q => num (Qfloor q)
  | other => other
  end.

(** [Math.max(a, b)] *)
Definition Math_max (a b : number) : number :=
  match a, b with
  | NaN, _ | _, NaN => NaN
  | PosInf, _ | _, PosInf => PosInf
  | NegInf, x | x, NegInf => x
  | Fin x, Fin y => if Qle_bool x y then Fin y else Fin x
  end.

(** [a === b] on numbers ([NaN] equals nothing) *)
Definition strict_eq (a b : number) : bool :=
  match a, b with
  | Fin x, Fin y => Qeq_bool x y
  | PosInf, PosInf | NegInf, NegInf => true
  | _, _ => false
  end.

(** The remainder operator [%] on integers: the sign follows the dividend. *)
Definition js_rem (a b : Z) : Z := Z.rem a b.

(** [a < b] on numbers ([NaN] is below nothing, and nothing is below it) *)
Definition js_lt (a b : number) : bool :=
  match a, b with
  | NaN, _ | _, NaN => false
  | Fin x, Fin y => negb (Qle_bool y x)
  | NegInf, NegInf | PosInf, _ | _, NegInf => false
  | _, _ => true
  end.

(* ===================================================================== *)
(** ** Rounding to doubles *)
(* ===================================================================== *)

(** [a / b] for [0 < b], rounded to the nearest integer, and to the even
    one when two are as near *)
Definition round_half_even (a b : Z) : Z :=
  let q := a / b in
  match 2 * (a mod b) ?= b with
  | Lt => q
  | Gt => q + 1
  | Eq => if Z.even q then q else q + 1
  end.

(** [n/d] counted in units of [2^k], as a fraction *)
Definition in_units (n d k : Z) : Z * Z :=
  if 0 <=? k then (n, d * 2 ^ k) else (n * 2 ^ (- k), d).

(** The [e] with [2^e <= n/d < 2^(e+1)], for positive [n] and [d] *)
Definition binary_exponent (n d : Z) : Z :=
  let e := Z.log2 n - Z.log2 d in
  let (a, b) := in_units n d e in
  if b <=? a then e else e - 1.

(** The exponent of the last place of the double nearest to [n/d]: 52
    binary places below the leading one, and never below 2^-1074 *)
Definition last_place (n d : Z) : Z := Z.max (binary_exponent n d - 52) (-1074).

(** [m * 2^k] *)
Definition dyadic (m k : Z) : Q :=
  if 0 <=? k then inject_Z (m * 2 ^ k) else Qmake m (Z.to_pos (2 ^ (- k))).

(** The double nearest to a rational, the one with the even last place
    when two are as near, and an infinity from 2^1024 on: what an
    arithmetic operation returns for its exact result. *)
Definition nearest_double (q : Q) : number :=
  let n := Qnum q in
  let d := Zpos (Qden q) in
  if n =? 0 then Fin 0 else
  let k := last_place (Z.abs n) d in
  let (a, b) := in_units n d k in
  let m := round_half_even a b in
  if (0 <=? k) && (2 ^ 1024 <=? Z.abs m * 2 ^ k)
  then (if 0 <? n then PosInf else NegInf)
  else Fin (dyadic m k).

(** [a / b] for a whole number [b] above 0 *)
Definition js_div (a : number) (b : Z) : number :=
  match a with
  | Fin x => nearest_double (x / inject_Z b)
  | other => other
  end.

(** [a * b] for a whole number [b] above 0 *)
Definition js_mul (a : number) (b : Z) : number :=
  match a with
  | Fin x => nearest_double (x * inject_Z b)
  | other => other
  end.

(* ===================================================================== *)
(** ** Strings: [String(n)] and [padStart] *)
(* ===================================================================== *)

(** The decimal digits of a whole number [n] that is not negative *)
Definition String_of (n : Z) : string :=
  NilZero.string_of_uint (N.to_uint (Z.to_N n)).

Fixpoint repeat_string (n : nat) (p : string) : string :=
  match n with
  | O => ""%string
  | S k => (p ++ repeat_string k p)%string
  end.

Fixpoint take (n : nat) (s : string) : string :=
  match n, s with
  | S k, String c r => String c (take k r)
  | _, _ => ""%string
  end.

(** Whether the double nearest to the whole number [z] is [x] *)
Definition rounds_to (z x : Z) : bool :=
  match nearest_double (inject_Z z) with
  | Fin q => Qeq_bool q (inject_Z x)
  | _ => false
  end.

(** The digits [s] and the largest power of ten [j], counted down from
    [10^j], for which [s * 10^j] has [x] as its nearest double; of two
    such [s] the one nearer to [x]. *)
Fixpoint shortest_digits (tries : nat) (j : Z) (x : Z) : Z * Z :=
  match tries with
  | O => (x, 0)
  | S fewer =>
      let below := x / 10 ^ j in
      let above := below + 1 in
      let ok_below := (0 <? below) && rounds_to (below * 10 ^ j) x in
      let ok_above := rounds_to (above * 10 ^ j) x in
      let nearer := round_half_even x (10 ^ j) in
      if ok_below && ok_above then (nearer, j)
      else if ok_below then (below, j)
      else if ok_above then (above, j)
      else shortest_digits fewer (j - 1) x
  end.

Definition decimal_length (n : Z) : Z := Z.of_nat (String.length (String_of n)).

(** [String(x)] for a double [x] that is a whole number and not negative:
    all its digits below 2^53, where every whole number is a double; from
    there on the fewest digits that give [x] back, followed by zeros up to
    21 digits in all, and written with an exponent beyond. *)
Definition Number_toString (x : Z) : string :=
  if x <? 2 ^ 53 then String_of x else
  let width := decimal_length x in
  let (s, j) := shortest_digits (Z.to_nat width + 1) width x in
  let digits := String_of s in
  let n := decimal_length s + j in
  if n <=? 21 then (digits ++ repeat_string (Z.to_nat j) "0")%string
  else
    match digits with
    | String first EmptyString => (digits ++ "e+" ++ String_of (n - 1))%string
    | String first others =>
        (String first ("." ++ others) ++ "e+" ++ String_of (n - 1))%string
    | EmptyString => digits
    end.

(** [String(n)] for a number that is whole and not negative, or not
    finite *)
Definition String_of_number (n : number) : string :=
  match n with
  | Fin q => Number_toString (Qfloor q)
  | NaN => "NaN"%string
  | PosInf => "Infinity"%string
  | NegInf => "-Infinity"%string
  end.

(** [s.padStart(target, pad)]: [pad] is repeated, cut to the missing
    length and put in front; a string long enough is returned as it is. *)
Definition padStart (target : nat) (pad : string) (s : string) : string :=
  let missing := (target - String.length s)%nat in
  (take missing (repeat_string missing pad) ++ s)%string.

(* ===================================================================== *)
(** ** Constants of the app script *)
(* ===================================================================== *)

Definition UI_UPDATE_INTERVAL_MS : Z := 50.
Definition DEFAULT_TEMPO_US_PER_QUARTER : Z := 500000.
Definition DEFAULT_PPQ : Z := 480.
Definition PAUSE_LOW_POWER_MS : Z := 30000.
Definition SEEK_SLIDER_MAX : Z := 1000.

Inductive AUDIO_STATE : Type :=
| playing_state
| paused_state
| stopped_state
| lowPower_state
| wakeUp_state.

(* ===================================================================== *)
(** ** formatTimeStr *)
(* ===================================================================== *)

(** [function formatTimeStr(seconds)] *)
Definition formatTimeStr (seconds : jsval) : string :=
  match seconds with
  | VNum (Fin q) =>
      let s := Z.max 0 (Qfloor q) in
      let h := Math_floor (js_div (num s) 3600) in
      let m := Math_floor (js_div (num (js_rem s 3600)) 60) in
      let sec := num (js_rem s 60) in
      if js_lt (num 0) h
      then (String_of_number h ++ ":" ++ padStart 2 "0" (String_of_number m)
                        ++ ":" ++ padStart 2 "0" (String_of_number sec))%string
      else (padStart 2 "0" (String_of_number m)
              ++ ":" ++ padStart 2 "0" (String_of_number sec))%string
  | _ => "00:00"%string
  end.

(** The formatting rule in the words of the specification: two decimal
    digits for minutes and seconds, hours in front, unpadded, from one hour
    on; "00:00" for what is negative, not finite or not a number. *)
Definition digit (d : Z) : ascii := ascii_of_nat (48 + Z.to_nat d).

Definition two_digits (n : Z) : string :=
  String (digit (n / 10)) (String (digit (n mod 10)) EmptyString).

Definition formatTime_spec (seconds : jsval) : string :=
  match seconds with
  | VNum (Fin q) =>
      if Qle_bool 3600 q then
        let s := Qfloor q in
        (String_of (s / 3600) ++ ":" ++ two_digits ((s mod 3600) / 60)
                              ++ ":" ++ two_digits (s mod 60))%string
      else if Qle_bool 0 q then
        let s := Qfloor q in
        (two_digits (s / 60) ++ ":" ++ two_digits (s mod 60))%string
      else "00:00"%string
  | _ => "00:00"%string
  end.

(** The inputs whose whole seconds are below 2^53, where every whole
    number is a double: every input that is not a finite number, and the
    finite ones up to some 285 million years. *)
Definition whole_seconds_exact (seconds : jsval) : Prop :=
  match seconds with
  | VNum (Fin q) => Qfloor q < 2 ^ 53
  | _ => True
  end.

(* ===================================================================== *)
(** ** State of the player page *)
(* ===================================================================== *)

(** [class TimingState] *)
Record TimingState : Type := mkTiming {
  currentTick : Z;         (* source of truth for playhead *)
  totalTicks : Z;          (* track length in ticks *)
  tempoUsPerQuarter : Z;   (* last known tempo *)
  ppq : Z;                 (* PPQ from SMF header (division) *)
  secPerTick : Q
}.

(** The fields of a [JSSynthPlayer] that the transport reads or writes.
    [synth] tells whether [_init] has created [this._synth] (and with it
    the audio node and the heartbeat node). *)
Record JSSynthPlayer : Type := mkPlayer {
  synth : bool;
  nodeConnected : bool;
  tickConnected : bool;
  playing : bool;
  currentTime : Z;
  lastSmfBytes : option (list byte)
}.

(** A playlist entry: [{ name, ext, file, arrayBuffer }], with the bytes
    of the file already read. *)
Record PlaylistItem : Type := mkItem {
  item_name : string;
  item_bytes : list byte
}.

(** The module-level variables of the app script, the adapter instance
    and the one host timer the script arms. *)
Record World : Type := mkWorld {
  timing : TimingState;
  player : JSSynthPlayer;
  playlist : list PlaylistItem;
  currentIndex : Z;               (* active playlist index, -1 for none *)
  isPlaying : bool;               (* transport state *)
  autoplay : bool;
  loopOn : bool;                  (* loopToggle.checked *)
  suppressFirstSynthRead : bool;
  rafId : bool;                   (* a UI frame is requested *)
  pauseLowPowerTimer : bool;      (* the variable holds a timer id *)
  pendingTimeout : option Z       (* delay of the timer still to fire *)
}.

Inductive Query : Type :=
| retrievePlayerCurrentTick
| retrievePlayerTotalTicks
| retrievePlayerMIDITempo.

(** What the page does to its collaborators, in the order it does it:
    method calls on the adapter, commands and queries to the synthesizer,
    changes of the audio graph, host timers. *)
Inductive Event : Type :=
| CallSeek (ticks : jsval)
| CallPlay
| CallPause
| CallLoadMIDI (bytes : list byte)
| CallSetAudioState (s : AUDIO_STATE)
| SeekPlayer (t : number)
| PlayPlayer
| StopPlayer
| ResetPlayer
| AddSMFDataToPlayer (bytes : list byte)
| Ask (q : Query)
| CtxResume
| CtxSuspendAfterDrain
| NodeConnect
| NodeDisconnect
| TickConnect
| TickDisconnect
| SetTimeout (ms : Z)
| ClearTimeout
| RequestAnimationFrame
| CancelAnimationFrame
| Alert.

(* ===================================================================== *)
(** ** A state, exception and trace monad for the script *)
(* ===================================================================== *)

Inductive completion (A : Type) : Type :=
| Normal (a : A)
| Thrown.
Arguments Normal {A} a.
Arguments Thrown {A}.

Record Outcome (A : Type) : Type := mkOutcome {
  result : completion A;
  world : World;
  events : list Event
}.
Arguments mkOutcome {A}.
Arguments result {A}.
Arguments world {A}.
Arguments events {A}.

Definition Act (A : Type) : Type := World -> Outcome A.

Definition ret {A} (a : A) : Act A := fun w => mkOutcome (Normal a) w [].

Definition throw {A} : Act A := fun w => mkOutcome Thrown w [].

Definition bind {A B} (m : Act A) (k : A -> Act B) : Act B := fun w =>
  match m w with
  | mkOutcome (Normal a) w1 e1 =>
      match k a w1 with
      | mkOutcome r w2 e2 => mkOutcome r w2 (e1 ++ e2)
      end
  | mkOutcome Thrown w1 e1 => mkOutcome Thrown w1 e1
  end.

Declare Scope act_scope.
Delimit Scope act_scope with act.
Notation "x <- c1 ;; c2" := (bind c1 (fun x => c2))
  (at level 61, c1 at next level, right associativity) : act_scope.
Notation "c1 ;; c2" := (bind c1 (fun _ => c2))
  (at level 61, right associativity) : act_scope.
Open Scope act_scope.

(** [try { c } catch (e) { console.error(e) }] *)
Definition try_ (c : Act unit) : Act unit := fun w =>
  match c w with
  | mkOutcome _ w1 e1 => mkOutcome (Normal tt) w1 e1
  end.

(** [try { c } catch (e) { h }] *)
Definition try_catch {A} (c : Act A) (h : Act A) : Act A := fun w =>
  match c w with
  | mkOutcome (Normal a) w1 e1 => mkOutcome (Normal a) w1 e1
  | mkOutcome Thrown w1 e1 =>
      match h w1 with
      | mkOutcome r w2 e2 => mkOutcome r w2 (e1 ++ e2)
      end
  end.

Definition gets {A} (f : World -> A) : Act A := fun w => mkOutcome (Normal (f w)) w [].

Definition modify (f : World -> World) : Act unit := fun w => mkOutcome (Normal tt) (f w) [].

Definition emit (e : Event) : Act unit := fun w => mkOutcome (Normal tt) w [e].

Definition when (b : bool) (c : Act unit) : Act unit := if b then c else ret tt.

(** A value that may be missing, read where a missing one throws. *)
Definition must {A} (o : option A) : Act A :=
  match o with
  | Some a => ret a
  | None => throw
  end.

(** The answer of the synthesizer to a call that may throw or reject. *)
Definition answer {A} (c : completion A) : Act A :=
  match c with
  | Normal a => ret a
  | Thrown => throw
  end.

(* ===================================================================== *)
(** ** Field updates *)
(* ===================================================================== *)

Definition upd_timing (f : TimingState -> TimingState) (w : World) : World :=
  mkWorld (f (timing w)) (player w) (playlist w) (currentIndex w) (isPlaying w)
          (autoplay w) (loopOn w) (suppressFirstSynthRead w) (rafId w)
          (pauseLowPowerTimer w) (pendingTimeout w).

Definition upd_player (f : JSSynthPlayer -> JSSynthPlayer) (w : World) : World :=
  mkWorld (timing w) (f (player w)) (playlist w) (currentIndex w) (isPlaying w)
          (autoplay w) (loopOn w) (suppressFirstSynthRead w) (rafId w)
          (pauseLowPowerTimer w) (pendingTimeout w).

Definition set_currentIndex (i : Z) (w : World) : World :=
  mkWorld (timing w) (player w) (playlist w) i (isPlaying w)
          (autoplay w) (loopOn w) (suppressFirstSynthRead w) (rafId w)
          (pauseLowPowerTimer w) (pendingTimeout w).

Definition set_isPlaying (b : bool) (w : World) : World :=
  mkWorld (timing w) (player w) (playlist w) (currentIndex w) b
          (autoplay w) (loopOn w) (suppressFirstSynthRead w) (rafId w)
          (pauseLowPowerTimer w) (pendingTimeout w).

Definition set_suppressFirstSynthRead (b : bool) (w : World) : World :=
  mkWorld (timing w) (player w) (playlist w) (currentIndex w) (isPlaying w)
          (autoplay w) (loopOn w) b (rafId w)
          (pauseLowPowerTimer w) (pendingTimeout w).

Definition set_rafId (b : bool) (w : World) : World :=
  mkWorld (timing w) (player w) (playlist w) (currentIndex w) (isPlaying w)
          (autoplay w) (loopOn w) (suppressFirstSynthRead w) b
          (pauseLowPowerTimer w) (pendingTimeout w).

Definition set_pauseLowPowerTimer (b : bool) (w : World) : World :=
  mkWorld (timing w) (player w) (playlist w) (currentIndex w) (isPlaying w)
          (autoplay w) (loopOn w) (suppressFirstSynthRead w) (rafId w)
          b (pendingTimeout w).

Definition set_pendingTimeout (t : option Z) (w : World) : World :=
  mkWorld (timing w) (player w) (playlist w) (currentIndex w) (isPlaying w)
          (autoplay w) (loopOn w) (suppressFirstSynthRead w) (rafId w)
          (pauseLowPowerTimer w) t.

Definition set_currentTick (t : Z) (s : TimingState) : TimingState :=
  mkTiming t (totalTicks s) (tempoUsPerQuarter s) (ppq s) (secPerTick s).

Definition set_ppq (v : Z) (s : TimingState) : TimingState :=
  mkTiming (currentTick s) (totalTicks s) (tempoUsPerQuarter s) v (secPerTick s).

Definition set_nodeConnected (b : bool) (p : JSSynthPlayer) : JSSynthPlayer :=
  mkPlayer (synth p) b (tickConnected p) (playing p) (currentTime p) (lastSmfBytes p).

Definition set_tickConnected (b : bool) (p : JSSynthPlayer) : JSSynthPlayer :=
  mkPlayer (synth p) (nodeConnected p) b (playing p) (currentTime p) (lastSmfBytes p).

Definition set_playing (b : bool) (p : JSSynthPlayer) : JSSynthPlayer :=
  mkPlayer (synth p) (nodeConnected p) (tickConnected p) b (currentTime p) (lastSmfBytes p).

Definition set_currentTime (t : Z) (p : JSSynthPlayer) : JSSynthPlayer :=
  mkPlayer (synth p) (nodeConnected p) (tickConnected p) (playing p) t (lastSmfBytes p).

Definition set_lastSmfBytes (b : option (list byte)) (p : JSSynthPlayer) : JSSynthPlayer :=
  mkPlayer (synth p) (nodeConnected p) (tickConnected p) (playing p) (currentTime p) b.

(** [_init] has run to its end: the synthesizer exists and both nodes are
    connected. *)
Definition initialised (p : JSSynthPlayer) : JSSynthPlayer :=
  mkPlayer true true true (playing p) (currentTime p) (lastSmfBytes p).

(* ===================================================================== *)
(** ** TimingState methods *)
(* ===================================================================== *)

(** [(tempoUsPerQuarter / 1e6) / ppq] *)
Definition sec_per_tick (tempo resolution : Z) : Q :=
  ((inject_Z tempo / inject_Z 1000000) / inject_Z resolution)%Q.

(** [constructor()]; [secPerTick] is not assigned there and reads as 0
    here until [setSecPerTick] runs. *)
Definition TimingState_new : TimingState :=
  mkTiming 0 0 DEFAULT_TEMPO_US_PER_QUARTER DEFAULT_PPQ 0%Q.

(** [setSecPerTick()] *)
Definition setSecPerTick (s : TimingState) : TimingState :=
  mkTiming (currentTick s) (totalTicks s) (tempoUsPerQuarter s) (ppq s)
           (sec_per_tick (tempoUsPerQuarter s) (ppq s)).

(** [reset()] *)
Definition reset (s : TimingState) : TimingState :=
  setSecPerTick (mkTiming 0 0 DEFAULT_TEMPO_US_PER_QUARTER DEFAULT_PPQ 0%Q).

(** [updateFromSynth(totalTicks, tempoUsPerQuarter, ppq = this.ppq)]; a
    [null] argument is [None], and the third argument is always left to
    its default by the callers. *)
Definition updateFromSynth (total tempo : option Z) (s : TimingState) : TimingState :=
  let total' := match total with
                | Some t => if 0 <? t then t else totalTicks s
                | None => totalTicks s
                end in
  let tempo' := match tempo with
                | Some t => if 0 <? t then t else tempoUsPerQuarter s
                | None => tempoUsPerQuarter s
                end in
  let ppq' := if 0 <? ppq s then ppq s else ppq s in
  setSecPerTick (mkTiming (currentTick s) total' tempo' ppq' (secPerTick s)).

(** [ticksToSeconds(ticks)] *)
Definition ticksToSeconds (ticks : Z) (s : TimingState) : Q :=
  (inject_Z ticks * secPerTick s)%Q.

(** [clampTick()] *)
Definition clampTick (s : TimingState) : TimingState :=
  set_currentTick (Z.max 0 (Z.min (currentTick s) (totalTicks s))) s.

(** The range the playhead is meant to stay in. *)
Definition tick_in_range (s : TimingState) : Prop :=
  0 < totalTicks s -> 0 <= currentTick s <= totalTicks s.

(* ===================================================================== *)
(** ** The adapter: class JSSynthPlayer *)
(* ===================================================================== *)

Definition the_synth : Act bool := gets (fun w => synth (player w)).

(** [_waitForReady()]: returns once [_init] has completed. *)
Definition _waitForReady : Act unit :=
  modify (upd_player (fun p => if synth p then p else initialised p)).

(** [_safeSynthCall(method)] for a command of the main synthesizer *)
Definition _safeSynthCall (command : Event) : Act unit :=
  s <- the_synth ;; when s (emit command).

(** [setMainNodeEnabled(enabled)] *)
Definition setMainNodeEnabled (enabled : bool) : Act unit :=
  s <- the_synth ;;
  if negb s then ret tt else
  c <- gets (fun w => nodeConnected (player w)) ;;
  if enabled && negb c then
    emit NodeConnect ;; modify (upd_player (set_nodeConnected true))
  else if negb enabled && c then
    emit NodeDisconnect ;; modify (upd_player (set_nodeConnected false))
  else ret tt.

(** [setHeartbeatEnabled(enabled)] *)
Definition setHeartbeatEnabled (enabled : bool) : Act unit :=
  s <- the_synth ;;
  if negb s then ret tt else
  c <- gets (fun w => tickConnected (player w)) ;;
  if enabled && negb c then
    emit TickConnect ;; modify (upd_player (set_tickConnected true))
  else if negb enabled && c then
    emit TickDisconnect ;; modify (upd_player (set_tickConnected false))
  else ret tt.

(** [setIdle(idle)]: suspending is deferred until the buffers have drained. *)
Definition setIdle (idle : bool) : Act unit :=
  if idle then emit CtxSuspendAfterDrain else emit CtxResume.

(** [setAudioState(state)] *)
Definition setAudioState (state : AUDIO_STATE) : Act unit :=
  match state with
  | playing_state =>
      setIdle false ;; setMainNodeEnabled true ;; setHeartbeatEnabled true
  | paused_state =>
      setHeartbeatEnabled false
  | stopped_state =>
      setHeartbeatEnabled false ;; setMainNodeEnabled false ;; setIdle true
  | lowPower_state =>
      setHeartbeatEnabled false ;; setMainNodeEnabled false ;; setIdle true
  | wakeUp_state =>
      setIdle false ;; setMainNodeEnabled true
  end.

(** [loadMIDI(SMFbytes)]; [accepted] tells whether the synthesizer takes
    the bytes ([addSMFDataToPlayer] resolves) or rejects them. *)
Definition loadMIDI (SMFbytes : list byte) (accepted : bool) : Act unit :=
  _waitForReady ;;
  modify (upd_player (set_lastSmfBytes (Some SMFbytes))) ;;
  _safeSynthCall StopPlayer ;;
  _safeSynthCall ResetPlayer ;;
  emit (AddSMFDataToPlayer SMFbytes) ;;
  (if accepted then ret tt else throw) ;;
  modify (upd_player (set_currentTime 0)).

(** [play()] *)
Definition play : Act unit :=
  emit CtxResume ;;
  s <- the_synth ;;
  if s then emit PlayPlayer ;; modify (upd_player (set_playing true))
  else throw.

(** [pause()] *)
Definition pause : Act unit :=
  s <- the_synth ;;
  if s then emit StopPlayer ;; modify (upd_player (set_playing false))
  else throw.

(** The tick that [seek(ticks)] hands to the synthesizer:
    [Math.max(0, Math.floor(Number(ticks) || 0))] *)
Definition seek_target (ticks : jsval) : number :=
  Math_max (num 0) (Math_floor (or_else (Number ticks) (num 0))).

(** [seek(ticks)] *)
Definition seek (ticks : jsval) : Act unit :=
  s <- the_synth ;;
  if negb s then ret tt else
  let t := seek_target ticks in
  emit (SeekPlayer t) ;;
  modify (upd_player (fun p =>
    set_currentTime (if strict_eq t (num 0) then 0 else currentTime p) p)).

(** A query sent straight to [this._synth]: it throws when there is no
    synthesizer, and otherwise completes as the synthesizer answers. *)
Definition synth_query (q : Query) (reply : completion Z) : Act Z :=
  s <- the_synth ;;
  if s then emit (Ask q) ;; answer reply else throw.

(** [getTotalTicks()], [getCurrentTick()], [getMidiTempoUsPerQuarter()] as
    written in synthesizer-player.js: [try { return await q } catch { return d }] *)
Definition getTotalTicks (reply : completion Z) : Act Z :=
  try_catch (synth_query retrievePlayerTotalTicks reply) (ret 0).

Definition getCurrentTick (reply : completion Z) : Act Z :=
  try_catch (synth_query retrievePlayerCurrentTick reply) (ret 0).

Definition getMidiTempoUsPerQuarter (reply : completion Z) : Act Z :=
  try_catch (synth_query retrievePlayerMIDITempo reply) (ret 500000).

(** The same three in the later adapter: [_safeSynthCall] gives [null] on
    any failure, and the method returns [result || d]. *)
Definition _safeSynthQuery (q : Query) (reply : completion Z) : Act (option Z) :=
  try_catch
    (s <- the_synth ;;
     if s then emit (Ask q) ;; v <- answer reply ;; ret (Some v) else ret None)
    (ret None).

Definition or_default (r : option Z) (d : Z) : Z :=
  match r with
  | Some v => if v =? 0 then d else v
  | None => d
  end.

Definition getTotalTicks_v2 (reply : completion Z) : Act Z :=
  r <- _safeSynthQuery retrievePlayerTotalTicks reply ;; ret (or_default r 0).

Definition getCurrentTick_v2 (reply : completion Z) : Act Z :=
  r <- _safeSynthQuery retrievePlayerCurrentTick reply ;; ret (or_default r 0).

Definition getMidiTempoUsPerQuarter_v2 (reply : completion Z) : Act Z :=
  r <- _safeSynthQuery retrievePlayerMIDITempo reply ;; ret (or_default r 500000).

(* ===================================================================== *)
(** ** The app script: helpers *)
(* ===================================================================== *)

(** What the synthesizer answers during one operation of the page.  A
    query made through [safeSynthCall] yields [null] when it fails: that
    is [None].  [loadTrack] awaits two queries directly: they may throw. *)
Record Replies : Type := mkReplies {
  tickReply : option Z;       (* retrievePlayerCurrentTick, via safeSynthCall *)
  totalReply : option Z;      (* retrievePlayerTotalTicks, via safeSynthCall *)
  tempoReply : option Z;      (* retrievePlayerMIDITempo, via safeSynthCall *)
  loadAccepted : bool;        (* addSMFDataToPlayer resolves *)
  loadTotal : completion Z;   (* retrievePlayerTotalTicks, awaited by loadTrack *)
  loadTempo : completion Z;   (* retrievePlayerMIDITempo, awaited by loadTrack *)
  synthPlaying : bool         (* isPlayerPlaying() *)
}.

Definition the_timing {A} (f : TimingState -> A) : Act A := gets (fun w => f (timing w)).

(** A call of an [async] function whose promise nobody awaits: what it
    throws does not reach the caller. *)
Definition detached (c : Act unit) : Act unit := try_ c.

(** [player.seek(t)] from the script, [t] a tick count *)
Definition call_seek (t : Z) : Act unit :=
  emit (CallSeek (VNum (num t))) ;; seek (VNum (num t)).

(** [safePlayerCall(player.setAudioState, state)] *)
Definition safePlayerCall_setAudioState (state : AUDIO_STATE) : Act unit :=
  try_ (emit (CallSetAudioState state) ;; setAudioState state).

(** [safeSynthCall(method)], in two halves: the call is made when there
    is a synthesizer; the awaited value is its answer, or [null]. *)
Definition safeSynthCall_send (q : Query) : Act bool :=
  s <- the_synth ;; when s (emit (Ask q)) ;; ret s.

Definition safeSynthCall_value (sent : bool) (reply : option Z) : option Z :=
  if sent then reply else None.

Definition safeSynthCall (q : Query) (reply : option Z) : Act (option Z) :=
  sent <- safeSynthCall_send q ;; ret (safeSynthCall_value sent reply).

(** [safeClearTimeout(pauseLowPowerTimer)], with the assignment of its
    result [0] to the variable *)
Definition safeClearTimeout : Act unit :=
  held <- gets pauseLowPowerTimer ;;
  when held (emit ClearTimeout ;; modify (set_pendingTimeout None)) ;;
  modify (set_pauseLowPowerTimer false).

(** [getTrackCount()] *)
Definition getTrackCount (w : World) : Z := Z.of_nat (List.length (playlist w)).

(** [hasSingleTrack()] *)
Definition hasSingleTrack (w : World) : bool := getTrackCount w =? 1.

(** [getNextIndexForPlayer()]; [null] is [None]. *)
Definition getNextIndexForPlayer (w : World) : option Z :=
  let len := getTrackCount w in
  if len =? 0 then None
  else if hasSingleTrack w then None
  else if loopOn w then Some (js_rem (currentIndex w + 1) len)
  else if autoplay w then
    (if currentIndex w <? len - 1 then Some (currentIndex w + 1) else None)
  else None.

(** [getNextIndexForButton()] *)
Definition getNextIndexForButton (w : World) : Z :=
  let len := getTrackCount w in
  if len =? 0 then -1 else js_rem (currentIndex w + 1) len.

(** [getPrevIndexForButton()] *)
Definition getPrevIndexForButton (w : World) : Z :=
  let len := getTrackCount w in
  if len =? 0 then -1 else js_rem (currentIndex w - 1 + len) len.

(* ===================================================================== *)
(** ** Header parsing *)
(* ===================================================================== *)

Definition byte_at (buf : list byte) (i : nat) : option Z :=
  option_map (fun b => Z.of_N (Byte.to_N b)) (nth_error buf i).

(** [dv.getUint32(off, false)]: big-endian; out of bounds it throws. *)
Definition getUint32 (buf : list byte) (off : nat) : option Z :=
  match byte_at buf off, byte_at buf (off + 1), byte_at buf (off + 2), byte_at buf (off + 3) with
  | Some a, Some b, Some c, Some d =>
      Some (Z.shiftl a 24 + Z.shiftl b 16 + Z.shiftl c 8 + d)
  | _, _, _, _ => None
  end.

(** [dv.getInt16(off, false)]: big-endian, signed; out of bounds it throws. *)
Definition getInt16 (buf : list byte) (off : nat) : option Z :=
  match byte_at buf off, byte_at buf (off + 1) with
  | Some a, Some b =>
      let u := Z.shiftl a 8 + b in
      Some (if u <? 32768 then u else u - 65536)
  | _, _ => None
  end.

(** [function parsePpqFromSmfHeader(arrayBuffer)] *)
Definition parsePpqFromSmfHeader (arrayBuffer : list byte) : Act unit :=
  try_
    (magic <- must (getUint32 arrayBuffer 0) ;;
     if magic =? 0x4D546864 then
       div <- must (getInt16 arrayBuffer 12) ;;
       if Z.land div 0x8000 =? 0 then
         (if 0 <? div
          then modify (upd_timing (set_ppq div))
          else modify (upd_timing (set_ppq DEFAULT_PPQ))) ;;
         modify (upd_timing setSecPerTick)
       else ret tt
     else ret tt).

(* ===================================================================== *)
(** ** Timeline update and power timer *)
(* ===================================================================== *)

(** [updateTimeline()] up to the [await] of the current tick.  The result
    is [Some sent] when the function is suspended there ([sent]: the query
    went out), and [None] when no tick is read in this call. *)
Definition updateTimeline_begin : Act (option bool) :=
  p <- gets isPlaying ;;
  if p then
    sup <- gets suppressFirstSynthRead ;;
    if sup then modify (set_suppressFirstSynthRead false) ;; ret None
    else sent <- safeSynthCall_send retrievePlayerCurrentTick ;; ret (Some sent)
  else ret None.

(** [if (tick !== null) timing.currentTick = tick] *)
Definition applyTick (tick : option Z) : Act unit :=
  match tick with
  | Some t => modify (upd_timing (set_currentTick t))
  | None => ret tt
  end.

(** [updateTimeline()] from the point where the awaited tick has arrived. *)
Definition updateTimeline_resume (pending : option bool) (r : Replies) : Act unit :=
  match pending with
  | Some sent => applyTick (safeSynthCall_value sent (tickReply r))
  | None => ret tt
  end ;;
  total <- the_timing totalTicks ;;
  when (total =? 0)
    (a <- safeSynthCall retrievePlayerTotalTicks (totalReply r) ;;
     b <- safeSynthCall retrievePlayerMIDITempo (tempoReply r) ;;
     modify (upd_timing (updateFromSynth a b))).

(** [async function updateTimeline()]; the labels and the slider it
    writes are not part of the state. *)
Definition updateTimeline (r : Replies) : Act unit :=
  pending <- updateTimeline_begin ;; updateTimeline_resume pending r.

(** The callback armed by [schedulePauseLowPower] *)
Definition pauseLowPowerCallback : Act unit :=
  p <- gets isPlaying ;;
  when (negb p) (safePlayerCall_setAudioState lowPower_state).

(** [function schedulePauseLowPower()] *)
Definition schedulePauseLowPower : Act unit :=
  safeClearTimeout ;;
  emit (SetTimeout PAUSE_LOW_POWER_MS) ;;
  modify (set_pendingTimeout (Some PAUSE_LOW_POWER_MS)) ;;
  modify (set_pauseLowPowerTimer true).

(** The host runs the callback of the timer when its delay has elapsed. *)
Definition timerFires : Act unit :=
  t <- gets pendingTimeout ;;
  match t with
  | Some _ => modify (set_pendingTimeout None) ;; pauseLowPowerCallback
  | None => ret tt
  end.

(** [function cancelPauseLowPower()] *)
Definition cancelPauseLowPower : Act unit :=
  safeClearTimeout ;; safePlayerCall_setAudioState wakeUp_state.

(** [function clearPauseLowPowerTimer()] *)
Definition clearPauseLowPowerTimer : Act unit := safeClearTimeout.

(** [function startUiLoop()] *)
Definition startUiLoop : Act unit :=
  r <- gets rafId ;;
  when (negb r) (emit RequestAnimationFrame ;; modify (set_rafId true)).

(** [function stopUiLoop()] *)
Definition stopUiLoop : Act unit :=
  r <- gets rafId ;;
  when r (emit CancelAnimationFrame ;; modify (set_rafId false)).

(* ===================================================================== *)
(** ** Transport controls *)
(* ===================================================================== *)

(** [async function playTrack()] *)
Definition playTrack : Act unit :=
  idx <- gets currentIndex ;;
  if idx <? 0 then ret tt else
  cur <- the_timing currentTick ;;
  try_ (call_seek cur) ;;
  modify (set_suppressFirstSynthRead true) ;;
  emit CallPlay ;; play ;;
  modify (set_isPlaying true) ;;
  safePlayerCall_setAudioState playing_state ;;
  startUiLoop ;;
  cancelPauseLowPower.

(** [async function pauseTrack()] up to the [await] of the current tick;
    the result tells whether the query went out. *)
Definition pauseTrack_begin : Act bool :=
  safeSynthCall_send retrievePlayerCurrentTick.

(** [pauseTrack()] from the point where the awaited tick has arrived. *)
Definition pauseTrack_resume (sent : bool) (r : Replies) : Act unit :=
  applyTick (safeSynthCall_value sent (tickReply r)) ;;
  emit CallPause ;; pause ;;
  modify (set_isPlaying false) ;;
  detached (updateTimeline r) ;;
  safePlayerCall_setAudioState paused_state ;;
  stopUiLoop ;;
  schedulePauseLowPower.

Definition pauseTrack (r : Replies) : Act unit :=
  sent <- pauseTrack_begin ;; pauseTrack_resume sent r.

(** [async function stopTrack()] *)
Definition stopTrack (r : Replies) : Act unit :=
  emit CallPause ;; pause ;;
  modify (upd_timing (set_currentTick 0)) ;;
  try_catch
    (s <- the_synth ;;
     last <- gets (fun w => lastSmfBytes (player w)) ;;
     match s, last with
     | true, Some smf =>
         emit StopPlayer ;;
         emit ResetPlayer ;;
         emit (AddSMFDataToPlayer smf) ;;
         (if loadAccepted r then ret tt else throw) ;;
         emit (SeekPlayer (num 0))
     | _, _ => call_seek 0
     end)
    (call_seek 0) ;;
  modify (set_isPlaying false) ;;
  updateTimeline r ;;
  safePlayerCall_setAudioState stopped_state ;;
  stopUiLoop ;;
  clearPauseLowPowerTimer.

(** [function loadTrack(index)] with the [proceed] it runs on the bytes *)
Definition loadTrack (index : Z) (r : Replies) : Act unit :=
  len <- gets getTrackCount ;;
  if (index <? 0) || (len <=? index) then ret tt else
  items <- gets playlist ;;
  match nth_error items (Z.to_nat index) with
  | None => ret tt
  | Some item =>
      modify (set_currentIndex index) ;;
      try_catch
        (emit CallPause ;; pause ;;
         modify (upd_timing reset) ;;
         parsePpqFromSmfHeader (item_bytes item) ;;
         emit (CallLoadMIDI (item_bytes item)) ;;
         loadMIDI (item_bytes item) (loadAccepted r) ;;
         try_catch
           (s <- the_synth ;;
            total <- (if s then synth_query retrievePlayerTotalTicks (loadTotal r)
                      else ret 0) ;;
            tempo <- (if s then
                        t <- synth_query retrievePlayerMIDITempo (loadTempo r) ;;
                        ret (if t =? 0 then DEFAULT_TEMPO_US_PER_QUARTER else t)
                      else ret DEFAULT_TEMPO_US_PER_QUARTER) ;;
            modify (upd_timing (updateFromSynth (Some total) (Some tempo))))
           (modify (upd_timing reset)) ;;
         updateTimeline r)
        (emit Alert)
  end.

(** [function onEnded()] *)
Definition onEnded (r : Replies) : Act unit :=
  modify (set_isPlaying false) ;;
  len <- gets getTrackCount ;;
  loop <- gets loopOn ;;
  if len =? 1 then
    if loop then
      modify (upd_timing (set_currentTick 0)) ;;
      call_seek 0 ;;
      detached playTrack
    else detached (stopTrack r)
  else
    nextIdx <- gets getNextIndexForPlayer ;;
    match nextIdx with
    | Some n => detached (loadTrack n r ;; playTrack)
    | None => detached (stopTrack r)
    end.

(** [function checkForTrackEnd(context)] *)
Definition checkForTrackEnd (r : Replies) : Act unit :=
  try_
    (p <- gets isPlaying ;;
     s <- the_synth ;;
     if negb p || negb s then ret tt else
     cur <- the_timing currentTick ;;
     total <- the_timing totalTicks ;;
     let reachedEnd := (0 <? total) && (total - 1 <=? cur) in
     let synthStopped := negb (synthPlaying r) in
     when (reachedEnd || synthStopped) (onEnded r)).

(** [async function togglePlayPause()] *)
Definition togglePlayPause (r : Replies) : Act unit :=
  p <- gets isPlaying ;;
  if p then pauseTrack r
  else
    idx <- gets currentIndex ;;
    len <- gets getTrackCount ;;
    when ((idx =? -1) && (0 <? len)) (loadTrack 0 r) ;;
    detached playTrack.

(** [async function rewindToBeginning()] *)
Definition rewindToBeginning (r : Replies) : Act unit :=
  idx <- gets currentIndex ;;
  if idx =? -1 then ret tt else
  try_
    (s <- the_synth ;;
     when s (emit (SeekPlayer (num 0))) ;;
     call_seek 0 ;;
     modify (upd_timing (set_currentTick 0)) ;;
     updateTimeline r).

(** [async function prevTrack()] *)
Definition prevTrack (r : Replies) : Act unit :=
  len <- gets getTrackCount ;;
  if len =? 0 then ret tt else
  prevIndex <- gets getPrevIndexForButton ;;
  loadTrack prevIndex r ;;
  detached playTrack.

(** [async function nextTrack()] *)
Definition nextTrack (r : Replies) : Act unit :=
  len <- gets getTrackCount ;;
  if len =? 0 then ret tt else
  nextIndex <- gets getNextIndexForButton ;;
  loadTrack nextIndex r ;;
  detached playTrack.

(** The tick the seek slider asks for:
    [Math.floor((Number(seekEl.value) / SEEK_SLIDER_MAX) * timing.totalTicks)],
    the quotient and the product rounded as doubles; [value] is the
    number the slider holds, and [total] is above 0 where this is used. *)
Definition slider_target (value : Q) (total : Z) : number :=
  Math_floor (js_mul (js_div (Fin value) SEEK_SLIDER_MAX) total).

(** The target in the words of the specification:
    [floor(fraction * totalTicks)] on the fraction the slider stands for,
    with nothing rounded. *)
Definition floor_of_fraction (value : Q) (total : Z) : Z :=
  Qfloor ((value / inject_Z SEEK_SLIDER_MAX) * inject_Z total).

(** The whole number of ticks that [timing.currentTick] holds after a
    number is assigned to it.  The timing state of the model holds whole
    numbers; the slider's target is one whenever it is finite, and an
    infinite one (the product of a slider value and a tick count far
    outside what either takes) is left out: 0 stands for it. *)
Definition ticks_of (n : number) : Z :=
  match n with
  | Fin q => Qfloor q
  | _ => 0
  end.

(** The 'input' handler of the seek slider up to its call of
    [updateTimeline()]; the result tells whether the seek was applied. *)
Definition seekInput_begin (value : Q) : Act bool :=
  total <- the_timing totalTicks ;;
  if 0 <? total then
    let targetTicks := slider_target value total in
    modify (upd_timing (set_currentTick (ticks_of targetTicks))) ;;
    try_ (emit (CallSeek (VNum targetTicks)) ;; seek (VNum targetTicks)) ;;
    ret true
  else ret false.

(** The whole handler *)
Definition seekInput (value : Q) (r : Replies) : Act unit :=
  try_ (applied <- seekInput_begin value ;;
        when applied (detached (updateTimeline r))).

(* ===================================================================== *)
(** ** Calls that nobody awaits *)
(* ===================================================================== *)

(** An [async] function that is called and not awaited runs up to its
    first [await] and returns to its caller; the rest of it runs later,
    from one [await] to the next, between whatever else is pending.  A
    [Task] is what is left of such a call: nothing, or what runs when it
    is resumed, which ends at the next [await] (or at the end) and gives
    what is left then.  Resumed, a task may throw: the promise of the
    call is rejected, and nothing more of it runs. *)
#[warnings="-register-all"]
Inductive Task : Type :=
| Finished
| Suspended (resume : Act Task).

(** A task that runs to its end with nothing in between. *)
Fixpoint finish (t : Task) : Act unit := fun w =>
  match t with
  | Finished => mkOutcome (Normal tt) w []
  | Suspended resume =>
      match resume w with
      | mkOutcome (Normal rest) w1 e1 =>
          match finish rest w1 with
          | mkOutcome r w2 e2 => mkOutcome r w2 (e1 ++ e2)
          end
      | mkOutcome Thrown w1 e1 => mkOutcome Thrown w1 e1
      end
  end.

(** A task resumed once, to its next [await]; a rejection that nobody
    handles ends it. *)
Definition resume_once (t : Task) : Act Task :=
  match t with
  | Finished => ret Finished
  | Suspended resume => try_catch resume (ret Finished)
  end.

(** Two tasks resumed in the order that [turns] gives ([true] for the
    first of them); when the turns are used up, each of the two runs to
    its end. *)
Fixpoint interleave (turns : list bool) (a b : Task) : Act unit :=
  match turns with
  | [] => detached (finish a) ;; detached (finish b)
  | true :: later => a' <- resume_once a ;; interleave later a' b
  | false :: later => b' <- resume_once b ;; interleave later a b'
  end.

(** [updateTimeline()] from the point where it looks at the length: the
    length and the tempo are awaited one after the other when the length
    is 0.  [next] is what the caller that awaits the call goes on with
    ([Finished] for a call that nobody awaits). *)
Definition updateTimeline_lazy (r : Replies) (next : Task) : Act Task :=
  total <- the_timing totalTicks ;;
  if total =? 0 then
    sentTotal <- safeSynthCall_send retrievePlayerTotalTicks ;;
    ret (Suspended
      (sentTempo <- safeSynthCall_send retrievePlayerMIDITempo ;;
       ret (Suspended
         (modify (upd_timing
            (updateFromSynth (safeSynthCall_value sentTotal (totalReply r))
                             (safeSynthCall_value sentTempo (tempoReply r)))) ;;
          ret next))))
  else ret next.

(** [updateTimeline()] called: it runs up to its first [await], and the
    rest is a task. *)
Definition updateTimeline_started (r : Replies) (next : Task) : Act Task :=
  pending <- updateTimeline_begin ;;
  match pending with
  | Some sent =>
      ret (Suspended
        (applyTick (safeSynthCall_value sent (tickReply r)) ;;
         updateTimeline_lazy r next))
  | None => updateTimeline_lazy r next
  end.

(** [playTrack()] called: it is suspended at [await ensurePlayer()], and
    has no other [await]. *)
Definition playTrack_task : Task := Suspended (playTrack ;; ret Finished).

(** [stopTrack()] from [isPlaying = false] on *)
Definition stopTrack_end (r : Replies) : Act Task :=
  modify (set_isPlaying false) ;;
  updateTimeline_started r
    (Suspended
       (safePlayerCall_setAudioState stopped_state ;;
        stopUiLoop ;;
        clearPauseLowPowerTimer ;;
        ret Finished)).

(** [stopTrack()] called: it is suspended at [await ensurePlayer()], then
    at the two calls of the synthesizer it awaits, then in and after
    [updateTimeline()]. *)
Definition stopTrack_task (r : Replies) : Task :=
  Suspended
    (emit CallPause ;; pause ;;
     modify (upd_timing (set_currentTick 0)) ;;
     s <- the_synth ;;
     last <- gets (fun w => lastSmfBytes (player w)) ;;
     match s, last with
     | true, Some smf =>
         emit StopPlayer ;;
         emit ResetPlayer ;;
         ret (Suspended
           (emit (AddSMFDataToPlayer smf) ;;
            ret (Suspended
              ((if loadAccepted r then emit (SeekPlayer (num 0)) else call_seek 0) ;;
               stopTrack_end r))))
     | _, _ => try_catch (call_seek 0) (call_seek 0) ;; stopTrack_end r
     end).

(** [proceed(arrayBuffer)] of [loadTrack]: [player.pause()] at once, then
    one piece after each [await]: of [waitForSynthReady], of the four
    steps of [loadMIDI], of the two queries, of [updateTimeline()].
    Whatever fails in a piece is [caught] and reported, and [proceed]
    ends normally: [next] is what is chained to the promise of
    [loadTrack]. *)
Definition proceed (item : PlaylistItem) (r : Replies) (next : Task) : Act Task :=
  let SMFbytes := item_bytes item in
  let caught := fun piece : Act Task => try_catch piece (emit Alert ;; ret next) in
  let timeline := updateTimeline_started r next in
  caught
    (emit CallPause ;; pause ;;
     ret (Suspended (caught
       (modify (upd_timing reset) ;;
        parsePpqFromSmfHeader SMFbytes ;;
        emit (CallLoadMIDI SMFbytes) ;;
        ret (Suspended (caught
          (_waitForReady ;;
           modify (upd_player (set_lastSmfBytes (Some SMFbytes))) ;;
           _safeSynthCall StopPlayer ;;
           ret (Suspended (caught
             (_safeSynthCall ResetPlayer ;;
              ret (Suspended (caught
                (emit (AddSMFDataToPlayer SMFbytes) ;;
                 ret (Suspended (caught
                   (if loadAccepted r then
                      modify (upd_player (set_currentTime 0)) ;;
                      s <- the_synth ;;
                      if s then
                        emit (Ask retrievePlayerTotalTicks) ;;
                        ret (Suspended (caught
                          (match loadTotal r with
                           | Normal total =>
                               s' <- the_synth ;;
                               if s' then
                                 emit (Ask retrievePlayerMIDITempo) ;;
                                 ret (Suspended (caught
                                   (match loadTempo r with
                                    | Normal t =>
                                        let tempo :=
                                          if t =? 0 then DEFAULT_TEMPO_US_PER_QUARTER else t in
                                        modify (upd_timing
                                          (updateFromSynth (Some total) (Some tempo))) ;;
                                        timeline
                                    | Thrown => modify (upd_timing reset) ;; timeline
                                    end)))
                               else
                                 modify (upd_timing
                                   (updateFromSynth (Some total)
                                      (Some DEFAULT_TEMPO_US_PER_QUARTER))) ;;
                                 timeline
                           | Thrown => modify (upd_timing reset) ;; timeline
                           end)))
                      else
                        modify (upd_timing
                          (updateFromSynth (Some 0) (Some DEFAULT_TEMPO_US_PER_QUARTER))) ;;
                        timeline
                    else throw)))))))))))))))).

(** [loadTrack(index)] called, with [next] chained to its promise.  The
    index is set at once; [proceed] is started at once when the bytes of
    the entry are [cached] (the entry has been loaded before), and when
    the file has been read otherwise. *)
Definition loadTrack_started (index : Z) (cached : bool) (r : Replies) (next : Task) :
    Act Task :=
  len <- gets getTrackCount ;;
  if (index <? 0) || (len <=? index) then ret next else
  items <- gets playlist ;;
  match nth_error items (Z.to_nat index) with
  | None => ret next
  | Some item =>
      modify (set_currentIndex index) ;;
      if cached then proceed item r next
      else ret (Suspended (proceed item r next))
  end.

(** [onEnded()] as it runs inside its caller: what it does at once, and
    the call it leaves behind. *)
Definition onEnded_started (cached : bool) (r : Replies) : Act Task :=
  modify (set_isPlaying false) ;;
  len <- gets getTrackCount ;;
  loop <- gets loopOn ;;
  if len =? 1 then
    if loop then
      modify (upd_timing (set_currentTick 0)) ;;
      call_seek 0 ;;
      ret playTrack_task
    else ret (stopTrack_task r)
  else
    nextIdx <- gets getNextIndexForPlayer ;;
    match nextIdx with
    | Some n => loadTrack_started n cached r playTrack_task
    | None => ret (stopTrack_task r)
    end.

(** [checkForTrackEnd(context)] as it runs inside its caller *)
Definition checkForTrackEnd_started (cached : bool) (r : Replies) : Act Task :=
  try_catch
    (p <- gets isPlaying ;;
     s <- the_synth ;;
     if negb p || negb s then ret Finished else
     cur <- the_timing currentTick ;;
     total <- the_timing totalTicks ;;
     let reachedEnd := (0 <? total) && (total - 1 <=? cur) in
     let synthStopped := negb (synthPlaying r) in
     if reachedEnd || synthStopped then onEnded_started cached r else ret Finished)
    (ret Finished).

(** One frame of [uiLoop()] that is due.  [updateTimeline()] is called
    and not awaited: it is suspended where it awaits the tick.
    [checkForTrackEnd] then runs on the state as it is, and what
    [onEnded] calls is suspended too; the next frame is requested; and
    only then, the frame having returned, do the two go on, resumed in
    the order of [turns] ([true]: the call left by [onEnded]; [false]:
    the timeline update), which depends on when the synthesizer
    answers. *)
Definition uiLoop (r : Replies) (cached : bool) (turns : list bool) : Act unit :=
  p <- gets isPlaying ;;
  if negb p then ret tt else
  timeline <- try_catch (updateTimeline_started r Finished) (ret Finished) ;;
  ended <- checkForTrackEnd_started cached r ;;
  emit RequestAnimationFrame ;;
  modify (set_rafId true) ;;
  interleave turns ended timeline.

(** The heartbeat callback registered by [ensurePlayer] *)
Definition heartbeat (r : Replies) : Act unit := checkForTrackEnd r.

(* ===================================================================== *)
(** ** Sequences of operations *)
(* ===================================================================== *)

Inductive Op : Type :=
| OpLoad (index : Z) (r : Replies)
| OpPlay
| OpPause (r : Replies)
| OpStop (r : Replies)
| OpToggle (r : Replies)
| OpSeek (value : Q) (r : Replies)
| OpRewind (r : Replies)
| OpNext (r : Replies)
| OpPrev (r : Replies)
| OpFrame (r : Replies) (cached : bool) (turns : list bool)
| OpHeartbeat (r : Replies)
| OpTimer.

Definition perform (op : Op) : Act unit :=
  match op with
  | OpLoad i r => loadTrack i r
  | OpPlay => playTrack
  | OpPause r => pauseTrack r
  | OpStop r => stopTrack r
  | OpToggle r => togglePlayPause r
  | OpSeek v r => seekInput v r
  | OpRewind r => rewindToBeginning r
  | OpNext r => nextTrack r
  | OpPrev r => prevTrack r
  | OpFrame r cached turns => uiLoop r cached turns
  | OpHeartbeat r => heartbeat r
  | OpTimer => timerFires
  end.

(** Each operation is a task of its own: what one throws ends that task
    only. *)
Fixpoint run (ops : list Op) : Act unit :=
  match ops with
  | [] => ret tt
  | op :: rest => detached (perform op) ;; run rest
  end.

(** The page as it is once the adapter has been created and initialised,
    with the given playlist. *)
Definition initial_world (items : list PlaylistItem) : World :=
  mkWorld TimingState_new (mkPlayer true true true false 0 None)
          items (-1) false true false false false false None.

(** A well-formed header of a format-0 file with resolution 96. *)
Definition sample_smf : list byte :=
  [x4d; x54; x68; x64; x00; x00; x00; x06; x00; x00; x00; x01; x00; x60].

Definition quiet : Replies :=
  mkReplies None None None true (Normal 100) (Normal 500000) true.

Definition sample_item : PlaylistItem := mkItem "demo.MID" sample_smf.

(** The replies of a synthesizer that reports the position [t]. *)
Definition at_tick (t : Z) : Replies :=
  mkReplies (Some t) None None true (Normal 100) (Normal 500000) true.

(** A single track of 100 ticks playing, the playhead last seen at 99. *)
Definition near_end : World :=
  mkWorld (mkTiming 99 100 500000 96 (sec_per_tick 500000 96))
          (mkPlayer true true true true 0 (Some sample_smf))
          [sample_item] 0 true true false false true false None.

(** A playlist of [n] copies of the sample, entry [i] playing at its last
    tick, with the given Loop and Autoplay settings. *)
Definition playing_last_tick (n : nat) (i : Z) (loop auto : bool) : World :=
  mkWorld (mkTiming 99 100 500000 96 (sec_per_tick 500000 96))
          (mkPlayer true true true true 0 (Some sample_smf))
          (repeat sample_item n) i true auto loop false true false None.

(* ===================================================================== *)
(** ** Notions used to state the properties *)
(* ===================================================================== *)

(** A number that is a non-negative integer. *)
Definition is_nonneg_integer (n : number) : Prop :=
  exists z : Z, 0 <= z /\ n = num z.

(** The tick [seek] forwards, by the kind of number the argument converts
    to: the floor clamped at 0 for a finite one, 0 for [NaN] and
    [-Infinity], and [+Infinity] for [+Infinity]. *)
Definition forwarded_tick (n : number) : number :=
  match n with
  | Fin q => num (Z.max 0 (Qfloor q))
  | PosInf => PosInf
  | NaN | NegInf => num 0
  end.

(** What a getter of the adapter returns, given its fixed default. *)
Definition getter_value (ready : bool) (reply : completion Z) (default : Z) : Z :=
  match ready, reply with
  | true, Normal v => v
  | _, _ => default
  end.

(** The outcome of a successful earlier query, kept for later: what a
    last-known-good fallback would return for the replies seen so far. *)
Fixpoint last_known_good (replies : list (completion Z)) (default : Z) : Z :=
  match replies with
  | [] => default
  | Normal v :: rest => last_known_good rest v
  | Thrown :: rest => last_known_good rest default
  end.

(** Successive calls of [getTotalTicks], one per reply; the values returned. *)
Fixpoint poll_total (replies : list (completion Z)) (w : World) : list (completion Z) :=
  match replies with
  | [] => []
  | reply :: rest =>
      let o := getTotalTicks reply w in
      result o :: poll_total rest (world o)
  end.

(** The header of a track, read as the specification describes it: the
    four-byte magic value, and the unsigned big-endian 16-bit field at
    byte offset 12. *)
Definition magic_matches (buf : list byte) : bool :=
  match buf with
  | a :: b :: c :: d :: _ =>
      Byte.eqb a x4d && Byte.eqb b x54 && Byte.eqb c x68 && Byte.eqb d x64
  | _ => false
  end.

Definition u16_at (buf : list byte) (off : nat) : option Z :=
  match byte_at buf off, byte_at buf (off + 1) with
  | Some hi, Some lo => Some (256 * hi + lo)
  | _, _ => None
  end.

Inductive HeaderVerdict : Type :=
| UseResolution (v : Z)   (* a valid resolution *)
| UseDefault              (* a resolution that is not > 0 *)
| KeepCurrent.            (* no usable field: magic mismatch, bit 15 set, too short *)

Definition header_verdict (buf : list byte) : HeaderVerdict :=
  if magic_matches buf then
    match u16_at buf 12 with
    | Some u =>
        if Z.testbit u 15 then KeepCurrent
        else if 0 <? u then UseResolution u
        else UseDefault
    | None => KeepCurrent
    end
  else KeepCurrent.

Definition apply_verdict (v : HeaderVerdict) (w : World) : World :=
  match v with
  | UseResolution p => upd_timing (fun s => setSecPerTick (set_ppq p s)) w
  | UseDefault => upd_timing (fun s => setSecPerTick (set_ppq DEFAULT_PPQ s)) w
  | KeepCurrent => w
  end.

(** In a trace, every [later] event has an [earlier] event before it. *)
Definition precedes (earlier later : Event) (trace : list Event) : Prop :=
  forall pre post, trace = pre ++ later :: post -> In earlier pre.

(** An event that is a query to the synthesizer. *)
Definition is_query (e : Event) : Prop := exists q, e = Ask q.

(** The navigation policy in the words of the specification: what is to
    happen at the end of a track, given the length of the playlist, the
    current index and the two flags. *)
Inductive EndAction : Type :=
| RestartSame          (* seek to 0 and play again, no load *)
| AdvanceTo (n : Z)    (* load entry n and play it *)
| StopPlayback.

Definition navigation_policy (len current : Z) (loop auto : bool) : EndAction :=
  if len =? 1 then
    if loop then RestartSame else StopPlayback
  else if loop then AdvanceTo ((current + 1) mod len)
  else if auto then
    if current =? len - 1 then StopPlayback else AdvanceTo (current + 1)
  else StopPlayback.

(** What can be observed when an action has been carried out, from the
    world [w] before to the outcome [o].  A stop is seen at the adapter
    and in the audio graph: the adapter is told to pause and stops the
    player of the synthesizer first of all, it is left not playing with
    the output node and the heartbeat node disconnected and the context
    told to suspend, and no frame and no timer is left. *)
Definition carried_out (a : EndAction) (w : World) (o : Outcome unit) : Prop :=
  match a with
  | RestartSame =>
      currentIndex (world o) = currentIndex w
      /\ isPlaying (world o) = true
      /\ currentTick (timing (world o)) = 0
      /\ In CallPlay (events o)
      /\ precedes (CallSeek (VNum (num 0))) CallPlay (events o)
      /\ (forall bytes, ~ In (CallLoadMIDI bytes) (events o))
      /\ (forall bytes, ~ In (AddSMFDataToPlayer bytes) (events o))
  | AdvanceTo n =>
      currentIndex (world o) = n
      /\ isPlaying (world o) = true
      /\ In CallPlay (events o)
      /\ exists item,
           nth_error (playlist w) (Z.to_nat n) = Some item
           /\ precedes (CallLoadMIDI (item_bytes item)) CallPlay (events o)
  | StopPlayback =>
      currentIndex (world o) = currentIndex w
      /\ isPlaying (world o) = false
      /\ currentTick (timing (world o)) = 0
      /\ (exists rest, events o = CallPause :: StopPlayer :: rest)
      /\ playing (player (world o)) = false
      /\ nodeConnected (player (world o)) = false
      /\ tickConnected (player (world o)) = false
      /\ In CtxSuspendAfterDrain (events o)
      /\ rafId (world o) = false
      /\ pauseLowPowerTimer (world o) = false
      /\ ~ In CallPlay (events o)
      /\ ~ In PlayPlayer (events o)
      /\ (forall bytes, ~ In (CallLoadMIDI bytes) (events o))
  end.

(** End of track as [checkForTrackEnd] declares it. *)
Definition end_declared (r : Replies) (w : World) : bool :=
  ((0 <? totalTicks (timing w)) && (totalTicks (timing w) - 1 <=? currentTick (timing w)))
  || negb (synthPlaying r).

(* ===================================================================== *)
(** ** The heartbeat worklet *)
(* ===================================================================== *)

(** [a >= b] on numbers *)
Definition num_ge (a b : number) : bool :=
  match a, b with
  | NaN, _ | _, NaN => false
  | PosInf, _ | _, NegInf => true
  | _, PosInf | NegInf, _ => false
  | Fin x, Fin y => Qle_bool y x
  end.

(** [class HeartbeatWorklet extends AudioWorkletProcessor]: the fields its
    constructor sets.  The sample counter is a multiple of the quantum,
    an integer. *)
Record HeartbeatWorklet : Type := mkWorklet {
  fireEveryNSamples : number;
  samplesSinceLastPost : Z;
  samplesPerQuantum : Z
}.

(** [constructor(options)], given what [opts.fireEveryNSamples] reads as
    (a value that [Number] turns into [NaN] when the options lack it) *)
Definition HeartbeatWorklet_new (fireEvery : jsval) : HeartbeatWorklet :=
  mkWorklet (Math_max (num 128) (or_else (Number fireEvery) (num 1024))) 0 128.

(** [process()]: the messages posted on the port, the value returned, and
    the processor afterwards *)
Definition process (k : HeartbeatWorklet) : list Z * bool * HeartbeatWorklet :=
  let s := samplesSinceLastPost k + samplesPerQuantum k in
  if num_ge (num s) (fireEveryNSamples k)
  then ([0], true, mkWorklet (fireEveryNSamples k) 0 (samplesPerQuantum k))
  else ([], true, mkWorklet (fireEveryNSamples k) s (samplesPerQuantum k)).

(** The audio thread calls [process] once per render quantum for as long
    as it returns [true]: the messages of [n] quanta in a row. *)
Fixpoint render (n : nat) (k : HeartbeatWorklet) : list Z * HeartbeatWorklet :=
  match n with
  | O => ([], k)
  | S m =>
      match process k with
      | (msgs, true, k') => let (more, k'') := render m k' in (msgs ++ more, k'')
      | (msgs, false, k') => (msgs, k')
      end
  end.

(** [const AUDIO_BUFFER_SIZE = 2048], which [_init] passes to the worklet
    as [fireEveryNSamples] *)
Definition AUDIO_BUFFER_SIZE : Z := 2048.

(* ===================================================================== *)
(** ** Build configuration: the latest FluidSynth *)
(* ===================================================================== *)

(** [c.toLowerCase()] on the letters A to Z.  No other character of a
    name becomes, in lower case, one of the letters looked for below, and
    none is taken for one of them by a pattern that ignores case. *)
Definition lower (c : ascii) : ascii :=
  let n := nat_of_ascii c in
  if ((65 <=? n) && (n <=? 90))%nat then ascii_of_nat (n + 32) else c.

Fixpoint toLowerCase (s : string) : string :=
  match s with
  | EmptyString => EmptyString
  | String c r => String (lower c) (toLowerCase r)
  end.


Definition is_digit (c : ascii) : bool :=
  let n := nat_of_ascii c in ((48 <=? n) && (n <=? 57))%nat.

(** The longest run of decimal digits at the head of a string, and what
    follows it. *)
Fixpoint digits_of (s : string) : string * string :=
  match s with
  | String c r =>
      if is_digit c
      then let (d, rest) := digits_of r in (String c d, rest)
      else (EmptyString, s)
  | EmptyString => (EmptyString, EmptyString)
  end.

(** What is left of [s] after the literal [p] at its head. *)
Fixpoint strip_prefix (p s : string) : option string :=
  match p, s with
  | EmptyString, _ => Some s
  | String a p', String b s' => if Ascii.eqb a b then strip_prefix p' s' else None
  | String _ _, EmptyString => None
  end.

(** [f.match(FLUIDSYNTH_PATTERN)] with
    [FLUIDSYNTH_PATTERN = /^libfluidsynth-(\d+\.\d+\.\d+)-with-libsndfile\.js$/]:
    the text of group 1 when the whole name matches.  Each [\d+] is
    followed by a character that is not a digit, so it can only take the
    whole run of digits. *)
Definition FLUIDSYNTH_PATTERN (f : string) : option string :=
  match strip_prefix "libfluidsynth-" f with
  | None => None
  | Some r1 =>
      let (a, r2) := digits_of r1 in
      match a, strip_prefix "." r2 with
      | String _ _, Some r3 =>
          let (b, r4) := digits_of r3 in
          match b, strip_prefix "." r4 with
          | String _ _, Some r5 =>
              let (c, r6) := digits_of r5 in
              match c with
              | String _ _ =>
                  if String.eqb r6 "-with-libsndfile.js"
                  then Some (a ++ "." ++ b ++ "." ++ c)%string
                  else None
              | EmptyString => None
              end
          | _, _ => None
          end
      | _, _ => None
      end
  end.

(** [s.split(sep)] for a separator of one character *)
Fixpoint str_split (sep : ascii) (s : string) : list string :=
  match s with
  | EmptyString => [EmptyString]
  | String c r =>
      if Ascii.eqb c sep then EmptyString :: str_split sep r
      else match str_split sep r with
           | piece :: pieces => String c piece :: pieces
           | [] => [String c EmptyString]
           end
  end.

(** [Number(s)] for a run of decimal digits: its decimal value (exact for
    runs of up to 15 digits, the only ones considered). *)
Definition digit_value (c : ascii) : Z := Z.of_nat (nat_of_ascii c) - 48.

Fixpoint Number_of_digits_from (acc : Z) (s : string) : Z :=
  match s with
  | EmptyString => acc
  | String c r => Number_of_digits_from (10 * acc + digit_value c) r
  end.

Definition Number_of_digits (s : string) : Z := Number_of_digits_from 0 s.

(** [{ file: f, version: match[1] }] *)
Record VersionedFile : Type := mkVersioned {
  file : string;
  version : string
}.

(** [const [maj, min, patch] = v.version.split('.').map(Number)] *)
Definition version_numbers (v : VersionedFile) : Z * Z * Z :=
  let parts := map Number_of_digits (str_split "." (version v)) in
  (nth 0 parts 0, nth 1 parts 0, nth 2 parts 0).

(** The comparator handed to [sort]:
    [bMaj - aMaj || bMin - aMin || bPatch - aPatch] *)
Definition compare_versions (a b : VersionedFile) : Z :=
  let '(aMaj, aMin, aPatch) := version_numbers a in
  let '(bMaj, bMin, bPatch) := version_numbers b in
  if negb (bMaj - aMaj =? 0) then bMaj - aMaj
  else if negb (bMin - aMin =? 0) then bMin - aMin
  else bPatch - aPatch.

(** [array.sort(cmp)]: a stable sort; [x] goes before [y] when
    [cmp(x, y) < 0], and keeps its place among the elements it compares
    equal to. *)
Fixpoint insert_sorted {A} (cmp : A -> A -> Z) (x : A) (l : list A) : list A :=
  match l with
  | [] => [x]
  | y :: rest => if cmp x y <=? 0 then x :: l else y :: insert_sorted cmp x rest
  end.

Fixpoint array_sort {A} (cmp : A -> A -> Z) (l : list A) : list A :=
  match l with
  | [] => []
  | x :: rest => insert_sorted cmp x (array_sort cmp rest)
  end.

(** What [findLatestFluidSynth] returns: [null] when the directory does
    not exist, [undefined] when no name in it matches, or the entry
    found. *)
Inductive Latest : Type :=
| latest_null
| latest_undefined
| latest_is (v : VersionedFile).

(** [array.filter(Boolean)] on an array of objects and [null]s *)
Fixpoint filter_Boolean {A} (l : list (option A)) : list A :=
  match l with
  | [] => []
  | Some a :: rest => a :: filter_Boolean rest
  | None :: rest => filter_Boolean rest
  end.

(** [function findLatestFluidSynth(dir)]; [listing] is [None] when
    [fs.existsSync(dir)] is false, and otherwise what
    [fs.readdirSync(dir)] returns. *)
Definition findLatestFluidSynth (listing : option (list string)) : Latest :=
  match listing with
  | None => latest_null
  | Some files =>
      let versions :=
        array_sort compare_versions
          (filter_Boolean
             (map (fun f => match FLUIDSYNTH_PATTERN f with
                            | Some group1 => Some (mkVersioned f group1)
                            | None => None
                            end) files)) in
      match versions with
      | first :: _ => latest_is first
      | [] => latest_undefined
      end
  end.

(** The order of versions: by major, then minor, then patch number. *)
Definition version_le (a b : Z * Z * Z) : Prop :=
  let '(a1, a2, a3) := a in
  let '(b1, b2, b3) := b in
  a1 < b1 \/ (a1 = b1 /\ (a2 < b2 \/ (a2 = b2 /\ a3 <= b3))).

(** Every number of the version that a name carries is written with at
    most 15 digits. *)
Definition short_version (f : string) : Prop :=
  forall v, FLUIDSYNTH_PATTERN f = Some v ->
  Forall (fun digits => (String.length digits <= 15)%nat) (str_split "." v).

(** Whether [s] ends with [suffix]. *)
Fixpoint ends_with (suffix s : string) : bool :=
  String.eqb suffix s
  || match s with
     | String _ r => ends_with suffix r
     | EmptyString => false
     end.

(** [EXTERNAL_FILES_PATTERN.test(f)] with
    [EXTERNAL_FILES_PATTERN = /\.(js|wasm|data)$/i] *)
Definition EXTERNAL_FILES_PATTERN (f : string) : bool :=
  let l := toLowerCase f in
  ends_with ".js" l || ends_with ".wasm" l || ends_with ".data" l.

(** The path written to fluidsynth-version.js by [generateConfig] *)
Definition fluidsynthPath (isDev : bool) (latest : VersionedFile) : string :=
  if isDev
  then ("./node_modules/js-synthesizer/externals/" ++ file latest)%string
  else "./externals/libfluidsynth-with-libsndfile.js"%string.

(** A directory of regular files: the names in it, each with the bytes of
    the file. *)
Definition Dir : Type := list (string * list byte).

(** [fs.readdirSync(dir)] *)
Definition readdirSync (d : Dir) : list string := map fst d.

Fixpoint readFile (name : string) (d : Dir) : option (list byte) :=
  match d with
  | [] => None
  | (n, content) :: rest => if String.eqb n name then Some content else readFile name rest
  end.

Definition writeFile (name : string) (content : list byte) (d : Dir) : Dir :=
  (name, content) :: filter (fun entry => negb (String.eqb (fst entry) name)) d.

(** [fs.copyFileSync(join(src, f), join(dest, g))]: it throws ([None])
    when the source does not exist. *)
Definition copyFileSync (src : Dir) (f : string) (dest : Dir) (g : string) : option Dir :=
  match readFile f src with
  | Some content => Some (writeFile g content dest)
  | None => None
  end.

(** The part of [closeBundle] of [copyBuildAssets] that copies the
    FluidSynth externals: [externals] is the source directory ([None]
    when it does not exist), [dist] what dist/externals holds before. *)
Definition copyExternals (externals : option Dir) (dist : Dir) : option Dir :=
  match externals with
  | None => Some dist
  | Some dir =>
      let files := filter EXTERNAL_FILES_PATTERN (readdirSync dir) in
      let copied :=
        fold_left (fun acc f => match acc with
                                | Some d => copyFileSync dir f d f
                                | None => None
                                end) files (Some dist) in
      match copied with
      | None => None
      | Some d =>
          match findLatestFluidSynth (Some (readdirSync dir)) with
          | latest_is latest =>
              copyFileSync d (file latest) d "libfluidsynth-with-libsndfile.js"
          | _ => Some d
          end
      end
  end.

(* ===================================================================== *)
(** ** The playlist: adding and removing entries *)
(* ===================================================================== *)

Definition SUPPORTED_MIDI_EXTENSIONS : list string :=
  ["mid"; "midi"; "mld"; "mml"; "mmi"; "ms2mml"; "mms"]%string.

(** [(name.split('.').pop() || '').toLowerCase()] *)
Definition extension_of (name : string) : string :=
  toLowerCase (last (str_split "." name) EmptyString).

(** A string that has no dot in it. *)
Fixpoint dotless (s : string) : bool :=
  match s with
  | EmptyString => true
  | String c r => negb (Ascii.eqb c ".") && dotless r
  end.

(** [SUPPORTED_MIDI_EXTENSIONS.includes(ext)] *)
Definition supported (ext : string) : bool :=
  existsb (String.eqb ext) SUPPORTED_MIDI_EXTENSIONS.

Definition set_playlist (items : list PlaylistItem) (w : World) : World :=
  mkWorld (timing w) (player w) items (currentIndex w) (isPlaying w)
          (autoplay w) (loopOn w) (suppressFirstSynthRead w) (rafId w)
          (pauseLowPowerTimer w) (pendingTimeout w).

Definition set_autoplay (b : bool) (w : World) : World :=
  mkWorld (timing w) (player w) (playlist w) (currentIndex w) (isPlaying w)
          b (loopOn w) (suppressFirstSynthRead w) (rafId w)
          (pauseLowPowerTimer w) (pendingTimeout w).

Definition set_loopOn (b : bool) (w : World) : World :=
  mkWorld (timing w) (player w) (playlist w) (currentIndex w) (isPlaying w)
          (autoplay w) b (suppressFirstSynthRead w) (rafId w)
          (pauseLowPowerTimer w) (pendingTimeout w).

(** [function addToPlaylist(files)]; a file is given with its name and its
    bytes.  The list element made for each entry goes to the same place in
    the page as the entry in the playlist. *)
Fixpoint addToPlaylist (files : list PlaylistItem) : Act unit :=
  match files with
  | [] => ret tt
  | f :: rest =>
      (if supported (extension_of (item_name f))
       then modify (fun w => set_playlist (playlist w ++ [f]) w)
       else ret tt) ;;
      addToPlaylist rest
  end.

(** [array.splice(start, 1)]: a negative [start] counts from the end, and
    nothing is removed at or past the end. *)
Fixpoint remove_at {A} (n : nat) (l : list A) : list A :=
  match n, l with
  | _, [] => []
  | O, _ :: rest => rest
  | S m, x :: rest => x :: remove_at m rest
  end.

Definition splice_one {A} (start : Z) (l : list A) : list A :=
  let len := Z.of_nat (List.length l) in
  let from := if start <? 0 then Z.max (len + start) 0 else Z.min start len in
  remove_at (Z.to_nat from) l.

(** The 'click' handler of the remove button of an entry, which
    [createPlaylistItem] installs; [indexInList] is what [indexOf] gives
    for the list element of the entry.  [stopTrack()] is started and not
    awaited: it is suspended at its first [await], so what it does comes
    after the rest of the handler. *)
Definition removeClicked (indexInList : Z) (r : Replies) : Act unit :=
  cur <- gets currentIndex ;;
  (if indexInList =? cur then modify (set_currentIndex (-1))
   else if indexInList <? cur then modify (set_currentIndex (cur - 1))
   else ret tt) ;;
  modify (fun w => set_playlist (splice_one indexInList (playlist w)) w) ;;
  when (indexInList =? cur) (detached (stopTrack r)).

(** The 'click' handler of the play button of an entry, and the
    'dblclick' handler of the entry *)
Definition playClicked (indexInList : Z) (r : Replies) : Act unit :=
  try_ (loadTrack indexInList r ;; detached playTrack).

(** The 'keydown' handler of the document *)
Definition keydown (code key : string) (r : Replies) : Act unit :=
  if String.eqb code "Space" then detached (togglePlayPause r)
  else if String.eqb key "s" || String.eqb key "S" then detached (stopTrack r)
  else if String.eqb code "ArrowRight" then detached (nextTrack r)
  else if String.eqb code "ArrowLeft" then detached (prevTrack r)
  else if String.eqb code "ArrowDown" then detached (rewindToBeginning r)
  else ret tt.


(* ===================================================================== *)
(** ** The adapter: soundfonts *)
(* ===================================================================== *)

(** [loadSF2] and the functions under it read and write the soundfont
    fields of the adapter and talk to the two synthesizers, the main one
    and the one kept for the MIDI test; they are given here with a state
    and a trace of their own. *)
Module Soundfont.

Inductive Target : Type := main | test.

Inductive Method : Type := loadSFont | unloadSFont.

(** What is passed in a call. *)
Inductive Arg : Type :=
| id_arg (id : Z)
| text_arg (s : string)
| bytes_arg (data : list byte).

Inductive Call : Type :=
| call (on : Target) (m : Method) (args : list Arg)
| waitForReady              (* JSSynth.waitForReady() *)
| newTestSynth.             (* new Synthesizer(), init, setGain, createAudioNode, connect *)

(** The fields: [_synth] (whether there is one), [_sfontId] ([None] for
    [null]), [_sfontBytes], [_testSynth] (whether there is one). *)
Record Fonts : Type := mkFonts {
  hasSynth : bool;
  sfontId : option Z;
  sfontBytes : option (list byte);
  hasTestSynth : bool
}.

(** What the synthesizers answer to the three [loadSFont] calls that can
    be made: on the main synthesizer (the id of the font), on the test
    synthesizer when it is created, and on the test synthesizer at the end
    of [_loadSF2IntoBothSynths]. *)
Record Answers : Type := mkAnswers {
  mainLoad : completion Z;
  testFirstLoad : completion unit;
  testLoad : completion unit
}.

Record Run (A : Type) : Type := mkRun {
  outcome : completion A;
  fonts : Fonts;
  calls : list Call
}.
Arguments mkRun {A}.
Arguments outcome {A}.
Arguments fonts {A}.
Arguments calls {A}.

Definition Proc (A : Type) : Type := Fonts -> Run A.

Definition pure {A} (a : A) : Proc A := fun s => mkRun (Normal a) s [].

Definition fail {A} : Proc A := fun s => mkRun Thrown s [].

Definition andThen {A B} (m : Proc A) (k : A -> Proc B) : Proc B := fun s =>
  match m s with
  | mkRun (Normal a) s1 c1 =>
      match k a s1 with
      | mkRun r s2 c2 => mkRun r s2 (c1 ++ c2)
      end
  | mkRun Thrown s1 c1 => mkRun Thrown s1 c1
  end.

Definition read {A} (f : Fonts -> A) : Proc A := fun s => mkRun (Normal (f s)) s [].

Definition write (f : Fonts -> Fonts) : Proc unit := fun s => mkRun (Normal tt) (f s) [].

Definition send (c : Call) : Proc unit := fun s => mkRun (Normal tt) s [c].

Definition reply {A} (c : completion A) : Proc A :=
  match c with
  | Normal a => pure a
  | Thrown => fail
  end.

Definition set_hasSynth (b : bool) (s : Fonts) : Fonts :=
  mkFonts b (sfontId s) (sfontBytes s) (hasTestSynth s).

Definition set_sfontId (i : option Z) (s : Fonts) : Fonts :=
  mkFonts (hasSynth s) i (sfontBytes s) (hasTestSynth s).

Definition set_sfontBytes (b : option (list byte)) (s : Fonts) : Fonts :=
  mkFonts (hasSynth s) (sfontId s) b (hasTestSynth s).

Definition set_hasTestSynth (b : bool) (s : Fonts) : Fonts :=
  mkFonts (hasSynth s) (sfontId s) (sfontBytes s) b.

(** [_waitForReady()]: returns once [_init] has made the synthesizer. *)
Definition _waitForReady : Proc unit := write (set_hasSynth true).

(** [_safeSynthCall(method, synth = 'main', ...args)], given the method
    ([None] when the expression [this._synth?.m] yields [undefined]) and
    the arguments written after it in the call: the first of them, when
    there is one, is taken for [synth], and the others are [args].  What
    the method returns or throws is not used by the callers here. *)
Definition _safeSynthCall (method : option Method) (actuals : list Arg) : Proc unit :=
  let synth := match actuals with
               | [] => text_arg "main"
               | first :: _ => first
               end in
  let args := tl actuals in
  let on := match synth with
            | text_arg s => if String.eqb s "test" then test else main
            | _ => main
            end in
  andThen (read (fun s => match on with
                          | main => hasSynth s
                          | test => hasTestSynth s
                          end))
          (fun there =>
           match there, method with
           | true, Some m => send (call on m args)
           | _, _ => pure tt
           end).

(** [this._synth?.m] and [this._testSynth?.m] *)
Definition method_of (on : Target) (m : Method) : Proc (option Method) :=
  andThen (read (fun s => match on with
                          | main => hasSynth s
                          | test => hasTestSynth s
                          end))
          (fun there => pure (if there then Some m else None)).

(** [_ensureTestSynth()] *)
Definition _ensureTestSynth (a : Answers) : Proc unit :=
  andThen (read hasTestSynth) (fun there =>
  if there then pure tt else
  andThen (read sfontBytes) (fun cached =>
  match cached with
  | None => fail                               (* 'Load an SF2 first' *)
  | Some data =>
      andThen (send waitForReady) (fun _ =>
      andThen (write (set_hasTestSynth true)) (fun _ =>
      andThen (send newTestSynth) (fun _ =>
      andThen (send (call test loadSFont [bytes_arg data])) (fun _ =>
      reply (testFirstLoad a)))))
  end)).

(** [_loadSF2IntoBothSynths(sf2FileData, unloadPrevious = false)] *)
Definition _loadSF2IntoBothSynths (sf2FileData : list byte) (unloadPrevious : bool)
    (a : Answers) : Proc unit :=
  andThen (read sfontId) (fun old =>
  andThen (match unloadPrevious, old with
           | true, Some id =>
               andThen (method_of main unloadSFont) (fun m =>
               _safeSynthCall m [id_arg id])
           | _, _ => pure tt
           end) (fun _ =>
  andThen (send (call main loadSFont [bytes_arg sf2FileData])) (fun _ =>
  andThen (reply (mainLoad a)) (fun id =>
  andThen (write (set_sfontId (Some id))) (fun _ =>
  andThen (_ensureTestSynth a) (fun _ =>
  andThen (read sfontId) (fun current =>
  andThen (match unloadPrevious, current with
           | true, Some id =>
               andThen (method_of test unloadSFont) (fun m =>
               _safeSynthCall m [text_arg "test"; id_arg id])
           | _, _ => pure tt
           end) (fun _ =>
  andThen (send (call test loadSFont [bytes_arg sf2FileData])) (fun _ =>
  reply (testLoad a)))))))))).

(** [loadSF2(sf2FileData, unloadPrevious = false)]; what is caught is
    thrown again. *)
Definition loadSF2 (sf2FileData : list byte) (unloadPrevious : bool) (a : Answers) :
    Proc unit :=
  andThen _waitForReady (fun _ =>
  andThen (write (set_sfontBytes (Some sf2FileData))) (fun _ =>
  _loadSF2IntoBothSynths sf2FileData unloadPrevious a)).

End Soundfont.

(* ===================================================================== *)
(** ** The app script: soundfont and test handlers *)
(* ===================================================================== *)

(** [player.loadSF2(data, unloadPrevious)] as the page sees it: it waits
    for the adapter to be initialised and completes as [Soundfont.loadSF2]
    does; of the state of the page it touches nothing else. *)
Definition player_loadSF2 (loaded : completion unit) : Act unit :=
  _waitForReady ;; answer loaded.

(** [async function applySelectedSf2()], given the name selected, the
    bytes fetched ([None] when the fetch fails or is not ok) and the way
    [loadSF2] completes *)
Definition applySelectedSf2 (name : string) (fetched : option (list byte))
    (loaded : completion unit) (r : Replies) : Act unit :=
  if String.eqb name "" then ret tt else
  try_catch
    (sf2FileData <- must fetched ;;
     wasPlaying <- gets isPlaying ;;
     resumeTick <- the_timing currentTick ;;
     when wasPlaying (pauseTrack r) ;;
     player_loadSF2 loaded ;;
     modify (upd_timing (set_currentTick resumeTick)) ;;
     when wasPlaying playTrack)
    (emit Alert).

(** The 'change' handler of the SF2 file input, from the point where the
    file has been read *)
Definition sf2Chosen (loaded : completion unit) : Act unit :=
  try_catch
    (player_loadSF2 loaded ;;
     p <- gets isPlaying ;;
     when (negb p) (safePlayerCall_setAudioState stopped_state))
    (emit Alert).

(** The 'click' handler of the MIDI test button, given the way
    [playTestChord] completes *)
Definition testChordClicked (chord : completion unit) (r : Replies) : Act unit :=
  try_
    (safePlayerCall_setAudioState wakeUp_state ;;
     wasPlaying <- gets isPlaying ;;
     when wasPlaying (pauseTrack r) ;;
     answer chord ;;
     when wasPlaying playTrack).

(** The 'click' handler of the audio test button; the oscillator it
    plays is not part of the state. *)
Definition testBeepClicked : Act unit :=
  try_ (safePlayerCall_setAudioState wakeUp_state).

(** The 'click' handler of the demo button, given the bytes fetched for
    demo.MID ([None] when the fetch fails or is not ok) *)
Definition demoClicked (fetched : option (list byte)) (r : Replies) : Act unit :=
  try_catch
    (blob <- must fetched ;;
     addToPlaylist [mkItem "demo.MID" blob] ;;
     len <- gets getTrackCount ;;
     let newIndex := len - 1 in
     loadTrack newIndex r ;;
     detached playTrack)
    (emit Alert).

(* ===================================================================== *)
(** ** The events of the page *)
(* ===================================================================== *)

(** What can happen to the page: the transport buttons, the slider, a
    frame, a heartbeat and the timer as in [perform]; a key; files chosen
    in the file input; the buttons of a playlist entry; the two
    checkboxes; a soundfont selected in the list or chosen as a file; the
    two test buttons and the demo button.  (The volume slider and the refresh button of the
    soundfont list touch nothing of the state kept here; what the script
    writes to the console, and what [debugTickState] reads for it, is
    not part of the trace.) *)
Inductive UiEvent : Type :=
| Transport (op : Op)
| KeyDown (code key : string) (r : Replies)
| FilesChosen (files : list PlaylistItem)
| EntryPlay (indexInList : Z) (r : Replies)
| EntryRemove (indexInList : Z) (r : Replies)
| AutoplayChanged (checked : bool)
| LoopChanged (checked : bool)
| Sf2Selected (name : string) (fetched : option (list byte))
              (loaded : completion unit) (r : Replies)
| Sf2Chosen (loaded : completion unit)
| TestChord (chord : completion unit) (r : Replies)
| TestBeep
| DemoClicked (fetched : option (list byte)) (r : Replies).

Definition handle (e : UiEvent) : Act unit :=
  match e with
  | Transport op => perform op
  | KeyDown code key r => keydown code key r
  | FilesChosen files =>
      when (negb (Nat.eqb (List.length files) 0)) (addToPlaylist files)
  | EntryPlay i r => playClicked i r
  | EntryRemove i r => removeClicked i r
  | AutoplayChanged checked => modify (set_autoplay checked)
  | LoopChanged checked => modify (set_loopOn checked)
  | Sf2Selected name fetched loaded r => applySelectedSf2 name fetched loaded r
  | Sf2Chosen loaded => sf2Chosen loaded
  | TestChord chord r => testChordClicked chord r
  | TestBeep => testBeepClicked
  | DemoClicked fetched r => demoClicked fetched r
  end.

(** Each event is handled in a task of its own. *)
Fixpoint handle_all (es : list UiEvent) : Act unit :=
  match es with
  | [] => ret tt
  | e :: rest => detached (handle e) ;; handle_all rest
  end.

(** The buttons of an entry can be clicked while its list element is in
    the list, where [indexOf] finds it: the events that can occur. *)
Definition occurs (e : UiEvent) : Prop :=
  match e with
  | EntryRemove i _ => 0 <= i
  | _ => True
  end.

(** The replies of a synthesizer that has stopped at the end of its
    track. *)
Definition quiet_end : Replies :=
  mkReplies None None None true (Normal 100) (Normal 500000) false.

(* ===================================================================== *)
(** ** Invariants of the page *)
(* ===================================================================== *)

(** [keeps I c]: when [I] holds of the state and of the trace so far, it
    holds again when [c] has run, of the state reached and of the trace
    extended by what [c] did, whether [c] returned or threw. *)
Definition keeps (I : World -> list Event -> Prop) {A} (c : Act A) : Prop :=
  forall w h, I w h -> I (world (c w)) (h ++ events (c w)).

(** A task whose pieces all keep the invariant. *)
Inductive task_keeps (I : World -> list Event -> Prop) : Task -> Prop :=
| keeps_Finished : task_keeps I Finished
| keeps_Suspended (resume : Act Task) :
    keeps I resume ->
    (forall w rest, result (resume w) = Normal rest -> task_keeps I rest) ->
    task_keeps I (Suspended resume).

(** A step that keeps the invariant and leaves a task that keeps it. *)
Definition yields (I : World -> list Event -> Prop) (c : Act Task) : Prop :=
  keeps I c /\ forall w rest, result (c w) = Normal rest -> task_keeps I rest.

(** Only an initialised adapter plays. *)
Definition ready_while_playing (w : World) : Prop :=
  isPlaying w = true -> synth (player w) = true.

(** The current index is -1 or a position of the playlist, and a track
    is selected while the transport is playing. *)
Definition index_valid (w : World) : Prop :=
  -1 <= currentIndex w < getTrackCount w
  /\ (isPlaying w = true -> 0 <= currentIndex w).

Definition page_sound (w : World) (h : list Event) : Prop :=
  index_valid w /\ ready_while_playing w.

(** Resolution and tempo are positive (so the seconds per tick are), and
    the length is not negative. *)
Definition timing_sound (s : TimingState) : Prop :=
  0 < ppq s /\ 0 < tempoUsPerQuarter s /\ 0 <= totalTicks s.

(** The seconds per tick are what tempo and resolution give. *)
Definition timing_consistent (s : TimingState) : Prop :=
  secPerTick s = sec_per_tick (tempoUsPerQuarter s) (ppq s).

Definition timed (C : Prop) (w : World) (h : list Event) : Prop :=
  timing_sound (timing w) /\ (C -> timing_consistent (timing w)).

(** A timer that is pending is the one [pauseLowPowerTimer] holds. *)
Definition timer_held (w : World) : Prop :=
  pendingTimeout w <> None -> pauseLowPowerTimer w = true.

Definition timer_sound (w : World) (h : list Event) : Prop := timer_held w.

(** The connections of the audio graph as the commands sent make them:
    connected or not for the output node and for the heartbeat node, and
    whether every command so far changed something. *)
Record Graph : Type := mkGraph {
  node_on : bool;
  tick_on : bool;
  no_repeat : bool
}.

Definition graph_step (g : Graph) (e : Event) : Graph :=
  match e with
  | NodeConnect => mkGraph true (tick_on g) (no_repeat g && negb (node_on g))
  | NodeDisconnect => mkGraph false (tick_on g) (no_repeat g && node_on g)
  | TickConnect => mkGraph (node_on g) true (no_repeat g && negb (tick_on g))
  | TickDisconnect => mkGraph (node_on g) false (no_repeat g && tick_on g)
  | _ => g
  end.

Definition graph_after (trace : list Event) (g : Graph) : Graph :=
  fold_left graph_step trace g.

(** The graph the adapter believes it has. *)
Definition graph_of (w : World) : Graph :=
  mkGraph (nodeConnected (player w)) (tickConnected (player w)) true.

(** The adapter is initialised, and its two flags are what the commands
    in the trace make of the graph it started with, none of them sent
    without need. *)
Definition graph_sound (g0 : Graph) (w : World) (h : list Event) : Prop :=
  synth (player w) = true /\ graph_after h g0 = graph_of w.

(* ===================================================================== *)
(** ** Runs on concrete inputs *)
(* ===================================================================== *)

Example format_examples :
  formatTimeStr (VNum (Fin (7325 # 2))) = "1:01:02"%string
  /\ formatTimeStr (VNum (num 360000)) = "100:00:00"%string
  /\ formatTimeStr (VNonNum (num 59)) = "00:00"%string
  /\ formatTimeStr (VNum PosInf) = "00:00"%string.
Proof. repeat split. Qed.

(** Beyond 2^53 seconds the hours are those of the rounded quotient, and
    [String] prints them with the digits that tell the double apart. *)
Example format_rounded_examples :
  formatTimeStr (VNum (num (2 ^ 80))) = "335812727670730300000:16:16"%string
  /\ formatTimeStr (VNum (num (2 ^ 90))) = "3.4387223313482785e+23:37:04"%string
  /\ formatTimeStr (VNum (num 288230376151717184)) = "80063993375477:59:44"%string.
Proof. repeat split; vm_compute; reflexivity. Qed.

(** The slider's quotient and product are rounded: at 290 and at 570 of
    1000 on 100 ticks the product falls just below 29 and 57. *)
Example slider_examples :
  slider_target 290 100 = num 28
  /\ floor_of_fraction 290 100 = 29
  /\ slider_target 570 100 = num 56
  /\ floor_of_fraction 570 100 = 57
  /\ slider_target 700 10 = num 7
  /\ slider_target 500 960 = num 480
  /\ slider_target 333 1000 = num 333.
Proof. repeat split; vm_compute; reflexivity. Qed.

Example seek_target_examples :
  seek_target (VNum (Fin (7 # 2))) = num 3
  /\ seek_target (VNum (Fin (-7 # 2))) = num 0
  /\ seek_target (VNum NaN) = num 0
  /\ seek_target (VNonNum NaN) = num 0
  /\ seek_target (VNonNum (num 12)) = num 12.
Proof. repeat split. Qed.

Example next_index_examples :
  getNextIndexForPlayer (playing_last_tick 5 4 true false) = Some 0
  /\ getNextIndexForPlayer (playing_last_tick 5 4 false true) = None
  /\ getNextIndexForPlayer (playing_last_tick 5 3 false true) = Some 4
  /\ getNextIndexForPlayer (playing_last_tick 1 0 true true) = None
  /\ getNextIndexForButton (playing_last_tick 5 4 false false) = 0
  /\ getPrevIndexForButton (playing_last_tick 5 0 false false) = 4.
Proof. repeat split. Qed.

(** Play pressed on a fresh page with one entry: load, then seek, play,
    and the audio state. *)
Example first_play_trace :
  events (togglePlayPause quiet (initial_world [sample_item]))
  = [CallPause; StopPlayer; CallLoadMIDI sample_smf;
     StopPlayer; ResetPlayer; AddSMFDataToPlayer sample_smf;
     Ask retrievePlayerTotalTicks; Ask retrievePlayerMIDITempo;
     CallSeek (VNum (num 0)); SeekPlayer (num 0); CallPlay; CtxResume; PlayPlayer;
     CallSetAudioState playing_state; CtxResume; RequestAnimationFrame;
     CallSetAudioState wakeUp_state; CtxResume]
  /\ timing (world (togglePlayPause quiet (initial_world [sample_item])))
     = mkTiming 0 100 500000 96 (sec_per_tick 500000 96).
Proof. split; vm_compute; reflexivity. Qed.

(** Then pause, and the timer running out. *)
Example pause_then_idle_trace :
  events (run [OpPause quiet; OpTimer]
            (world (togglePlayPause quiet (initial_world [sample_item]))))
  = [Ask retrievePlayerCurrentTick; CallPause; StopPlayer;
     CallSetAudioState paused_state; TickDisconnect; CancelAnimationFrame;
     SetTimeout 30000;
     CallSetAudioState lowPower_state; NodeDisconnect; CtxSuspendAfterDrain].
Proof. vm_compute. reflexivity. Qed.

(** Stop while playing: the recovery sequence on the cached bytes. *)
Example stop_trace :
  events (stopTrack quiet (world (togglePlayPause quiet (initial_world [sample_item]))))
  = [CallPause; StopPlayer;
     StopPlayer; ResetPlayer; AddSMFDataToPlayer sample_smf; SeekPlayer (num 0);
     CallSetAudioState stopped_state; TickDisconnect; NodeDisconnect;
     CtxSuspendAfterDrain; CancelAnimationFrame].
Proof. vm_compute. reflexivity. Qed.

(* ===================================================================== *)
(** ** Stepping through the monad *)
(* ===================================================================== *)

Section Steps.
Context {A B : Type}.
Variable k : A -> Act B.
Variable w : World.

Lemma bind_ret_l (a : A) : bind (ret a) k w = k a w.
Proof. unfold bind, ret. now destruct (k a w). Qed.

Lemma bind_gets (f : World -> A) : bind (gets f) k w = k (f w) w.
Proof. unfold bind, gets. now destruct (k (f w) w). Qed.
End Steps.

Lemma bind_modify {B} (f : World -> World) (k : unit -> Act B) (w : World) :
  bind (modify f) k w = k tt (f w).
Proof. unfold bind, modify. now destruct (k tt (f w)). Qed.

(** What is caught and logged leaves the state and the trace reached. *)
Lemma try_eq (c : Act unit) (w : World) :
  try_ c w = mkOutcome (Normal tt) (world (c w)) (events (c w)).
Proof. unfold try_. now destruct (c w). Qed.

(* ===================================================================== *)
(** ** Symbolic execution of the script *)
(* ===================================================================== *)

(** Unfold the monad, the record accessors, the adapter and the small
    helpers of the script, leaving arithmetic, header parsing and the
    transport functions as they stand. *)
Ltac exec :=
  cbv beta iota zeta delta
    [bind ret throw try_ try_catch gets modify emit when must answer detached
     result world events
     timing player playlist currentIndex isPlaying autoplay loopOn
     suppressFirstSynthRead rafId pauseLowPowerTimer pendingTimeout
     currentTick totalTicks tempoUsPerQuarter ppq secPerTick
     synth nodeConnected tickConnected playing currentTime lastSmfBytes
     tickReply totalReply tempoReply loadAccepted loadTotal loadTempo synthPlaying
     upd_timing upd_player set_currentIndex set_isPlaying
     set_suppressFirstSynthRead set_rafId set_pauseLowPowerTimer
     set_pendingTimeout set_currentTick set_ppq set_nodeConnected
     set_tickConnected set_playing set_currentTime set_lastSmfBytes initialised
     setSecPerTick reset updateFromSynth
     the_synth the_timing _waitForReady _safeSynthCall setMainNodeEnabled
     setHeartbeatEnabled setIdle setAudioState loadMIDI play pause seek
     synth_query call_seek safePlayerCall_setAudioState safeSynthCall_send
     safeSynthCall_value safeSynthCall safeClearTimeout
     applyTick
     pauseLowPowerCallback schedulePauseLowPower timerFires cancelPauseLowPower
     clearPauseLowPowerTimer startUiLoop stopUiLoop
     pauseTrack_begin
     heartbeat
     perform run apply_verdict
     negb andb orb].

(* ===================================================================== *)
(** ** Header parsing *)
(* ===================================================================== *)

Lemma byte_value_bounded (b : byte) : 0 <= Z.of_N (Byte.to_N b) < 256.
Proof. pose proof (Byte.to_N_bounded b). lia. Qed.

Lemma byte_value_inj (a b : byte) :
  Z.of_N (Byte.to_N a) = Z.of_N (Byte.to_N b) -> a = b.
Proof.
  intros H. apply N2Z.inj in H.
  pose proof (Byte.of_to_N a) as Ha. rewrite H, Byte.of_to_N in Ha.
  now injection Ha.
Qed.

Lemma byte_eqb_value (a b : byte) :
  Byte.eqb a b = (Z.of_N (Byte.to_N a) =? Z.of_N (Byte.to_N b)).
Proof.
  destruct (Z.eqb_spec (Z.of_N (Byte.to_N a)) (Z.of_N (Byte.to_N b))) as [E|E].
  - apply byte_value_inj in E. subst. apply Byte.byte_dec_lb. reflexivity.
  - destruct (Byte.eqb a b) eqn:Hab; [|reflexivity].
    apply Byte.byte_dec_bl in Hab. subst. congruence.
Qed.

Lemma magic_value (a b c d : Z) :
  0 <= a < 256 -> 0 <= b < 256 -> 0 <= c < 256 -> 0 <= d < 256 ->
  (Z.shiftl a 24 + Z.shiftl b 16 + Z.shiftl c 8 + d =? 0x4D546864)
  = ((a =? 0x4d) && (b =? 0x54) && (c =? 0x68) && (d =? 0x64))%bool.
Proof.
  intros Ha Hb Hc Hd.
  rewrite !Z.shiftl_mul_pow2 by lia.
  change (2 ^ 24) with 16777216. change (2 ^ 16) with 65536. change (2 ^ 8) with 256.
  destruct (Z.eqb_spec a 0x4d), (Z.eqb_spec b 0x54),
           (Z.eqb_spec c 0x68), (Z.eqb_spec d 0x64); simpl;
    try (apply Z.eqb_neq; lia).
  apply Z.eqb_eq. lia.
Qed.

Lemma land_bit15 (x : Z) : (Z.land x 0x8000 =? 0) = negb (Z.testbit x 15).
Proof.
  assert (H : Z.land x 0x8000 = if Z.testbit x 15 then 0x8000 else 0).
  { apply Z.bits_inj'. intros n Hn.
    rewrite Z.land_spec.
    change 0x8000 with (2 ^ 15). rewrite Z.pow2_bits_eqb by lia.
    destruct (Z.eqb_spec 15 n) as [<-|Hne].
    - destruct (Z.testbit x 15); reflexivity.
    - rewrite andb_false_r.
      destruct (Z.testbit x 15).
      + symmetry. now apply Z.pow2_bits_false.
      + symmetry. apply Z.bits_0. }
  rewrite H. now destruct (Z.testbit x 15).
Qed.

Lemma bit15_unsigned (u : Z) :
  0 <= u < 65536 -> Z.testbit u 15 = negb (u <? 32768).
Proof.
  intros Hu. rewrite Z.testbit_eqb by lia. change (2 ^ 15) with 32768.
  destruct (Z.ltb_spec u 32768); simpl.
  - rewrite Z.div_small by lia. reflexivity.
  - replace (u / 32768) with 1; [reflexivity|].
    apply (Z.div_unique u 32768 1 (u - 32768)); lia.
Qed.

Lemma bit15_signed (u : Z) :
  32768 <= u < 65536 -> Z.testbit (u - 65536) 15 = true.
Proof.
  intros Hu. rewrite Z.testbit_eqb by lia. change (2 ^ 15) with 32768.
  replace ((u - 65536) / 32768) with (-1); [reflexivity|].
  apply (Z.div_unique (u - 65536) 32768 (-1) (u - 32768)); lia.
Qed.

Lemma getUint32_head (a b c d : byte) (rest : list byte) :
  getUint32 (a :: b :: c :: d :: rest) 0
  = Some (Z.shiftl (Z.of_N (Byte.to_N a)) 24 + Z.shiftl (Z.of_N (Byte.to_N b)) 16
          + Z.shiftl (Z.of_N (Byte.to_N c)) 8 + Z.of_N (Byte.to_N d)).
Proof. reflexivity. Qed.

Lemma getInt16_unsigned (buf : list byte) (off : nat) :
  getInt16 buf off
  = option_map (fun u => if u <? 32768 then u else u - 65536) (u16_at buf off).
Proof.
  unfold getInt16, u16_at.
  destruct (byte_at buf off) as [hi|]; [|reflexivity].
  destruct (byte_at buf (off + 1)) as [lo|]; [|reflexivity].
  simpl option_map. rewrite Z.shiftl_mul_pow2 by lia. change (2 ^ 8) with 256.
  now rewrite (Z.mul_comm hi 256).
Qed.

Lemma u16_at_bounded (buf : list byte) (off : nat) (u : Z) :
  u16_at buf off = Some u -> 0 <= u < 65536.
Proof.
  unfold u16_at, byte_at.
  destruct (nth_error buf off) as [hi|]; [|discriminate].
  destruct (nth_error buf (off + 1)) as [lo|]; [|discriminate].
  unfold option_map. intros H.
  assert (E : 256 * Z.of_N (Byte.to_N hi) + Z.of_N (Byte.to_N lo) = u) by congruence.
  pose proof (byte_value_bounded hi). pose proof (byte_value_bounded lo). lia.
Qed.

Lemma magic_matches_value (a b c d : byte) (rest : list byte) :
  (Z.shiftl (Z.of_N (Byte.to_N a)) 24 + Z.shiftl (Z.of_N (Byte.to_N b)) 16
   + Z.shiftl (Z.of_N (Byte.to_N c)) 8 + Z.of_N (Byte.to_N d) =? 0x4D546864)
  = magic_matches (a :: b :: c :: d :: rest).
Proof.
  unfold magic_matches. rewrite !byte_eqb_value.
  now rewrite magic_value by apply byte_value_bounded.
Qed.

(** The parser never throws, and does to the resolution what the header
    calls for. *)
Lemma parsePpqFromSmfHeader_verdict (buf : list byte) (w : World) :
  parsePpqFromSmfHeader buf w
  = mkOutcome (Normal tt) (apply_verdict (header_verdict buf) w) [].
Proof.
  unfold parsePpqFromSmfHeader, header_verdict.
  destruct buf as [|a [|b [|c [|d rest]]]]; try reflexivity.
  rewrite getUint32_head. unfold try_, must. rewrite bind_ret_l.
  rewrite (magic_matches_value a b c d rest).
  destruct (magic_matches (a :: b :: c :: d :: rest)); [|reflexivity].
  rewrite getInt16_unsigned.
  destruct (u16_at (a :: b :: c :: d :: rest) 12) as [u|] eqn:Hu16; [|reflexivity].
  apply u16_at_bounded in Hu16.
  simpl option_map. cbv beta iota. rewrite bind_ret_l.
  rewrite land_bit15.
  destruct (Z.ltb_spec u 32768) as [Hlt|Hge].
  - rewrite (bit15_unsigned u Hu16).
    destruct (Z.ltb_spec u 32768); [|lia]. simpl negb. cbv iota.
    destruct (0 <? u); reflexivity.
  - rewrite bit15_signed by lia.
    rewrite (bit15_unsigned u Hu16).
    destruct (Z.ltb_spec u 32768); [lia|]. reflexivity.
Qed.

(* ===================================================================== *)
(** ** The tick that seek forwards *)
(* ===================================================================== *)

Lemma seek_target_forwarded (x : jsval) :
  seek_target x = forwarded_tick (Number x).
Proof.
  unfold seek_target. generalize (Number x). clear x.
  intros [q| | |]; try reflexivity.
  unfold or_else, truthy.
  destruct (Qeq_bool q 0) eqn:Hq; simpl.
  - apply Qeq_bool_iff in Hq.
    assert (Hf : Qfloor q = 0).
    { change 0 with (Qfloor 0). now apply Qfloor_comp. }
    rewrite Hf. reflexivity.
  - unfold num. change 0%Q with (inject_Z 0).
    destruct (Qle_bool (inject_Z 0) (inject_Z (Qfloor q))) eqn:Hle.
    + apply Qle_bool_iff in Hle. rewrite <- Zle_Qle in Hle.
      now rewrite Z.max_r.
    + assert (Hlt : Qfloor q < 0).
      { destruct (Z_lt_le_dec (Qfloor q) 0) as [|Hge]; [assumption|].
        rewrite Zle_Qle in Hge. apply Qle_bool_iff in Hge. congruence. }
      rewrite Z.max_l by lia. reflexivity.
Qed.

Lemma seek_target_tick (t : Z) : seek_target (VNum (num t)) = num (Z.max 0 t).
Proof.
  rewrite seek_target_forwarded. unfold Number, num, forwarded_tick.
  now rewrite Qfloor_Z.
Qed.


(* ===================================================================== *)
(** ** Order in a trace *)
(* ===================================================================== *)

Section Precedes.
Variables a b : Event.

Lemma precedes_nil : precedes a b [].
Proof. intros [|x pre] post E; discriminate E. Qed.

Lemma precedes_head (l : list Event) : a <> b -> precedes a b (a :: l).
Proof.
  intros Hab pre post E.
  destruct pre as [|x pre]; simpl in E.
  - injection E as E _. congruence.
  - injection E as -> _. now left.
Qed.

Lemma precedes_skip (x : Event) (l : list Event) :
  x <> b -> precedes a b l -> precedes a b (x :: l).
Proof.
  intros Hx H pre post E.
  destruct pre as [|y pre]; simpl in E.
  - injection E as E _. congruence.
  - injection E as -> E. right. now apply (H pre post).
Qed.

(** A prefix without the later event can be put in front. *)
Lemma precedes_app (l1 l2 : list Event) :
  ~ In b l1 -> precedes a b l2 -> precedes a b (l1 ++ l2).
Proof.
  induction l1 as [|x l1 IH]; intros Hnot H; [exact H|].
  simpl. apply precedes_skip.
  - intros ->. apply Hnot. now left.
  - apply IH; [|exact H]. intros Hin. apply Hnot. now right.
Qed.

Lemma split_at_later (l pre post k : list Event) :
  l ++ k = pre ++ b :: post ->
  (exists k', pre = l ++ k') \/ (exists k', l = pre ++ b :: k').
Proof.
  revert pre. induction l as [|x l IH]; intros pre E.
  - left. now exists pre.
  - destruct pre as [|y pre]; simpl in E.
    + injection E as -> _. right. now exists l.
    + injection E as -> E.
      destruct (IH pre E) as [[k' ->]|[k' ->]].
      * left. now exists k'.
      * right. now exists k'.
Qed.

(** A prefix that has the earlier event and not the later one settles
    the order for whatever follows. *)
Lemma precedes_after (l1 l2 : list Event) :
  In a l1 -> ~ In b l1 -> precedes a b (l1 ++ l2).
Proof.
  intros Hin Hno pre post E.
  destruct (split_at_later l1 pre post l2 E) as [[k' ->]|[k' Ek]].
  - apply in_or_app. now left.
  - exfalso. apply Hno. rewrite Ek. apply in_or_app. right. now left.
Qed.
End Precedes.

Create HintDb trace.
#[local] Hint Resolve precedes_nil precedes_head precedes_skip : trace.
#[local] Hint Extern 1 (_ <> _) => discriminate : trace.

(* ===================================================================== *)
(** ** What each operation leaves behind *)
(* ===================================================================== *)

(** [updateTimeline] only touches the timing state and the flag that
    suppresses one read; it sends queries and nothing else. *)
Lemma updateTimeline_frame (r : Replies) (w : World) :
  exists tm' su' evs,
    updateTimeline r w
    = mkOutcome (Normal tt)
        (mkWorld tm' (player w) (playlist w) (currentIndex w) (isPlaying w)
           (autoplay w) (loopOn w) su' (rafId w) (pauseLowPowerTimer w)
           (pendingTimeout w)) evs
    /\ Forall is_query evs
    /\ ppq tm' = ppq (timing w)
    /\ (totalTicks (timing w) <> 0 -> totalTicks tm' = totalTicks (timing w))
    /\ (isPlaying w = false ->
        currentTick tm' = currentTick (timing w)
        /\ su' = suppressFirstSynthRead w).
Proof.
  destruct w as [[cur tot tempo pq spt] [sy nc tc pl ct ls] pls ci ip ap lo su ra pt pe].
  destruct r as [tk tt' tp la lt lp sp].
  unfold updateTimeline, updateTimeline_begin, updateTimeline_resume.
  destruct ip, su, sy, tk as [tk|]; exec;
    (destruct (Z.eqb_spec tot 0) as [E|E]; exec;
     do 3 eexists; (split; [reflexivity|]);
     repeat split; cbn [app]; try congruence;
     try (intros; congruence);
     try (destruct (0 <? pq); reflexivity);
     repeat constructor; eexists; reflexivity).
Qed.

Lemma Forall_query_not (e : Event) (evs : list Event) :
  Forall is_query evs -> (forall q, e <> Ask q) -> ~ In e evs.
Proof.
  intros H Hne Hin. rewrite Forall_forall in H.
  destruct (H e Hin) as [q ->]. now apply (Hne q).
Qed.

(** [playTrack] with a track selected and the adapter initialised: the
    exact sequence of what it does, and the state it leaves. *)
Lemma playTrack_ready (w : World) :
  synth (player w) = true -> 0 <= currentIndex w ->
  playTrack w
  = mkOutcome (Normal tt)
      (mkWorld (timing w)
         (mkPlayer true true true true
            (if strict_eq (seek_target (VNum (num (currentTick (timing w))))) (num 0)
             then 0 else currentTime (player w))
            (lastSmfBytes (player w)))
         (playlist w) (currentIndex w) true (autoplay w) (loopOn w)
         true true false
         (if pauseLowPowerTimer w then None else pendingTimeout w))
      ([CallSeek (VNum (num (currentTick (timing w))));
        SeekPlayer (seek_target (VNum (num (currentTick (timing w)))));
        CallPlay; CtxResume; PlayPlayer;
        CallSetAudioState playing_state; CtxResume]
       ++ (if nodeConnected (player w) then [] else [NodeConnect])
       ++ (if tickConnected (player w) then [] else [TickConnect])
       ++ (if rafId w then [] else [RequestAnimationFrame])
       ++ (if pauseLowPowerTimer w then [ClearTimeout] else [])
       ++ [CallSetAudioState wakeUp_state; CtxResume]).
Proof.
  intros Hs Hidx. unfold playTrack. rewrite bind_gets.
  destruct (Z.ltb_spec (currentIndex w) 0); [lia|].
  destruct w as [[cur tot tempo pq spt] [sy nc tc pl ct ls] pls ci ip ap lo su ra pt pe].
  simpl in Hs. subst sy.
  destruct nc, tc, ra, pt; exec; reflexivity.
Qed.

Ltac use_timeline :=
  match goal with
  | |- context [updateTimeline ?r ?W] =>
      let tm' := fresh "tm'" in
      let su' := fresh "su'" in
      let qs := fresh "qs" in
      let E := fresh "E" in
      let Hq := fresh "Hq" in
      let Hppq := fresh "Hppq" in
      let Htot := fresh "Htot" in
      let Hnp := fresh "Hnp" in
      destruct (updateTimeline_frame r W) as (tm' & su' & qs & E & Hq & Hppq & Htot & Hnp);
      rewrite E; clear E; cbn [timing player playlist currentIndex isPlaying autoplay
        loopOn suppressFirstSynthRead rafId pauseLowPowerTimer pendingTimeout
        currentTick totalTicks tempoUsPerQuarter ppq secPerTick] in Hppq, Htot, Hnp
  end.

Ltac not_in_trace :=
  let Hin := fresh "Hin" in
  intros Hin; cbn [app] in Hin;
  repeat (first [ apply in_app_or in Hin; destruct Hin as [Hin|Hin]
                | destruct Hin as [Hin|Hin]; [discriminate Hin|] ]);
  try (now (eapply Forall_query_not; [eassumption| |eassumption]; intros; discriminate));
  try (now destruct Hin).

Ltac in_trace :=
  cbn [app];
  repeat first [ left; reflexivity
               | apply in_or_app; right; cbn [app]
               | right ].

Lemma stopTrack_ready (r : Replies) (w : World) :
  synth (player w) = true ->
  exists tm' ct' su' evs,
    stopTrack r w
    = mkOutcome (Normal tt)
        (mkWorld tm'
           (mkPlayer true false false false ct' (lastSmfBytes (player w)))
           (playlist w) (currentIndex w) false (autoplay w) (loopOn w)
           su' false false
           (if pauseLowPowerTimer w then None else pendingTimeout w))
        evs
    /\ currentTick tm' = 0
    /\ ppq tm' = ppq (timing w)
    /\ ~ In CallPlay evs
    /\ ~ In PlayPlayer evs
    /\ (forall bytes, ~ In (CallLoadMIDI bytes) evs)
    /\ In CtxSuspendAfterDrain evs.
Proof.
  intros Hs.
  destruct w as [[cur tot tempo pq spt] [sy nc tc pl ct ls] pls ci ip ap lo su ra pt pe].
  simpl in Hs. subst sy.
  destruct r as [tk tt' tp la lt lp sp].
  unfold stopTrack.
  destruct ls as [smf|], la; exec; use_timeline; destruct nc, tc, ra, pt; exec;
    (do 4 eexists; split; [reflexivity|]);
    (destruct (Hnp eq_refl) as [Hc Hsu]);
    (repeat split; [assumption|assumption|not_in_trace|not_in_trace| |]).
  all: try (intros bytes; not_in_trace).
  all: in_trace.
Qed.

(** [stopTrack] begins by telling the adapter to pause, which stops the
    player of the synthesizer. *)
Lemma stopTrack_pauses_adapter (r : Replies) (w : World) :
  synth (player w) = true ->
  exists rest, events (stopTrack r w) = CallPause :: StopPlayer :: rest.
Proof.
  intros Hs.
  destruct w as [[cur tot tempo pq spt] [sy nc tc pl ct ls] pls ci ip ap lo su ra pt pe].
  simpl in Hs. subst sy.
  destruct r as [tk tt' tp la lt lp sp].
  unfold stopTrack.
  destruct ls as [smf|], la; exec; use_timeline; destruct nc, tc, ra, pt; exec;
    eexists; reflexivity.
Qed.

(** [pauseTrack] with the adapter initialised: the tick read back is
    stored as it comes, the heartbeat is disconnected, the output stays
    connected, and the timer is armed. *)
Lemma pauseTrack_ready (r : Replies) (w : World) :
  synth (player w) = true ->
  exists tm' su' evs,
    pauseTrack r w
    = mkOutcome (Normal tt)
        (mkWorld tm'
           (mkPlayer true (nodeConnected (player w)) false false
              (currentTime (player w)) (lastSmfBytes (player w)))
           (playlist w) (currentIndex w) false (autoplay w) (loopOn w)
           su' false true (Some PAUSE_LOW_POWER_MS))
        evs
    /\ currentTick tm' = match tickReply r with
                         | Some t => t
                         | None => currentTick (timing w)
                         end
    /\ In (SetTimeout PAUSE_LOW_POWER_MS) evs
    /\ ~ In NodeDisconnect evs
    /\ ~ In CtxSuspendAfterDrain evs
    /\ ~ In CallPlay evs.
Proof.
  intros Hs.
  destruct w as [[cur tot tempo pq spt] [sy nc tc pl ct ls] pls ci ip ap lo su ra pt pe].
  simpl in Hs. subst sy.
  destruct r as [tk tt' tp la lt lp sp].
  unfold pauseTrack, pauseTrack_resume.
  destruct tk as [tk|]; exec; use_timeline; destruct tc, ra, pt; exec;
    (destruct (Hnp eq_refl) as [Hc Hsu]);
    (do 3 eexists; split; [reflexivity|]);
    (repeat split; [assumption|in_trace|not_in_trace|not_in_trace|not_in_trace]).
Qed.

(** The timer callback: when the transport is not playing, the adapter is
    put in its low-power state; when it is playing, nothing happens. *)
Lemma timerFires_lowPower (w : World) (delay : Z) :
  synth (player w) = true -> pendingTimeout w = Some delay ->
  timerFires w
  = if isPlaying w
    then mkOutcome (Normal tt) (set_pendingTimeout None w) []
    else mkOutcome (Normal tt)
           (set_pendingTimeout None
              (upd_player (fun p => set_nodeConnected false (set_tickConnected false p)) w))
           ([CallSetAudioState lowPower_state]
            ++ (if tickConnected (player w) then [TickDisconnect] else [])
            ++ (if nodeConnected (player w) then [NodeDisconnect] else [])
            ++ [CtxSuspendAfterDrain]).
Proof.
  intros Hs Hp.
  destruct w as [[cur tot tempo pq spt] [sy nc tc pl ct ls] pls ci ip ap lo su ra pt pe].
  simpl in Hs, Hp. subst sy pe.
  unfold timerFires.
  destruct ip, nc, tc; exec; reflexivity.
Qed.

(** [loadTrack] of an entry of the playlist with the adapter initialised. *)
Lemma loadTrack_ready (index : Z) (r : Replies) (w : World) (item : PlaylistItem) :
  synth (player w) = true -> 0 <= index ->
  nth_error (playlist w) (Z.to_nat index) = Some item ->
  exists tm' ct' ls' su' evs,
    loadTrack index r w
    = mkOutcome (Normal tt)
        (mkWorld tm'
           (mkPlayer true (nodeConnected (player w)) (tickConnected (player w))
              false ct' ls')
           (playlist w) index (isPlaying w) (autoplay w) (loopOn w)
           su' (rafId w) (pauseLowPowerTimer w) (pendingTimeout w))
        evs
    /\ In (CallLoadMIDI (item_bytes item)) evs
    /\ ~ In CallPlay evs
    /\ ~ In PlayPlayer evs
    /\ match header_verdict (item_bytes item) with
       | UseResolution _ => True
       | _ => ppq tm' = DEFAULT_PPQ
       end
    /\ (isPlaying w = false -> currentTick tm' = 0).
Proof.
  intros Hs Hidx Hnth.
  assert (Hlen : index < getTrackCount w).
  { unfold getTrackCount.
    assert (Z.to_nat index < length (playlist w))%nat
      by (apply nth_error_Some; congruence).
    lia. }
  unfold loadTrack. rewrite bind_gets.
  destruct (Z.ltb_spec index 0); [lia|].
  destruct (Z.leb_spec (getTrackCount w) index); [lia|].
  cbn [orb]. rewrite bind_gets, Hnth.
  destruct w as [[cur tot tempo pq spt] [sy nc tc pl ct ls] pls ci ip ap lo su ra pt pe].
  simpl in Hs. subst sy.
  destruct r as [tk tt' tp la lt lp sp].
  exec. rewrite parsePpqFromSmfHeader_verdict.
  destruct (header_verdict (item_bytes item)) as [v| |];
    destruct la, lt as [vt|], lp as [vp|]; exec;
    try use_timeline; exec;
    (do 5 eexists; split; [reflexivity|]);
    (split; [in_trace|]);
    (split; [not_in_trace|]);
    (split; [not_in_trace|]);
    (split;
     [ first [exact I | reflexivity | etransitivity; [exact Hppq | reflexivity]]
     | intros Hip; first [reflexivity | now destruct (Hnp Hip)] ]).
Qed.

(** [loadTrack] never throws to its caller. *)
Lemma loadTrack_never_throws (index : Z) (r : Replies) (w : World) :
  result (loadTrack index r w) = Normal tt.
Proof.
  unfold loadTrack. rewrite bind_gets.
  destruct ((index <? 0) || (getTrackCount w <=? index))%bool; [reflexivity|].
  rewrite bind_gets.
  destruct (nth_error (playlist w) (Z.to_nat index)) as [item|]; [|reflexivity].
  rewrite bind_modify. unfold try_catch.
  match goal with
  | |- context [match ?c with mkOutcome _ _ _ => _ end] =>
      destruct c as [[[]|] w1 e1]; reflexivity
  end.
Qed.

(* ===================================================================== *)
(** ** Calls left behind, run alone *)
(* ===================================================================== *)

Lemma finish_Suspended (resume : Act Task) (w : World) :
  finish (Suspended resume) w = (rest <- resume ;; finish rest) w.
Proof.
  cbn [finish]. unfold bind.
  destruct (resume w) as [[rest|] w1 e1]; reflexivity.
Qed.

Lemma finish_Finished (w : World) : finish Finished w = mkOutcome (Normal tt) w [].
Proof. reflexivity. Qed.

(** Unfold the pieces, leaving [finish] and the timeline update as they
    stand. *)
Ltac exec_pieces :=
  repeat (progress (cbv beta iota zeta delta
                      [playTrack_task stopTrack_end stopTrack_task proceed
                       loadTrack_started onEnded_started checkForTrackEnd_started];
                    exec)
          || rewrite finish_Suspended
          || rewrite finish_Finished).

Ltac exec_timeline :=
  repeat (progress (cbv beta iota zeta delta
                      [updateTimeline_begin updateTimeline_lazy updateTimeline_started
                       updateTimeline updateTimeline_resume];
                    exec)
          || rewrite finish_Suspended
          || rewrite finish_Finished).

(** The pieces of [updateTimeline()], and then [next], against the
    function as a whole. *)
Lemma updateTimeline_pieces (r : Replies) (next : Task) (w : World) :
  exists rest w1 e1 w2 e2,
    updateTimeline_started r next w = mkOutcome (Normal rest) w1 e1
    /\ updateTimeline r w = mkOutcome (Normal tt) w2 e2
    /\ mkOutcome (result (finish rest w1)) (world (finish rest w1))
         (e1 ++ events (finish rest w1))
       = mkOutcome (result (finish next w2)) (world (finish next w2))
           (e2 ++ events (finish next w2)).
Proof.
  destruct w as [[cur tot tempo pq spt] [sy nc tc pl ct ls] pls ci ip ap lo su ra pt pe].
  destruct r as [tk tt' tp la lt lp sp].
  destruct ip, su, sy, tk as [tk|], (tot =? 0) eqn:Et; exec_timeline; rewrite ?Et;
    exec_timeline;
    (do 5 eexists; split; [reflexivity|]; split; [reflexivity|]);
    exec_timeline; rewrite ?Et; exec_timeline;
    match goal with
    | |- context [finish next ?W] => destruct (finish next W) as [res wf ef]
    end; cbn [result world events app]; rewrite ?app_nil_r; reflexivity.
Qed.

(** With nothing in between, the pieces of [stopTrack] are [stopTrack]. *)
Lemma stopTrack_alone (r : Replies) (w : World) :
  finish (stopTrack_task r) w = stopTrack r w.
Proof.
  destruct w as [[cur tot tempo pq spt] [sy nc tc pl ct ls] pls ci ip ap lo su ra pt pe].
  destruct r as [tk tt' tp la lt lp sp].
  unfold stopTrack, updateTimeline, updateTimeline_begin, updateTimeline_resume.
  destruct sy, ls as [smf|], la, (tot =? 0) eqn:Et;
    exec_pieces; exec_timeline; rewrite ?Et; exec_timeline.
  all: try reflexivity.
  all: destruct nc, tc, ra, pt; reflexivity.
Qed.

Lemma playTrack_alone (w : World) : finish playTrack_task w = playTrack w.
Proof.
  unfold playTrack_task. cbn [finish]. unfold bind, ret.
  destruct (playTrack w) as [[[]|] w1 e1]; cbn [finish app]; [|reflexivity].
  now rewrite !app_nil_r.
Qed.

Ltac same_outcome :=
  repeat match goal with
         | |- context [finish ?t ?W] =>
             is_var t; destruct (finish t W) as [res wf ef]
         end;
  cbn [app]; rewrite ?app_nil_r; try reflexivity.

Ltac same_events :=
  try (f_equal; cbn [app]; rewrite ?app_nil_r; repeat rewrite <- app_assoc; cbn [app];
       congruence);
  same_outcome.

Ltac use_timeline_pieces :=
  match goal with
  | |- context [updateTimeline_started ?r ?next ?W] =>
      let rest := fresh "rest" in
      let w1 := fresh "w1" in
      let e1 := fresh "e1" in
      let w2 := fresh "w2" in
      let e2 := fresh "e2" in
      let E1 := fresh "E1" in
      let E2 := fresh "E2" in
      let E3 := fresh "E3" in
      destruct (updateTimeline_pieces r next W) as (rest & w1 & e1 & w2 & e2 & E1 & E2 & E3);
      rewrite E1, E2; clear E1 E2;
      destruct (finish rest w1) as [res1 wf1 ef1];
      destruct (finish next w2) as [res2 wf2 ef2];
      cbn [result world events] in E3;
      injection E3 as -> -> E3
  end.

Lemma loadTrack_alone (index : Z) (cached : bool) (r : Replies) (next : Task) (w : World) :
  (rest <- loadTrack_started index cached r next ;; finish rest) w
  = (loadTrack index r ;; finish next) w.
Proof.
  destruct w as [[cur tot tempo pq spt] [sy nc tc pl ct ls] pls ci ip ap lo su ra pt pe].
  destruct r as [tk tt' tp la lt lp sp].
  unfold loadTrack. exec_pieces.
  destruct (index <? 0); [reflexivity|].
  destruct (_ <=? index); [reflexivity|].
  destruct (nth_error pls (Z.to_nat index)) as [item|]; [|reflexivity].
  destruct cached, sy; exec_pieces; try (same_outcome; fail).
  all: rewrite ?parsePpqFromSmfHeader_verdict;
       destruct (header_verdict (item_bytes item)); exec_pieces.
  all: destruct la, lt as [total|], lp as [t|]; exec_pieces.
  all: try use_timeline_pieces.
  all: same_events.
Qed.

Lemma loadTrack_started_returns (index : Z) (cached : bool) (r : Replies) (next : Task)
    (w : World) :
  exists rest w1 e1, loadTrack_started index cached r next w = mkOutcome (Normal rest) w1 e1.
Proof.
  unfold loadTrack_started. rewrite bind_gets.
  destruct ((index <? 0) || (getTrackCount w <=? index)); [now do 3 eexists|].
  rewrite bind_gets.
  destruct (nth_error (playlist w) (Z.to_nat index)) as [item|]; [|now do 3 eexists].
  rewrite bind_modify.
  destruct cached; [|now do 3 eexists].
  unfold proceed. cbv zeta. unfold try_catch at 1.
  match goal with
  | |- context [match ?c with mkOutcome _ _ _ => _ end] => destruct c as [[rest|] w1 e1]
  end.
  - now do 3 eexists.
  - exec. now do 3 eexists.
Qed.

(** A call that nobody awaits, after something that does not throw. *)
Lemma try_bind {A} (m : Act A) (k : A -> Act unit) (w : World) :
  (exists a w1 e1, m w = mkOutcome (Normal a) w1 e1) ->
  (a <- m ;; detached (k a)) w = detached (a <- m ;; k a) w.
Proof.
  intros (a & w1 & e1 & E). unfold detached. rewrite try_eq. unfold bind. rewrite E.
  rewrite try_eq. now destruct (k a w1).
Qed.

(** Found by the heartbeat, the end of a track is handled with nothing in
    between: what [onEnded] does at once and the call it leaves behind,
    run to its end, are [onEnded] as a whole. *)
Lemma onEnded_alone (cached : bool) (r : Replies) (w : World) :
  (rest <- onEnded_started cached r ;; detached (finish rest)) w = onEnded r w.
Proof.
  unfold onEnded_started, onEnded, bind at 1.
  rewrite !bind_modify, !bind_gets.
  destruct (getTrackCount (set_isPlaying false w) =? 1).
  - destruct (loopOn (set_isPlaying false w)).
    + rewrite !bind_modify. unfold bind.
      destruct (call_seek 0 _) as [[[]|] w1 e1]; [|reflexivity].
      unfold ret. unfold detached. rewrite !try_eq, playTrack_alone.
      cbn [app]. now rewrite ?app_nil_r.
    + unfold ret. unfold detached. rewrite !try_eq, stopTrack_alone. reflexivity.
  - rewrite !bind_gets.
    destruct (getNextIndexForPlayer (set_isPlaying false w)) as [n|].
    + change (match loadTrack_started n cached r playTrack_task (set_isPlaying false w) with
              | mkOutcome (Normal a) w1 e1 =>
                  match detached (finish a) w1 with
                  | mkOutcome r0 w2 e2 => mkOutcome r0 w2 (e1 ++ e2)
                  end
              | mkOutcome Thrown w1 e1 => mkOutcome Thrown w1 e1
              end)
        with ((rest <- loadTrack_started n cached r playTrack_task ;; detached (finish rest))
                (set_isPlaying false w)).
      rewrite try_bind by apply loadTrack_started_returns.
      unfold detached. rewrite !try_eq.
      rewrite (loadTrack_alone n cached r playTrack_task).
      unfold bind.
      destruct (loadTrack n r (set_isPlaying false w)) as [[[]|] w2 e2]; [|reflexivity].
      now rewrite playTrack_alone.
    + unfold ret. unfold detached. rewrite !try_eq, stopTrack_alone. reflexivity.
Qed.

(** The heartbeat calls [checkForTrackEnd] with nothing else pending: the
    function as it runs inside its caller, followed by the call left
    behind, is [checkForTrackEnd] run as a whole. *)
Lemma checkForTrackEnd_alone (cached : bool) (r : Replies) (w : World) :
  (rest <- checkForTrackEnd_started cached r ;; detached (finish rest)) w
  = checkForTrackEnd r w.
Proof.
  unfold checkForTrackEnd_started, checkForTrackEnd, the_synth, the_timing.
  unfold bind at 1. unfold try_catch at 1. rewrite try_eq, !bind_gets.
  destruct (negb (isPlaying w) || negb (synth (player w))); [reflexivity|].
  rewrite !bind_gets.
  match goal with
  | |- context [if ?b then onEnded_started _ _ else _] => destruct b
  end; [|reflexivity].
  cbn [when]. rewrite <- (onEnded_alone cached r w). unfold bind.
  destruct (onEnded_started cached r w) as [[rest|] w1 e1].
  - unfold detached. rewrite try_eq. reflexivity.
  - unfold ret. cbn [finish detached try_ world events result].
    now rewrite !app_nil_r.
Qed.

(* ===================================================================== *)
(** ** Rounding to doubles *)
(* ===================================================================== *)


Lemma round_half_even_error (a b : Z) :
  0 < b -> 2 * Z.abs (round_half_even a b * b - a) <= b.
Proof.
  intros Hb. unfold round_half_even.
  pose proof (Z.div_mod a b ltac:(lia)) as E.
  pose proof (Z.mod_pos_bound a b Hb) as Hr.
  destruct (Z.compare_spec (2 * (a mod b)) b) as [H|H|H];
    [destruct (Z.even (a / b))| |]; nia.
Qed.

Lemma round_half_even_exact (m b : Z) : 0 < b -> round_half_even (m * b) b = m.
Proof.
  intros Hb. unfold round_half_even.
  rewrite Z.mod_mul, Z.div_mul by lia.
  destruct (Z.compare_spec (2 * 0) b); lia.
Qed.

Lemma round_half_even_nonneg (a b : Z) : 0 <= a -> 0 < b -> 0 <= round_half_even a b.
Proof.
  intros Ha Hb. unfold round_half_even.
  pose proof (Z.div_pos a b Ha Hb).
  destruct (2 * (a mod b) ?= b); [destruct (Z.even (a / b))| |]; lia.
Qed.

Lemma binary_exponent_spec (n d : Z) :
  0 < n -> 0 < d ->
  let e := binary_exponent n d in
  (0 <= e -> d * 2 ^ e <= n < d * 2 ^ (e + 1))
  /\ (e < 0 -> d <= n * 2 ^ (- e) /\ n * 2 ^ (- e) < 2 * d).
Proof.
  intros Hn Hd.
  pose proof (Z.log2_spec n Hn) as [Ln Un].
  pose proof (Z.log2_spec d Hd) as [Ld Ud].
  pose proof (Z.log2_nonneg n) as Nn. pose proof (Z.log2_nonneg d) as Nd.
  unfold binary_exponent, in_units.
  set (ln := Z.log2 n) in *. set (ld := Z.log2 d) in *.
  replace (Z.succ ln) with (ln + 1) in Un by lia.
  replace (Z.succ ld) with (ld + 1) in Ud by lia.
  destruct (Z.leb_spec 0 (ln - ld)) as [He0|He0].
  - (* e0 >= 0 *)
    assert (Eln : 2 ^ ln = 2 ^ ld * 2 ^ (ln - ld))
      by (rewrite <- Z.pow_add_r by lia; f_equal; lia).
    assert (Hp : 0 < 2 ^ (ln - ld)) by (apply Z.pow_pos_nonneg; lia).
    assert (Hpd : 0 < 2 ^ ld) by (apply Z.pow_pos_nonneg; lia).
    rewrite Z.pow_add_r in Un, Ud by lia. change (2 ^ 1) with 2 in *.
    destruct (Z.leb_spec (d * 2 ^ (ln - ld)) n) as [Hc|Hc]; cbv zeta.
    + split; [intros _|lia].
      split; [exact Hc|]. rewrite Z.pow_add_r by lia. change (2 ^ 1) with 2. nia.
    + destruct (Z.eq_dec (ln - ld) 0) as [E0|E0].
      * split; [lia|intros _].
        replace (- (ln - ld - 1)) with 1 by lia. change (2 ^ 1) with 2.
        rewrite E0 in *. change (2 ^ 0) with 1 in *. nia.
      * split; [intros _|lia].
        replace (ln - ld - 1 + 1) with (ln - ld) by lia.
        split; [|exact Hc].
        assert (E1 : 2 ^ (ln - ld) = 2 * 2 ^ (ln - ld - 1)).
        { replace (ln - ld) with (1 + (ln - ld - 1)) at 1 by lia.
          rewrite Z.pow_add_r by lia. reflexivity. }
        assert (0 < 2 ^ (ln - ld - 1)) by (apply Z.pow_pos_nonneg; lia).
        nia.
  - (* e0 < 0 *)
    assert (Eld : 2 ^ ld = 2 ^ ln * 2 ^ (- (ln - ld)))
      by (rewrite <- Z.pow_add_r by lia; f_equal; lia).
    assert (Hp : 0 < 2 ^ (- (ln - ld))) by (apply Z.pow_pos_nonneg; lia).
    assert (Hpn : 0 < 2 ^ ln) by (apply Z.pow_pos_nonneg; lia).
    rewrite Z.pow_add_r in Un, Ud by lia. change (2 ^ 1) with 2 in *.
    destruct (Z.leb_spec d (n * 2 ^ (- (ln - ld)))) as [Hc|Hc]; cbv zeta.
    + split; [lia|intros _]. split; [exact Hc|nia].
    + split; [lia|intros _].
      replace (- (ln - ld - 1)) with (1 + - (ln - ld)) by lia.
      rewrite Z.pow_add_r by lia. change (2 ^ 1) with 2. nia.
Qed.

Lemma last_place_le (n d E : Z) :
  0 < n -> 0 < d -> 0 <= E -> -1074 <= E - 53 -> n < d * 2 ^ E ->
  last_place n d <= E - 53.
Proof.
  intros Hn Hd HE Hlow Hlt. unfold last_place.
  destruct (binary_exponent_spec n d Hn Hd) as [Hpos _].
  cbv zeta in Hpos.
  assert (binary_exponent n d < E); [|lia].
  destruct (Z.lt_ge_cases (binary_exponent n d) 0) as [|He]; [lia|].
  destruct (Hpos He) as [Hlo _].
  apply (Z.pow_lt_mono_r_iff 2); [lia|lia|]. nia.
Qed.

Lemma Qfloor_dyadic_neg (m k : Z) : k < 0 -> Qfloor (dyadic m k) = m / 2 ^ (- k).
Proof.
  intros Hk. unfold dyadic. destruct (Z.leb_spec 0 k); [lia|].
  cbn [Qfloor]. rewrite Z2Pos.id; [reflexivity|]. apply Z.pow_pos_nonneg; lia.
Qed.

(** Where the last place is fine enough, rounding to the nearest double
    does not change the whole part of a quotient of whole numbers. *)
Lemma floor_nearest_double (n : Z) (p : positive) (E : Z) :
  0 <= n -> 0 <= E <= 52 -> n < Zpos p * 2 ^ E -> Zpos p < 2 * 2 ^ (53 - E) ->
  exists q, nearest_double (n # p) = Fin q /\ Qfloor q = n / Zpos p.
Proof.
  intros Hn HE Hlt Hfine. unfold nearest_double. cbn [Qnum Qden].
  destruct (Z.eqb_spec n 0) as [->|Hn0].
  { exists 0%Q. split; [reflexivity|]. now rewrite Z.div_0_l. }
  set (d := Zpos p) in *. assert (Hd : 0 < d) by (unfold d; lia).
  rewrite Z.abs_eq by lia.
  pose proof (last_place_le n d E ltac:(lia) Hd ltac:(lia) ltac:(lia) Hlt) as Hk.
  set (k := last_place n d) in *.
  unfold in_units. destruct (Z.leb_spec 0 k) as [|Hkneg]; [lia|].
  cbn [andb].
  set (P := 2 ^ (- k)).
  assert (HP : 2 ^ (53 - E) <= P).
  { unfold P. apply Z.pow_le_mono_r; lia. }
  assert (HP0 : 0 < P) by (unfold P; apply Z.pow_pos_nonneg; lia).
  set (m := round_half_even (n * P) d).
  exists (dyadic m k). split; [reflexivity|].
  rewrite Qfloor_dyadic_neg by lia. fold P.
  pose proof (round_half_even_error (n * P) d Hd) as Herr. fold m in Herr.
  pose proof (Z.div_mod n d ltac:(lia)) as Ediv.
  pose proof (Z.mod_pos_bound n d Hd) as Hr.
  set (h := n / d) in *. set (r := n mod d) in *.
  symmetry. apply (Z.div_unique m P h (m - P * h)); [|lia].
  left. split.
  - destruct (Z.lt_ge_cases m (P * h)) as [Hc|]; [exfalso|lia].
    assert (m * d <= P * h * d - d) by nia. nia.
  - destruct (Z.lt_ge_cases m (P * h + P)) as [|Hc]; [lia|exfalso].
    assert (P * h * d + P * d <= m * d) by nia. nia.
Qed.

(** A rational that is a double is its own nearest double. *)
Lemma nearest_double_exact (n : Z) (p : positive) (M K : Z) :
  0 < M < 2 ^ 53 -> -53 <= K <= 0 -> n * 2 ^ (- K) = M * Zpos p ->
  exists q, nearest_double (n # p) = Fin q /\ (q == n # p)%Q.
Proof.
  intros HM HK E. unfold nearest_double. cbn [Qnum Qden].
  set (d := Zpos p) in *. assert (Hd : 0 < d) by (unfold d; lia).
  assert (HPK : 0 < 2 ^ (- K)) by (apply Z.pow_pos_nonneg; lia).
  assert (Hn : 0 < n) by nia.
  destruct (Z.eqb_spec n 0) as [|_]; [lia|].
  rewrite Z.abs_eq by lia.
  assert (Hk : last_place n d <= K).
  { assert (H53 : 2 ^ 53 = 2 ^ (K + 53) * 2 ^ (- K))
      by (rewrite <- Z.pow_add_r by lia; f_equal; lia).
    assert (0 < 2 ^ (K + 53)) by (apply Z.pow_pos_nonneg; lia).
    pose proof (last_place_le n d (K + 53) Hn Hd ltac:(lia) ltac:(lia)) as Hle.
    assert (n < d * 2 ^ (K + 53)) by nia. lia. }
  set (k := last_place n d) in *.
  assert (Hshift : 2 ^ (- k) = 2 ^ (- K) * 2 ^ (K - k))
    by (rewrite <- Z.pow_add_r by lia; f_equal; lia).
  assert (HPs : 0 < 2 ^ (K - k)) by (apply Z.pow_pos_nonneg; lia).
  unfold in_units. destruct (Z.leb_spec 0 k) as [Hk0|Hkneg].
  - assert (k = 0) by lia. assert (K = 0) by lia. subst K.
    replace k with 0 in * by lia. change (2 ^ 0) with 1 in *. change (2 ^ (-0)) with 1 in *.
    rewrite Z.mul_1_r in *. subst n.
    rewrite ?Z.mul_1_r. rewrite round_half_even_exact by lia.
    destruct (Z.leb_spec (2 ^ 1024) (Z.abs M)) as [Hov|_].
    { exfalso. assert (2 ^ 53 < 2 ^ 1024) by (apply Z.pow_lt_mono_r; lia). lia. }
    cbn [andb Z.leb]. exists (dyadic M 0). split; [reflexivity|].
    unfold dyadic, Qeq. cbn. fold d. lia.
  - cbn [andb].
    replace (n * 2 ^ (- k)) with (M * 2 ^ (K - k) * d) by (rewrite Hshift; nia).
    rewrite round_half_even_exact by lia.
    exists (dyadic (M * 2 ^ (K - k)) k). split; [reflexivity|].
    unfold dyadic. destruct (Z.leb_spec 0 k); [lia|].
    unfold Qeq. cbn [Qnum Qden]. rewrite Z2Pos.id by (apply Z.pow_pos_nonneg; lia).
    fold d. rewrite Hshift. nia.
Qed.

(** The nearest double of a fraction below [2^E], with [E] up to 52, is a
    count of units [1/P] with [P] at least [2^(53-E)], half a unit or less
    off the fraction. *)
Lemma nearest_double_fine (n : Z) (p : positive) (E : Z) :
  0 < n -> 0 <= E <= 52 -> n < Zpos p * 2 ^ E ->
  exists m P,
    nearest_double (n # p) = Fin (m # P)
    /\ 2 ^ (53 - E) <= Zpos P
    /\ 2 * Z.abs (m * Zpos p - n * Zpos P) <= Zpos p.
Proof.
  intros Hn HE Hlt. unfold nearest_double. cbn [Qnum Qden].
  destruct (Z.eqb_spec n 0) as [|_]; [lia|].
  set (d := Zpos p) in *. assert (Hd : 0 < d) by (unfold d; lia).
  rewrite Z.abs_eq by lia.
  pose proof (last_place_le n d E Hn Hd ltac:(lia) ltac:(lia) Hlt) as Hk.
  set (k := last_place n d) in *.
  unfold in_units. destruct (Z.leb_spec 0 k) as [|Hkneg]; [lia|].
  cbn [andb].
  assert (HP0 : 0 < 2 ^ (- k)) by (apply Z.pow_pos_nonneg; lia).
  exists (round_half_even (n * 2 ^ (- k)) d), (Z.to_pos (2 ^ (- k))).
  rewrite Z2Pos.id by exact HP0.
  split; [|split].
  - unfold dyadic. destruct (Z.leb_spec 0 k); [lia|reflexivity].
  - apply Z.pow_le_mono_r; lia.
  - apply round_half_even_error. exact Hd.
Qed.

(** A fraction that is 1 or more is not rounded below 1. *)
Lemma nearest_double_at_least_one (n : Z) (p : positive) :
  Zpos p <= n ->
  match nearest_double (n # p) with
  | Fin x => 1 <= Qfloor x
  | PosInf => True
  | _ => False
  end.
Proof.
  intros Hge. unfold nearest_double. cbn [Qnum Qden].
  set (d := Zpos p) in *. assert (Hd : 0 < d) by (unfold d; lia).
  destruct (Z.eqb_spec n 0) as [|_]; [lia|].
  rewrite Z.abs_eq by lia.
  destruct (binary_exponent_spec n d ltac:(lia) Hd) as [Hpos Hneg].
  cbv zeta in Hpos, Hneg.
  assert (He : 0 <= binary_exponent n d).
  { destruct (Z.lt_ge_cases (binary_exponent n d) 0) as [Hlt|]; [exfalso|lia].
    destruct (Hneg Hlt) as [_ Hup].
    assert (2 ^ 1 <= 2 ^ (- binary_exponent n d)) by (apply Z.pow_le_mono_r; lia).
    change (2 ^ 1) with 2 in *. nia. }
  destruct (Hpos He) as [Hlo _].
  unfold last_place. rewrite Z.max_l by lia.
  set (e := binary_exponent n d) in *.
  unfold in_units. destruct (Z.leb_spec 0 (e - 52)) as [Hk|Hk].
  - assert (Hu : 0 < 2 ^ (e - 52)) by (apply Z.pow_pos_nonneg; lia).
    assert (Hsplit : 2 ^ e = 2 ^ (e - 52) * 2 ^ 52)
      by (rewrite <- Z.pow_add_r by lia; f_equal; lia).
    pose proof (round_half_even_error n (d * 2 ^ (e - 52)) ltac:(nia)) as Herr.
    set (m := round_half_even n (d * 2 ^ (e - 52))) in *.
    assert (Hm : 1 <= m).
    { destruct (Z.lt_ge_cases m 1) as [Hc|]; [exfalso|lia].
      assert (m * (d * 2 ^ (e - 52)) <= 0) by nia.
      assert (d * 2 ^ (e - 52) <= n) by nia. lia. }
    cbn [andb].
    destruct (2 ^ 1024 <=? Z.abs m * 2 ^ (e - 52)).
    + destruct (Z.ltb_spec 0 n); [exact I|lia].
    + unfold dyadic. destruct (Z.leb_spec 0 (e - 52)); [|lia].
      rewrite Qfloor_Z. nia.
  - cbn [andb]. rewrite Qfloor_dyadic_neg by lia.
    assert (HP : 0 < 2 ^ (- (e - 52))) by (apply Z.pow_pos_nonneg; lia).
    pose proof (round_half_even_error (n * 2 ^ (- (e - 52))) d Hd) as Herr.
    set (P := 2 ^ (- (e - 52))) in *.
    set (m := round_half_even (n * P) d) in *.
    assert (Hm : P <= m).
    { destruct (Z.lt_ge_cases m P) as [Hc|]; [exfalso|lia].
      assert (m * d <= P * d - d) by nia.
      assert (d * P <= n * P) by nia. lia. }
    apply Z.div_le_lower_bound; lia.
Qed.

(* ===================================================================== *)
(** ** The range of the playhead *)
(* ===================================================================== *)

(** [clampTick] would bring the playhead back into its range. *)
Lemma clampTick_in_range (s : TimingState) :
  0 <= totalTicks s -> tick_in_range (clampTick s).
Proof. unfold tick_in_range, clampTick. simpl. lia. Qed.

(** C1 does not hold of the code.  After loading a track of 100 ticks and
    starting it, a pause during which the synthesizer reports tick 150
    leaves [currentTick = 150] with [totalTicks = 100]: the value is stored
    as it comes, and [clampTick], which would restore the range, is not
    called. *)
Theorem pause_stores_tick_unclamped :
  let after := world (run [OpToggle quiet; OpPause (at_tick 150)]
                          (initial_world [sample_item])) in
  totalTicks (timing after) = 100
  /\ currentTick (timing after) = 150
  /\ ~ tick_in_range (timing after)
  /\ tick_in_range (clampTick (timing after)).
Proof.
  intros after.
  assert (E : timing after = mkTiming 150 100 500000 96 (sec_per_tick 500000 96))
    by (vm_compute; reflexivity).
  rewrite E. unfold tick_in_range, clampTick. simpl.
  repeat split; try lia.
Qed.

(* ===================================================================== *)
(** ** End of track *)
(* ===================================================================== *)

Lemma checkForTrackEnd_declared (r : Replies) (w : World) :
  isPlaying w = true -> synth (player w) = true -> end_declared r w = true ->
  checkForTrackEnd r w
  = mkOutcome (Normal tt) (world (onEnded r w)) (events (onEnded r w)).
Proof.
  intros Hip Hs Hend. unfold checkForTrackEnd. rewrite try_eq.
  unfold the_synth, the_timing. rewrite !bind_gets, Hip, Hs. cbn [negb orb].
  rewrite !bind_gets. unfold end_declared in Hend. rewrite Hend. reflexivity.
Qed.

Lemma not_in_playTrack_load (w : World) (bytes : list byte) :
  ~ In (CallLoadMIDI bytes) (events (playTrack w))
  /\ ~ In (AddSMFDataToPlayer bytes) (events (playTrack w)).
Proof.
  unfold playTrack. rewrite bind_gets.
  destruct (currentIndex w <? 0); [split; intros []|].
  destruct w as [[cur tot tempo pq spt] [sy nc tc pl ct ls] pls ci ip ap lo su ra pt pe].
  destruct sy, nc, tc, ra, pt; exec; split; not_in_trace.
Qed.

(** The stop of [onEnded]: what [stopTrack] leaves and sends. *)
Ltac stop_carried_out :=
  match goal with
  | |- context [stopTrack ?r ?W] =>
      let Hfirst := fresh "Hfirst" in
      destruct (stopTrack_pauses_adapter r W eq_refl) as [first Hfirst];
      destruct (stopTrack_ready r W eq_refl)
        as (tm' & ct' & su' & evs & E & Htick & _ & Hnoplay & Hnoplayer & Hnoload & Hsusp);
      rewrite E in *; cbn [events] in Hfirst;
      unfold carried_out; exec;
      repeat apply conj; try assumption; try reflexivity;
      exists first; exact Hfirst
  end.

(** C2. When [checkForTrackEnd] declares the end of the track while
    playing (the adapter initialised, the current index in the playlist),
    what happens is what the navigation policy says for the playlist
    length, the current index and the Loop and Autoplay flags: restart of
    the same track by seek to 0 and play with no load, load and play of
    the next entry, or stop; and a stop is a stop of the adapter too:
    told to pause, the player of the synthesizer stopped, the audio
    nodes disconnected, the context told to suspend, no frame and no
    timer left. *)
Theorem end_of_track_follows_policy (r : Replies) (w : World) :
  isPlaying w = true -> synth (player w) = true -> end_declared r w = true ->
  0 <= currentIndex w < getTrackCount w ->
  carried_out
    (navigation_policy (getTrackCount w) (currentIndex w) (loopOn w) (autoplay w))
    w (checkForTrackEnd r w).
Proof.
  intros Hip Hs Hend Hidx.
  rewrite (checkForTrackEnd_declared r w Hip Hs Hend). clear Hend.
  destruct w as [[cur tot tempo pq spt] [sy nc tc pl ct ls] pls ci ip ap lo su ra pt pe].
  unfold getTrackCount in *. cbn [playlist currentIndex loopOn autoplay] in *.
  simpl in Hip, Hs. subst ip sy.
  set (len := Z.of_nat (length pls)) in *.
  unfold onEnded, navigation_policy, getNextIndexForPlayer, hasSingleTrack, getTrackCount.
  exec. fold len.
  destruct (Z.eqb_spec len 1) as [Hone|Hmany].
  - destruct lo; exec.
    + (* restart the same track *)
      match goal with
      | |- context [playTrack ?W] =>
          pose proof (not_in_playTrack_load W) as Hnoload;
          rewrite (playTrack_ready W eq_refl ltac:(simpl; lia)) in *
      end.
      unfold carried_out. exec. cbn [app].
      repeat split.
      * in_trace.
      * apply precedes_head. discriminate.
      * intros bytes. destruct (Hnoload bytes) as [H _]. cbn [events] in H.
        intros [Hin|[Hin|Hin]]; try discriminate Hin. now apply H.
      * intros bytes. destruct (Hnoload bytes) as [_ H]. cbn [events] in H.
        intros [Hin|[Hin|Hin]]; try discriminate Hin. now apply H.
    + (* stop *)
      stop_carried_out.
  - change (Z.of_nat (Datatypes.length pls)) with len.
    destruct (Z.eqb_spec len 0); [lia|].
    destruct (Z.eqb_spec len 1); [lia|].
    assert (Hitem : forall k, 0 <= k < len ->
                    exists item, nth_error pls (Z.to_nat k) = Some item).
    { intros k Hk. destruct (nth_error pls (Z.to_nat k)) as [item|] eqn:E.
      - now exists item.
      - apply nth_error_None in E. unfold len in Hk. lia. }
    destruct lo.
    + (* loop: the next index, wrapping *)
      assert (Hrem : js_rem (ci + 1) len = (ci + 1) mod len)
        by (unfold js_rem; apply Z.rem_mod_nonneg; lia).
      rewrite Hrem.
      assert (Hn : 0 <= (ci + 1) mod len < len) by (apply Z.mod_pos_bound; lia).
      destruct (Hitem _ Hn) as [item Hnth].
      match goal with
      | |- context [loadTrack ?n ?r ?W] =>
          destruct (loadTrack_ready n r W item eq_refl ltac:(lia) Hnth)
            as (tm' & ct' & ls' & su' & evs & E & Hin & Hnoplay & _);
          rewrite E
      end.
      match goal with
      | |- context [playTrack ?W] =>
          rewrite (playTrack_ready W eq_refl ltac:(simpl; lia))
      end.
      unfold carried_out. exec. cbn [app]. repeat split.
      * in_trace.
      * exists item. split; [exact Hnth|]. now apply precedes_after.
    + destruct ap.
      * destruct (Z.ltb_spec ci (len - 1)); destruct (Z.eqb_spec ci (len - 1)); try lia.
        -- (* autoplay: the next index *)
           assert (Hn : 0 <= ci + 1 < len) by lia.
           destruct (Hitem _ Hn) as [item Hnth].
           match goal with
           | |- context [loadTrack ?n ?r ?W] =>
               destruct (loadTrack_ready n r W item eq_refl ltac:(lia) Hnth)
                 as (tm' & ct' & ls' & su' & evs & E & Hin & Hnoplay & _);
               rewrite E
           end.
           match goal with
           | |- context [playTrack ?W] =>
               rewrite (playTrack_ready W eq_refl ltac:(simpl; lia))
           end.
           unfold carried_out. exec. cbn [app]. repeat split.
           ++ in_trace.
           ++ exists item. split; [exact Hnth|]. now apply precedes_after.
        -- (* autoplay at the last index: stop *)
           stop_carried_out.
      * (* neither loop nor autoplay: stop *)
        stop_carried_out.
Qed.

(** The scenarios of a track ending: alone with Loop on; second of three
    with Autoplay; last of three with Autoplay; last of three with Loop. *)
Lemma end_of_track_follows_policy_witness :
  carried_out RestartSame (playing_last_tick 1 0 true false)
    (checkForTrackEnd quiet (playing_last_tick 1 0 true false))
  /\ carried_out (AdvanceTo 2) (playing_last_tick 3 1 false true)
       (checkForTrackEnd quiet (playing_last_tick 3 1 false true))
  /\ carried_out StopPlayback (playing_last_tick 3 2 false true)
       (checkForTrackEnd quiet (playing_last_tick 3 2 false true))
  /\ carried_out (AdvanceTo 0) (playing_last_tick 3 2 true false)
       (checkForTrackEnd quiet (playing_last_tick 3 2 true false)).
Proof.
  split; [|split; [|split]].
  - apply (end_of_track_follows_policy quiet (playing_last_tick 1 0 true false));
      try reflexivity.
    split; [discriminate|reflexivity].
  - apply (end_of_track_follows_policy quiet (playing_last_tick 3 1 false true));
      try reflexivity.
    split; [discriminate|reflexivity].
  - apply (end_of_track_follows_policy quiet (playing_last_tick 3 2 false true));
      try reflexivity.
    split; [discriminate|reflexivity].
  - apply (end_of_track_follows_policy quiet (playing_last_tick 3 2 true false));
      try reflexivity.
    split; [discriminate|reflexivity].
Defined.

(* ===================================================================== *)
(** ** Starting playback *)
(* ===================================================================== *)

(** Before the adapter is initialised, [loadTrack] selects the entry and
    fails at its first call on the adapter; the failure is reported, not
    thrown. *)
Lemma loadTrack_not_ready (index : Z) (r : Replies) (w : World) (item : PlaylistItem) :
  synth (player w) = false -> 0 <= index ->
  nth_error (playlist w) (Z.to_nat index) = Some item ->
  loadTrack index r w
  = mkOutcome (Normal tt) (set_currentIndex index w) [CallPause; Alert].
Proof.
  intros Hs Hidx Hnth.
  assert (Hlen : index < getTrackCount w).
  { unfold getTrackCount.
    assert (Z.to_nat index < length (playlist w))%nat
      by (apply nth_error_Some; congruence).
    lia. }
  unfold loadTrack. rewrite bind_gets.
  destruct (Z.ltb_spec index 0); [lia|].
  destruct (Z.leb_spec (getTrackCount w) index); [lia|].
  cbn [orb]. rewrite bind_gets, Hnth.
  destruct w as [[cur tot tempo pq spt] [sy nc tc pl ct ls] pls ci ip ap lo su ra pt pe].
  simpl in Hs. subst sy. exec. reflexivity.
Qed.

Lemma playTrack_seeks_first (w : World) :
  precedes (CallSeek (VNum (num (currentTick (timing w))))) CallPlay
           (events (playTrack w))
  /\ (0 <= currentIndex w -> In CallPlay (events (playTrack w))).
Proof.
  unfold playTrack. rewrite bind_gets.
  destruct (Z.ltb_spec (currentIndex w) 0) as [Hlt|Hge].
  - split; [apply precedes_nil|lia].
  - destruct w as [[cur tot tempo pq spt] [sy nc tc pl ct ls] pls ci ip ap lo su ra pt pe].
    destruct sy, nc, tc, ra, pt; exec; cbn [app];
      (split; [apply precedes_head; discriminate|intros _; in_trace]).
Qed.

(** C3. Whenever [playTrack] calls [play()] on the adapter, it has called
    [seek(currentTick)] before, with the tick the timing state holds; and
    the play operation ([togglePlayPause] while not playing), when no
    track is selected and the playlist is not empty, loads the track at
    index 0 first and then plays it, seeking to the tick held after the
    load. *)
Theorem play_seeks_then_plays (r : Replies) (w : World) :
  precedes (CallSeek (VNum (num (currentTick (timing w))))) CallPlay
           (events (playTrack w))
  /\ (0 <= currentIndex w -> In CallPlay (events (playTrack w)))
  /\ (isPlaying w = false -> currentIndex w = -1 ->
      forall item rest, playlist w = item :: rest ->
      let o := loadTrack 0 r w in
      togglePlayPause r w
      = mkOutcome (Normal tt) (world (playTrack (world o)))
                  (events o ++ events (playTrack (world o)))
      /\ currentIndex (world o) = 0
      /\ ~ In CallPlay (events o)
      /\ In CallPlay (events (togglePlayPause r w))
      /\ precedes (CallSeek (VNum (num (currentTick (timing (world o))))))
                  CallPlay (events (togglePlayPause r w))
      /\ (synth (player w) = true ->
          In (CallLoadMIDI (item_bytes item)) (events o)
          /\ precedes (CallLoadMIDI (item_bytes item)) CallPlay
                      (events (togglePlayPause r w)))).
Proof.
  destruct (playTrack_seeks_first w) as [Hseek Hplay].
  split; [exact Hseek|]. split; [exact Hplay|].
  intros Hip Hidx item rest Hpl o.
  assert (Ho : o = loadTrack 0 r w) by reflexivity.
  clearbody o.
  assert (Hnth : nth_error (playlist w) (Z.to_nat 0) = Some item)
    by (rewrite Hpl; reflexivity).
  assert (Hload : currentIndex (world o) = 0 /\ ~ In CallPlay (events o)
                  /\ result o = Normal tt
                  /\ (synth (player w) = true ->
                      In (CallLoadMIDI (item_bytes item)) (events o))).
  { rewrite Ho. destruct (synth (player w)) eqn:Hs.
    - destruct (loadTrack_ready 0 r w item Hs ltac:(lia) Hnth)
        as (tm' & ct' & ls' & su' & evs & E & Hin & Hno & _).
      rewrite E. simpl. auto.
    - rewrite (loadTrack_not_ready 0 r w item Hs ltac:(lia) Hnth). simpl.
      repeat split; try discriminate.
      intros [H|[H|[]]]; discriminate H. }
  destruct Hload as (Hci & Hno & Hres & Hin).
  assert (E : togglePlayPause r w
              = mkOutcome (Normal tt) (world (playTrack (world o)))
                          (events o ++ events (playTrack (world o)))).
  { unfold togglePlayPause. rewrite bind_gets, Hip, !bind_gets, Hidx.
    assert (Hlen : (0 <? getTrackCount w) = true).
    { unfold getTrackCount. rewrite Hpl. reflexivity. }
    rewrite Z.eqb_refl, Hlen. cbn [andb when]. unfold bind at 1. rewrite <- Ho.
    unfold detached, try_.
    destruct o as [ro wo eo]. simpl in Hres. subst ro. simpl.
    now destruct (playTrack wo). }
  destruct (playTrack_seeks_first (world o)) as [Hseek' Hplay'].
  split; [exact E|]. split; [exact Hci|]. split; [exact Hno|].
  rewrite E. cbn [events].
  split; [apply in_or_app; right; apply Hplay'; lia|].
  split; [now apply precedes_app|].
  intros Hs. split; [now apply Hin|].
  now apply precedes_after; [apply Hin|].
Qed.

(** Pressing play on a fresh page with one entry in the playlist. *)
Lemma play_seeks_then_plays_witness :
  In CallPlay (events (playTrack (set_currentIndex 0 (initial_world [sample_item]))))
  /\ precedes (CallLoadMIDI sample_smf) CallPlay
       (events (togglePlayPause quiet (initial_world [sample_item]))).
Proof.
  split.
  - apply (proj1 (proj2
      (play_seeks_then_plays quiet (set_currentIndex 0 (initial_world [sample_item]))))).
    simpl. lia.
  - apply (proj2 (proj2
      (play_seeks_then_plays quiet (initial_world [sample_item])))
      eq_refl eq_refl sample_item [] eq_refl).
    reflexivity.
Defined.

(* ===================================================================== *)
(** ** The low-power timer *)
(* ===================================================================== *)

(** C4, as stated, fails.  After a pause and the timer, the page is in low
    power with the output disconnected; [playTrack] then sends the play
    command first, and reconnects the output and clears the timer only
    afterwards. *)
Lemma wake_comes_after_play :
  let paused := world (run [OpToggle quiet; OpPause quiet] (initial_world [sample_item])) in
  let idle := world (timerFires paused) in
  pendingTimeout paused = Some 30000
  /\ nodeConnected (player idle) = false
  /\ events (playTrack idle)
     = [CallSeek (VNum (num 0)); SeekPlayer (num 0); CallPlay; CtxResume; PlayPlayer;
        CallSetAudioState playing_state; CtxResume; NodeConnect; TickConnect;
        RequestAnimationFrame; ClearTimeout; CallSetAudioState wakeUp_state; CtxResume]
  /\ ~ precedes ClearTimeout PlayPlayer (events (playTrack idle))
  /\ ~ precedes NodeConnect PlayPlayer (events (playTrack idle)).
Proof.
  intros paused idle.
  assert (E : events (playTrack idle)
     = [CallSeek (VNum (num 0)); SeekPlayer (num 0); CallPlay; CtxResume; PlayPlayer;
        CallSetAudioState playing_state; CtxResume; NodeConnect; TickConnect;
        RequestAnimationFrame; ClearTimeout; CallSetAudioState wakeUp_state; CtxResume])
    by (vm_compute; reflexivity).
  split; [vm_compute; reflexivity|].
  split; [vm_compute; reflexivity|].
  split; [exact E|].
  rewrite E.
  split; intros H;
    specialize (H [CallSeek (VNum (num 0)); SeekPlayer (num 0); CallPlay; CtxResume]
                  [CallSetAudioState playing_state; CtxResume; NodeConnect; TickConnect;
                   RequestAnimationFrame; ClearTimeout; CallSetAudioState wakeUp_state;
                   CtxResume]
                  eq_refl);
    simpl in H; intuition discriminate.
Qed.

(** C4, amended.  Entering Paused arms a timer of 30000 ms and leaves the
    output connected; when the timer fires and the transport is still not
    playing, the heartbeat and the output are disconnected and the audio
    context is suspended; a transition to Playing resumes the audio
    context and sends the play command, and after that, in the same
    synchronous run, reconnects output and heartbeat and clears the
    timer. *)
Theorem low_power_timer_policy (r : Replies) (w : World) :
  PAUSE_LOW_POWER_MS = 30000
  /\ (synth (player w) = true ->
      let o := pauseTrack r w in
      isPlaying (world o) = false
      /\ pendingTimeout (world o) = Some PAUSE_LOW_POWER_MS
      /\ pauseLowPowerTimer (world o) = true
      /\ In (SetTimeout PAUSE_LOW_POWER_MS) (events o)
      /\ nodeConnected (player (world o)) = nodeConnected (player w)
      /\ tickConnected (player (world o)) = false
      /\ ~ In NodeDisconnect (events o)
      /\ ~ In CtxSuspendAfterDrain (events o))
  /\ (synth (player w) = true ->
      forall delay, pendingTimeout w = Some delay ->
      let o := timerFires w in
      pendingTimeout (world o) = None
      /\ (isPlaying w = true -> events o = [] /\ player (world o) = player w)
      /\ (isPlaying w = false ->
          tickConnected (player (world o)) = false
          /\ nodeConnected (player (world o)) = false
          /\ In (CallSetAudioState lowPower_state) (events o)
          /\ In CtxSuspendAfterDrain (events o)))
  /\ (synth (player w) = true -> 0 <= currentIndex w ->
      let o := playTrack w in
      isPlaying (world o) = true
      /\ pauseLowPowerTimer (world o) = false
      /\ (pauseLowPowerTimer w = true ->
          pendingTimeout (world o) = None /\ In ClearTimeout (events o))
      /\ nodeConnected (player (world o)) = true
      /\ tickConnected (player (world o)) = true
      /\ In PlayPlayer (events o)
      /\ precedes CtxResume PlayPlayer (events o)
      /\ precedes PlayPlayer ClearTimeout (events o)
      /\ precedes PlayPlayer NodeConnect (events o)
      /\ precedes PlayPlayer TickConnect (events o)).
Proof.
  split; [reflexivity|]. split; [|split].
  - intros Hs o.
    destruct (pauseTrack_ready r w Hs)
      as (tm' & su' & evs & E & _ & Harm & Hnode & Hsus & _).
    subst o. rewrite E. simpl. repeat split; assumption.
  - intros Hs delay Hp o. subst o.
    rewrite (timerFires_lowPower w delay Hs Hp).
    destruct (isPlaying w).
    + repeat split; try discriminate.
    + split; [reflexivity|]. split; [discriminate|]. intros _.
      repeat split.
      * now left.
      * destruct (tickConnected (player w)), (nodeConnected (player w)); in_trace.
  - intros Hs Hidx o. subst o. rewrite (playTrack_ready w Hs Hidx). cbn [world events player
      isPlaying pauseLowPowerTimer pendingTimeout nodeConnected tickConnected].
    split; [reflexivity|]. split; [reflexivity|].
    split.
    { intros ->. split; [reflexivity|].
      destruct (nodeConnected (player w)), (tickConnected (player w)), (rafId w);
        in_trace. }
    split; [reflexivity|]. split; [reflexivity|].
    split; [in_trace|].
    cbn [app].
    repeat split; auto 8 with trace.
Qed.

(** Pause, let the timer fire, play again. *)
Lemma low_power_timer_policy_witness :
  let playing := world (togglePlayPause quiet (initial_world [sample_item])) in
  let paused := world (pauseTrack quiet playing) in
  let idle := world (timerFires paused) in
  pendingTimeout paused = Some PAUSE_LOW_POWER_MS
  /\ pendingTimeout idle = None
  /\ precedes PlayPlayer ClearTimeout (events (playTrack idle)).
Proof.
  intros playing paused idle.
  split; [|split].
  - apply (proj1 (proj2 (proj1 (proj2 (low_power_timer_policy quiet playing)) eq_refl))).
  - apply (proj1 (proj1 (proj2 (proj2 (low_power_timer_policy quiet paused)))
                   eq_refl PAUSE_LOW_POWER_MS eq_refl)).
  - apply (proj1 (proj2 (proj2 (proj2 (proj2 (proj2 (proj2 (proj2
             (proj2 (proj2 (proj2 (low_power_timer_policy quiet idle)))
                eq_refl ltac:(vm_compute; discriminate)))))))))).
Defined.

(* ===================================================================== *)
(** ** Properties of formatTimeStr *)
(* ===================================================================== *)

Lemma padStart_two_digits (m : Z) :
  0 <= m < 60 -> padStart 2 "0" (String_of m) = two_digits m.
Proof.
  intros Hm.
  rewrite <- (Z2Nat.id m) by lia.
  assert (Hn : (Z.to_nat m < 60)%nat) by lia.
  revert Hn. generalize (Z.to_nat m). clear m Hm. intros n Hn.
  do 60 (destruct n as [|n]; [reflexivity|]).
  lia.
Qed.

Lemma Qfloor_ge_Z (z : Z) (q : Q) : Qle_bool (inject_Z z) q = true -> z <= Qfloor q.
Proof.
  intros H. apply Qle_bool_iff in H.
  rewrite <- (Qfloor_Z z). now apply Qfloor_resp_le.
Qed.

Lemma Qfloor_lt_Z (z : Z) (q : Q) : Qle_bool (inject_Z z) q = false -> Qfloor q < z.
Proof.
  intros H.
  assert (Hlt : (q < inject_Z z)%Q).
  { apply Qnot_le_lt. intros Hle. apply Qle_bool_iff in Hle. congruence. }
  destruct (Z_lt_le_dec (Qfloor q) z) as [|Hge]; [assumption|exfalso].
  apply (Qlt_irrefl q).
  eapply Qlt_le_trans; [exact Hlt|].
  eapply Qle_trans; [|apply Qfloor_le].
  rewrite <- Zle_Qle. exact Hge.
Qed.

Lemma js_div_whole (n : Z) (p : positive) :
  js_div (num n) (Zpos p) = nearest_double (n # p).
Proof.
  unfold js_div, num, Qdiv, Qinv, Qmult, inject_Z. cbn [Qnum Qden].
  now rewrite Z.mul_1_r.
Qed.

Lemma js_lt_whole (a b : Z) : js_lt (num a) (num b) = (a <? b).
Proof.
  unfold js_lt, num, Qle_bool, inject_Z. cbn [Qnum Qden].
  rewrite !Z.mul_1_r. symmetry. apply Z.ltb_antisym.
Qed.

Lemma String_of_number_small (z : Z) :
  z < 2 ^ 53 -> String_of_number (num z) = String_of z.
Proof.
  intros Hz. unfold String_of_number, num, Number_toString.
  rewrite Qfloor_Z. apply Z.ltb_lt in Hz. now rewrite Hz.
Qed.

(** Below 2^53 seconds the hours come out of the division as they are. *)
Lemma hours_exact (s : Z) :
  0 <= s < 2 ^ 53 -> Math_floor (js_div (num s) 3600) = num (s / 3600).
Proof.
  intros Hs. rewrite js_div_whole.
  destruct (floor_nearest_double s 3600 42) as (x & E & Hx);
    [lia|lia| | |].
  - change (2 ^ 53) with 9007199254740992 in Hs.
    change (2 ^ 42) with 4398046511104. lia.
  - change (2 ^ (53 - 42)) with 2048. lia.
  - rewrite E. cbn [Math_floor]. now rewrite Hx.
Qed.

Lemma minutes_exact (r : Z) :
  0 <= r < 3600 -> Math_floor (js_div (num r) 60) = num (r / 60).
Proof.
  intros Hr. rewrite js_div_whole.
  destruct (floor_nearest_double r 60 6) as (x & E & Hx);
    [lia|lia| | |].
  - change (2 ^ 6) with 64. lia.
  - change (2 ^ (53 - 6)) with 140737488355328. lia.
  - rewrite E. cbn [Math_floor]. now rewrite Hx.
Qed.

(** From one hour on, the hours are above 0 whatever the rounding. *)
Lemma hours_positive (s : Z) :
  3600 <= s -> js_lt (num 0) (Math_floor (js_div (num s) 3600)) = true.
Proof.
  intros Hs. rewrite js_div_whole.
  pose proof (nearest_double_at_least_one s 3600 Hs) as H.
  destruct (nearest_double (s # 3600)) as [x| | |]; try contradiction.
  - cbn [Math_floor]. rewrite js_lt_whole. apply Z.ltb_lt. lia.
  - reflexivity.
Qed.

Lemma minutes_and_seconds (s : Z) :
  0 <= s ->
  padStart 2 "0" (String_of_number (Math_floor (js_div (num (js_rem s 3600)) 60)))
  = two_digits ((s mod 3600) / 60)
  /\ padStart 2 "0" (String_of_number (num (js_rem s 60))) = two_digits (s mod 60).
Proof.
  intros Hs. unfold js_rem. rewrite !Z.rem_mod_nonneg by lia.
  pose proof (Z.mod_pos_bound s 3600 ltac:(lia)) as Hm.
  pose proof (Z.mod_pos_bound s 60 ltac:(lia)) as Hsec.
  assert (Hq : 0 <= (s mod 3600) / 60 < 60)
    by (split; [apply Z.div_pos; lia | apply Z.div_lt_upper_bound; lia]).
  rewrite minutes_exact by exact Hm.
  assert (H53 : 60 < 2 ^ 53) by reflexivity.
  rewrite !String_of_number_small by lia.
  now rewrite !padStart_two_digits.
Qed.

(** What [formatTimeStr] returns for a finite number, whatever its size:
    the minutes and the seconds are never rounded; the hours are the
    whole part of the rounded quotient, printed as [String] prints them. *)
Lemma formatTimeStr_finite (q : Q) :
  let s := Z.max 0 (Qfloor q) in
  formatTimeStr (VNum (Fin q))
  = if 3600 <=? s
    then (String_of_number (Math_floor (js_div (num s) 3600))
            ++ ":" ++ two_digits ((s mod 3600) / 60)
            ++ ":" ++ two_digits (s mod 60))%string
    else (two_digits (s / 60) ++ ":" ++ two_digits (s mod 60))%string.
Proof.
  intros s. unfold formatTimeStr. fold s.
  assert (Hs : 0 <= s) by (unfold s; lia).
  destruct (minutes_and_seconds s Hs) as [Em Es]. rewrite Em, Es.
  destruct (Z.leb_spec 3600 s) as [Hh|Hh].
  - now rewrite hours_positive.
  - rewrite hours_exact
      by (split; [lia|]; change (2 ^ 53) with 9007199254740992; lia).
    rewrite (Z.div_small s 3600) by lia.
    rewrite (Z.mod_small s 3600) by lia. reflexivity.
Qed.

(** C5. [formatTimeStr] follows the formatting rule.  For every input
    whose whole seconds are below 2^53 it returns what the rule says:
    hours (unpadded), two-digit minutes and two-digit seconds from one
    hour on, two-digit minutes and seconds below, and "00:00" for a
    negative, non-finite or non-numeric input.  For every finite input,
    of any size, it returns two-digit minutes and seconds, which are never
    rounded, with the hours in front from one hour on; these are the whole
    part of the quotient by 3600 as the division rounds it, printed as
    [String] prints a number.  In particular 3661 gives "1:01:01", 59
    gives "00:59", -5 gives "00:00" and NaN gives "00:00". *)
Theorem formatTimeStr_rule :
  (forall seconds : jsval,
     whole_seconds_exact seconds -> formatTimeStr seconds = formatTime_spec seconds)
  /\ (forall q : Q,
        let s := Z.max 0 (Qfloor q) in
        formatTimeStr (VNum (Fin q))
        = if 3600 <=? s
          then (String_of_number (Math_floor (js_div (num s) 3600))
                  ++ ":" ++ two_digits ((s mod 3600) / 60)
                  ++ ":" ++ two_digits (s mod 60))%string
          else (two_digits (s / 60) ++ ":" ++ two_digits (s mod 60))%string)
  /\ (forall seconds : jsval,
        is_number seconds && isFinite (Number seconds) = false ->
        formatTimeStr seconds = "00:00"%string)
  /\ formatTimeStr (VNum (num 3661)) = "1:01:01"%string
  /\ formatTimeStr (VNum (num 59)) = "00:59"%string
  /\ formatTimeStr (VNum (num (-5))) = "00:00"%string
  /\ formatTimeStr (VNum NaN) = "00:00"%string.
Proof.
  split; [|split; [exact formatTimeStr_finite|split; [|repeat split; reflexivity]]].
  - intros [[q| | | ]|n] Hq; try reflexivity.
    cbn [whole_seconds_exact] in Hq.
    rewrite formatTimeStr_finite. unfold formatTime_spec.
    change 3600%Q with (inject_Z 3600). change 0%Q with (inject_Z 0).
    destruct (Qle_bool (inject_Z 3600) q) eqn:Hhour.
    + apply Qfloor_ge_Z in Hhour.
      rewrite Z.max_r by lia.
      destruct (Z.leb_spec 3600 (Qfloor q)); [|lia].
      rewrite hours_exact by lia.
      rewrite String_of_number_small; [reflexivity|].
      apply Z.le_lt_trans with (Qfloor q); [|exact Hq].
      apply Z.div_le_upper_bound; lia.
    + apply Qfloor_lt_Z in Hhour.
      destruct (Qle_bool (inject_Z 0) q) eqn:Hpos.
      * apply Qfloor_ge_Z in Hpos.
        rewrite Z.max_r by lia.
        destruct (Z.leb_spec 3600 (Qfloor q)); [lia|reflexivity].
      * apply Qfloor_lt_Z in Hpos.
        rewrite Z.max_l by lia. reflexivity.
  - intros [[q| | | ]|n] H; try reflexivity. discriminate H.
Qed.

(* ===================================================================== *)
(** ** Seeking by fraction *)
(* ===================================================================== *)

Lemma floor_of_fraction_bounds (value : Q) (total : Z) :
  0 < total ->
  (inject_Z (floor_of_fraction value total) / inject_Z total
     <= value / inject_Z SEEK_SLIDER_MAX)%Q
  /\ (value / inject_Z SEEK_SLIDER_MAX
     < (inject_Z (floor_of_fraction value total) + 1) / inject_Z total)%Q.
Proof.
  intros Ht. unfold floor_of_fraction.
  set (x := ((value / inject_Z SEEK_SLIDER_MAX) * inject_Z total)%Q).
  assert (HT : (0 < inject_Z total)%Q).
  { change 0%Q with (inject_Z 0). now rewrite <- Zlt_Qlt. }
  split.
  - apply Qle_shift_div_r; [exact HT|]. apply Qfloor_le.
  - apply Qlt_shift_div_l; [exact HT|].
    pose proof (Qlt_floor x) as H.
    rewrite inject_Z_plus in H. exact H.
Qed.

Lemma floor_of_fraction_whole (v total : Z) :
  floor_of_fraction (inject_Z v) total = v * total / 1000.
Proof.
  unfold floor_of_fraction, SEEK_SLIDER_MAX, Qdiv, Qinv, Qmult, inject_Z.
  cbn [Qnum Qden Qfloor]. now rewrite Z.mul_1_r.
Qed.

Lemma floor_of_fraction_quarters (total : Z) :
  floor_of_fraction 0 total = 0
  /\ floor_of_fraction 250 total = total / 4
  /\ floor_of_fraction 500 total = total / 2
  /\ floor_of_fraction 1000 total = total.
Proof.
  split; [reflexivity|]. split; [|split].
  - change (floor_of_fraction 250 total) with (250 * 1 * total / (250 * 4)).
    rewrite Z.mul_1_r. apply Z.div_mul_cancel_l; lia.
  - change (floor_of_fraction 500 total) with (500 * 1 * total / (500 * 2)).
    rewrite Z.mul_1_r. apply Z.div_mul_cancel_l; lia.
  - change (floor_of_fraction 1000 total) with (1000 * 1 * total / (1000 * 1)).
    rewrite !Z.mul_1_r, (Z.mul_comm 1000 total). apply Z.div_mul. lia.
Qed.

(** A fraction that is a double, times a tick count below 2^53 that makes
    the product a whole number of units [2^K]: nothing is rounded. *)
Lemma js_mul_exact (m : Z) (P : positive) (total K : Z) :
  0 < total < 2 ^ 53 -> -53 <= K <= 0 ->
  m * 2 ^ (- K) = Zpos P ->
  Math_floor (js_mul (Fin (m # P)) total) = num (m * total / Zpos P).
Proof.
  intros Ht HK E. unfold js_mul, Qmult, inject_Z. cbn [Qnum Qden].
  rewrite Pos.mul_1_r.
  destruct (nearest_double_exact (m * total) P total K Ht HK) as (q & Eq & Hq).
  { rewrite <- E. ring. }
  rewrite Eq. cbn [Math_floor]. now rewrite (Qfloor_comp _ _ Hq).
Qed.

(** At the fractions 0, 0.25, 0.5 and 1 the slider's target is the floor
    of the fraction of the total, as long as the total is below 2^53. *)
Lemma slider_target_quarters (total : Z) :
  0 < total < 2 ^ 53 ->
  slider_target 0 total = num 0
  /\ slider_target 250 total = num (total / 4)
  /\ slider_target 500 total = num (total / 2)
  /\ slider_target 1000 total = num total.
Proof.
  intros Ht. unfold slider_target, SEEK_SLIDER_MAX.
  split; [reflexivity|]. split; [|split].
  - change (js_div (Fin 250) 1000)
      with (Fin (2 ^ 52 # Z.to_pos (2 ^ 54))).
    rewrite (js_mul_exact _ _ total (-2) Ht); [|lia|reflexivity].
    f_equal. change (Zpos (Z.to_pos (2 ^ 54))) with (2 ^ 52 * 4).
    apply Z.div_mul_cancel_l; [lia|]. now apply Z.pow_nonzero.
  - change (js_div (Fin 500) 1000)
      with (Fin (2 ^ 52 # Z.to_pos (2 ^ 53))).
    rewrite (js_mul_exact _ _ total (-1) Ht); [|lia|reflexivity].
    f_equal. change (Zpos (Z.to_pos (2 ^ 53))) with (2 ^ 52 * 2).
    apply Z.div_mul_cancel_l; [lia|]. now apply Z.pow_nonzero.
  - change (js_div (Fin 1000) 1000)
      with (Fin (2 ^ 52 # Z.to_pos (2 ^ 52))).
    rewrite (js_mul_exact _ _ total 0 Ht); [|lia|reflexivity].
    f_equal. change (Zpos (Z.to_pos (2 ^ 52))) with (2 ^ 52).
    rewrite Z.mul_comm. apply Z.div_mul. now apply Z.pow_nonzero.
Qed.

(** On the whole positions of the slider, with fewer than 2^40 ticks, the
    two roundings move the product by less than a thousandth of a tick:
    the target is the floor of the exact product, or one less, and one
    less only where the exact product is a whole number. *)
Lemma slider_target_whole_positions (v total : Z) :
  0 <= v <= SEEK_SLIDER_MAX -> 0 < total < 2 ^ 40 ->
  exists t,
    slider_target (inject_Z v) total = num t
    /\ floor_of_fraction (inject_Z v) total - 1 <= t
         <= floor_of_fraction (inject_Z v) total
    /\ ((v * total) mod 1000 <> 0 -> t = floor_of_fraction (inject_Z v) total).
Proof.
  unfold SEEK_SLIDER_MAX. intros Hv Ht. rewrite floor_of_fraction_whole.
  unfold slider_target, SEEK_SLIDER_MAX.
  change (Fin (inject_Z v)) with (num v). rewrite js_div_whole.
  destruct (Z.eq_dec v 0) as [->|Hv0].
  { exists 0. split; [reflexivity|]. cbn. split; [lia|reflexivity]. }
  destruct (nearest_double_fine v 1000 1) as (m1 & P1 & E1 & HP1 & Herr1);
    [lia|lia|change (2 ^ 1) with 2; lia|].
  rewrite E1. change (2 ^ (53 - 1)) with 4503599627370496 in HP1.
  change (2 ^ 40) with 1099511627776 in Ht.
  assert (HvP : Zpos P1 <= v * Zpos P1 <= 1000 * Zpos P1) by nia.
  assert (Hm1 : 0 < m1 <= Zpos P1) by lia.
  unfold js_mul, Qmult, inject_Z. cbn [Qnum Qden]. rewrite Pos.mul_1_r.
  destruct (nearest_double_fine (m1 * total) P1 40) as (m2 & P2 & E2 & HP2 & Herr2);
    [nia|lia|change (2 ^ 40) with 1099511627776; nia|].
  rewrite E2. change (2 ^ (53 - 40)) with 8192 in HP2.
  cbn [Math_floor Qfloor].
  exists (m2 / Zpos P2). split; [reflexivity|].
  set (p1 := Zpos P1) in *. set (p2 := Zpos P2) in *.
  pose proof (Z.div_mod (v * total) 1000 ltac:(lia)) as Ediv.
  pose proof (Z.mod_pos_bound (v * total) 1000 ltac:(lia)) as Hr.
  set (F := v * total / 1000) in *. set (r := (v * total) mod 1000) in *.
  assert (Hp1 : 0 < p1) by (unfold p1; lia).
  assert (Hp2 : 0 < p2) by (unfold p2; lia).
  assert (Hclose : Z.abs (1000 * m2 - v * total * p2) < p2).
  { assert (H1 : Z.abs (1000 * (m2 * p1 - m1 * total * p2)) <= 500 * p1) by lia.
    assert (H2 : Z.abs (total * p2 * (1000 * m1 - v * p1)) <= 500 * (total * p2)).
    { rewrite Z.abs_mul. rewrite (Z.abs_eq (total * p2)) by (apply Z.mul_nonneg_nonneg; lia).
      rewrite (Z.mul_comm 500).
      apply Z.mul_le_mono_nonneg_l; [apply Z.mul_nonneg_nonneg; lia|lia]. }
    assert (A1 : 2000 * p1 <= p2 * p1)
      by (apply Z.mul_le_mono_nonneg_r; lia).
    assert (A2 : 2000 * total * p2 <= p1 * p2)
      by (apply Z.mul_le_mono_nonneg_r; lia).
    assert (A3 : 0 < p1 * p2) by (apply Z.mul_pos_pos; lia).
    assert (H3 : 500 * p1 + 500 * (total * p2) < p1 * p2) by lia.
    assert (H4 : (1000 * m2 - v * total * p2) * p1
                 = 1000 * (m2 * p1 - m1 * total * p2)
                   + total * p2 * (1000 * m1 - v * p1)) by ring.
    assert (H5 : Z.abs (1000 * m2 - v * total * p2) * p1 < p2 * p1).
    { rewrite <- (Z.abs_eq p1) at 1 by lia. rewrite <- Z.abs_mul, H4. lia. }
    exact (proj2 (Z.mul_lt_mono_pos_r p1 _ _ Hp1) H5). }
  assert (Evt : v * total * p2 = 1000 * (F * p2) + r * p2) by (rewrite Ediv; ring).
  rewrite Evt in Hclose.
  assert (Hrp : 0 <= r * p2 <= 999 * p2)
    by (split; [apply Z.mul_nonneg_nonneg|apply Z.mul_le_mono_nonneg_r]; lia).
  assert (Hlow : (F - 1) * p2 <= m2) by lia.
  assert (Hup : m2 < (F + 1) * p2) by lia.
  split; [split|].
  - apply Z.div_le_lower_bound; lia.
  - assert (m2 / p2 < F + 1); [|lia].
    apply Z.div_lt_upper_bound; lia.
  - intros Hr0.
    assert (1 * p2 <= r * p2) by (apply Z.mul_le_mono_nonneg_r; lia).
    assert (F * p2 <= m2) by lia.
    assert (F <= m2 / p2) by (apply Z.div_le_lower_bound; lia).
    assert (m2 / p2 < F + 1) by (apply Z.div_lt_upper_bound; lia).
    lia.
Qed.

(** C6. The seek slider acts only when [totalTicks > 0]; it then sets
    [currentTick] to [floor(fraction * totalTicks)], the quotient and the
    product taken as [/] and [*] take them, at once, whatever the
    transport mode, and forwards that tick to the adapter; for the
    fractions 0, 0.25, 0.5 and 1 (the slider at 0, 250, 500 and 1000) and
    a total below 2^53 nothing is rounded, the tick is the floor of the
    exact product, and the position read back,
    [currentTick / totalTicks], is within one tick of the fraction asked
    for. *)
Theorem seek_sets_floor_of_fraction (value : Q) (r : Replies) (w : World) :
  let total := totalTicks (timing w) in
  let target := slider_target value total in
  let o := seekInput_begin value w in
  (total <= 0 -> o = mkOutcome (Normal false) w []
                 /\ seekInput value r w = mkOutcome (Normal tt) w [])
  /\ (0 < total ->
      result o = Normal true
      /\ currentTick (timing (world o)) = ticks_of target
      /\ totalTicks (timing (world o)) = total
      /\ isPlaying (world o) = isPlaying w
      /\ events o = CallSeek (VNum target)
                    :: (if synth (player w)
                        then [SeekPlayer (seek_target (VNum target))] else [])
      /\ (isPlaying w = false ->
          currentTick (timing (world (seekInput value r w))) = ticks_of target))
  /\ (0 < total < 2 ^ 53 ->
      In value [0; 250; 500; 1000]%Q ->
      target = num (floor_of_fraction value total)
      /\ (inject_Z (ticks_of target) / inject_Z total
            <= value / inject_Z SEEK_SLIDER_MAX)%Q
      /\ (value / inject_Z SEEK_SLIDER_MAX
            < (inject_Z (ticks_of target) + 1) / inject_Z total)%Q)
  /\ (0 < total < 2 ^ 53 ->
      slider_target 0 total = num 0
      /\ slider_target 250 total = num (total / 4)
      /\ slider_target 500 total = num (total / 2)
      /\ slider_target 1000 total = num total).
Proof.
  intros total target o.
  split; [|split; [|split; [|apply slider_target_quarters]]].
  - intros Hle.
    assert (Eo : o = mkOutcome (Normal false) w []).
    { subst o. unfold seekInput_begin, the_timing. rewrite bind_gets. fold total.
      destruct (Z.ltb_spec 0 total); [lia|reflexivity]. }
    split; [exact Eo|].
    unfold seekInput, try_, bind. fold o. rewrite Eo. reflexivity.
  - intros Hpos.
    assert (Eo : o = mkOutcome (Normal true)
                   (upd_player
                      (fun p => if synth p
                                then set_currentTime
                                       (if strict_eq (seek_target (VNum target)) (num 0)
                                        then 0 else currentTime p) p
                                else p)
                      (upd_timing (set_currentTick (ticks_of target)) w))
                   (CallSeek (VNum target)
                    :: (if synth (player w)
                        then [SeekPlayer (seek_target (VNum target))] else []))).
    { subst o. unfold seekInput_begin, the_timing. rewrite bind_gets. fold total.
      destruct (Z.ltb_spec 0 total); [|lia]. fold target.
      generalize target. intros tg.
      destruct w as [[cur tot tempo pq spt] [sy nc tc pl ct ls] pls ci ip ap lo su ra pt pe].
      destruct sy; exec; reflexivity. }
    repeat split; try (rewrite Eo; reflexivity).
    intros Hnp. unfold seekInput, try_, bind. fold o. rewrite Eo.
    cbv iota beta. unfold when, detached, try_.
    match goal with
    | |- context [updateTimeline r ?W] =>
        destruct (updateTimeline_frame r W)
          as (tm' & su' & qs & E & _ & _ & _ & Hkeep); rewrite E
    end.
    simpl. now destruct (Hkeep Hnp).
  - intros Ht Hin.
    destruct (slider_target_quarters total Ht) as (E0 & E1 & E2 & E3).
    destruct (floor_of_fraction_quarters total) as (F0 & F1 & F2 & F3).
    assert (Et : target = num (floor_of_fraction value total)).
    { unfold target.
      destruct Hin as [<-|[<-|[<-|[<-|[]]]]]; congruence. }
    split; [exact Et|].
    rewrite Et. unfold ticks_of, num. rewrite Qfloor_Z.
    apply floor_of_fraction_bounds. lia.
Qed.

(** The slider at its middle on a track of 960 ticks, transport paused;
    and the slider moved before any track is loaded. *)
Lemma seek_sets_floor_of_fraction_witness :
  currentTick (timing (world (seekInput 500 quiet
    (upd_timing (updateFromSynth (Some 960) None) (initial_world [sample_item])))))
  = 480
  /\ seekInput_begin 500 (initial_world [sample_item])
     = mkOutcome (Normal false) (initial_world [sample_item]) [].
Proof.
  split.
  - destruct (seek_sets_floor_of_fraction 500 quiet
               (upd_timing (updateFromSynth (Some 960) None)
                  (initial_world [sample_item])))
      as [_ [H _]].
    destruct (H eq_refl) as (_ & _ & _ & _ & _ & Hpaused).
    rewrite Hpaused; reflexivity.
  - destruct (seek_sets_floor_of_fraction 500 quiet (initial_world [sample_item]))
      as [H _].
    apply H. discriminate.
Defined.

(* ===================================================================== *)
(** ** The adapter: tick, length and tempo getters *)
(* ===================================================================== *)

(** C7, as stated, fails: after a query that succeeded with 1000 (and a
    tempo query that succeeded with 400000), a failing query returns the
    fixed default 0 (500000), not the last value known to be good. *)
Lemma getters_forget_last_good :
  poll_total [Normal 1000; Thrown] (initial_world []) = [Normal 1000; Normal 0]
  /\ last_known_good [Normal 1000] 0 = 1000
  /\ result (getMidiTempoUsPerQuarter Thrown
               (world (getMidiTempoUsPerQuarter (Normal 400000) (initial_world []))))
     = Normal 500000.
Proof. repeat split. Qed.

(** C7, amended.  [getTotalTicks], [getCurrentTick] and
    [getMidiTempoUsPerQuarter] never throw: each returns the answer of the
    synthesizer when the query succeeds, and a fixed default (0, 0 and
    500000) when there is no synthesizer or the query fails. *)
Theorem getters_never_throw (reply : completion Z) (w : World) :
  result (getTotalTicks reply w)
    = Normal (getter_value (synth (player w)) reply 0)
  /\ result (getCurrentTick reply w)
    = Normal (getter_value (synth (player w)) reply 0)
  /\ result (getMidiTempoUsPerQuarter reply w)
    = Normal (getter_value (synth (player w)) reply 500000)
  /\ world (getTotalTicks reply w) = w
  /\ world (getCurrentTick reply w) = w
  /\ world (getMidiTempoUsPerQuarter reply w) = w.
Proof.
  unfold getTotalTicks, getCurrentTick, getMidiTempoUsPerQuarter,
    try_catch, synth_query, bind, the_synth, gets, answer. simpl.
  destruct (synth (player w)), reply; simpl; repeat split.
Qed.

(** The later adapter has the same fixed defaults, and also returns them
    for an answer of 0. *)
Lemma getters_v2_never_throw (reply : completion Z) (w : World) :
  result (getTotalTicks_v2 reply w)
    = Normal (getter_value (synth (player w)) reply 0)
  /\ result (getCurrentTick_v2 reply w)
    = Normal (getter_value (synth (player w)) reply 0)
  /\ result (getMidiTempoUsPerQuarter_v2 reply w)
    = Normal (match getter_value (synth (player w)) reply 500000 with
              | 0 => 500000
              | v => v
              end).
Proof.
  unfold getTotalTicks_v2, getCurrentTick_v2, getMidiTempoUsPerQuarter_v2,
    _safeSynthQuery, try_catch, or_default, bind, the_synth, gets, answer.
  simpl.
  destruct (synth (player w)), reply as [[|v|v]|]; simpl; repeat split.
Qed.

(** C8. The resolution is read as the big-endian 16-bit field at byte
    offset 12.  Whatever the file, parsing does not throw; a header whose
    magic value does not match, whose field has bit 15 set, or that is too
    short leaves the resolution as it is, a field that is not > 0 sets it
    to the default 480, and a field > 0 with bit 15 clear becomes the
    resolution.  [loadTrack] never throws to its caller, and with the
    adapter initialised it hands the bytes to the synthesizer whatever the
    header says, the resolution being the default 480 unless the header
    gave a valid one. *)
Theorem header_resolution_fallback
    (index : Z) (r : Replies) (w : World) (item : PlaylistItem) :
  parsePpqFromSmfHeader (item_bytes item) w
    = mkOutcome (Normal tt) (apply_verdict (header_verdict (item_bytes item)) w) []
  /\ (magic_matches (item_bytes item) = false ->
      header_verdict (item_bytes item) = KeepCurrent)
  /\ (forall u, u16_at (item_bytes item) 12 = Some u -> Z.testbit u 15 = true ->
      header_verdict (item_bytes item) = KeepCurrent)
  /\ (forall u, u16_at (item_bytes item) 12 = Some u -> u <= 0 ->
      forall v, header_verdict (item_bytes item) <> UseResolution v)
  /\ (forall u, magic_matches (item_bytes item) = true ->
      u16_at (item_bytes item) 12 = Some u -> Z.testbit u 15 = false -> 0 < u ->
      header_verdict (item_bytes item) = UseResolution u)
  /\ DEFAULT_PPQ = 480
  /\ result (loadTrack index r w) = Normal tt
  /\ (synth (player w) = true -> 0 <= index ->
      nth_error (playlist w) (Z.to_nat index) = Some item ->
      In (CallLoadMIDI (item_bytes item)) (events (loadTrack index r w))
      /\ match header_verdict (item_bytes item) with
         | UseResolution _ => True
         | _ => ppq (timing (world (loadTrack index r w))) = DEFAULT_PPQ
         end).
Proof.
  split; [apply parsePpqFromSmfHeader_verdict|].
  split; [unfold header_verdict; now intros ->|].
  split.
  { intros u Hu Hbit. unfold header_verdict. rewrite Hu, Hbit.
    now destruct (magic_matches (item_bytes item)). }
  split.
  { intros u Hu Hle v. unfold header_verdict. rewrite Hu.
    destruct (magic_matches (item_bytes item)); [|discriminate].
    destruct (Z.testbit u 15); [discriminate|].
    destruct (Z.ltb_spec 0 u); [lia|discriminate]. }
  split.
  { intros u Hm Hu Hbit Hpos. unfold header_verdict. rewrite Hm, Hu, Hbit.
    destruct (Z.ltb_spec 0 u); [reflexivity|lia]. }
  split; [reflexivity|].
  split; [apply loadTrack_never_throws|].
  intros Hs Hidx Hnth.
  destruct (loadTrack_ready index r w item Hs Hidx Hnth)
    as (tm' & ct' & ls' & su' & evs & E & Hin & _ & _ & Hppq & _).
  rewrite E. split; [exact Hin|exact Hppq].
Qed.

(** A file that does not start with the magic value is loaded with the
    default resolution; a header with bit 15 set in the field keeps the
    resolution; the sample header gives 96. *)
Lemma header_resolution_fallback_witness :
  (In (CallLoadMIDI [x00; x01; x02; x03])
      (events (loadTrack 0 quiet (initial_world [mkItem "noise" [x00; x01; x02; x03]])))
   /\ ppq (timing (world (loadTrack 0 quiet
                            (initial_world [mkItem "noise" [x00; x01; x02; x03]]))))
      = DEFAULT_PPQ)
  /\ header_verdict [x00; x01; x02; x03] = KeepCurrent
  /\ header_verdict
       [x4d; x54; x68; x64; x00; x00; x00; x06; x00; x00; x00; x01; xe2; x28]
     = KeepCurrent
  /\ header_verdict sample_smf = UseResolution 96.
Proof.
  split; [|split; [|split]].
  - apply (proj2 (proj2 (proj2 (proj2 (proj2 (proj2 (proj2
      (header_resolution_fallback 0 quiet
         (initial_world [mkItem "noise" [x00; x01; x02; x03]])
         (mkItem "noise" [x00; x01; x02; x03]))))))))).
    + reflexivity.
    + lia.
    + reflexivity.
  - apply (proj1 (proj2
      (header_resolution_fallback 0 quiet (initial_world [])
         (mkItem "noise" [x00; x01; x02; x03])))).
    reflexivity.
  - apply (proj1 (proj2 (proj2
      (header_resolution_fallback 0 quiet (initial_world [])
         (mkItem "smpte"
            [x4d; x54; x68; x64; x00; x00; x00; x06; x00; x00; x00; x01; xe2; x28]))))
      57896).
    + reflexivity.
    + reflexivity.
  - apply (proj1 (proj2 (proj2 (proj2 (proj2
      (header_resolution_fallback 0 quiet (initial_world [])
         (mkItem "demo.MID" sample_smf))))))
      96).
    + reflexivity.
    + reflexivity.
    + reflexivity.
    + lia.
Defined.

(* ===================================================================== *)
(** ** Answers that arrive after an await *)
(* ===================================================================== *)

(** C9: the code applies an answer that has become stale.  A frame of the
    UI loop on the last tick of a single track of 100 ticks, Loop off:
    the tick query of [updateTimeline] goes out, [checkForTrackEnd]
    declares the end and [onEnded] calls [stopTrack], and the frame
    returns.  [stopTrack] resets the playhead to 0; the answer of the
    query (100) arrives after that and is written to [currentTick]: the
    player is left stopped with its playhead at 100, whether the answer
    comes right after the first piece of [stopTrack], later, or after all
    of it.  The same end of track found by the heartbeat, where no query
    is in flight, leaves the playhead at 0.  With three entries and
    Autoplay, an answer that arrives while the next entry is loaded makes
    [playTrack] start that entry at tick 100. *)
Theorem stale_tick_applied_after_stop :
  let frame := fun turns => uiLoop (at_tick 100) true turns near_end in
  let next := uiLoop (at_tick 100) true [true; false] (playing_last_tick 3 1 false true) in
  result (updateTimeline_begin near_end) = Normal (Some true)
  /\ (forall turns, In turns [[true; false]; [true; true; true; false]; []] ->
      isPlaying (world (frame turns)) = false
      /\ rafId (world (frame turns)) = false
      /\ currentTick (timing (world (frame turns))) = 100)
  /\ currentTick (timing (world (heartbeat (at_tick 100) near_end))) = 0
  /\ isPlaying (world (heartbeat (at_tick 100) near_end)) = false
  /\ currentIndex (world next) = 2
  /\ isPlaying (world next) = true
  /\ In (CallSeek (VNum (num 100))) (events next)
  /\ ~ In (CallSeek (VNum (num 0))) (events next).
Proof.
  cbv zeta.
  split; [reflexivity|]. split.
  - intros turns [<-|[<-|[<-|[]]]]; vm_compute; repeat split.
  - split; [reflexivity|]. split; [reflexivity|].
    split; [reflexivity|]. split; [reflexivity|].
    split.
    + vm_compute. tauto.
    + vm_compute. intros H.
      repeat (destruct H as [H|H]; [discriminate H|]). exact H.
Qed.

(** [updateTimeline] checks the transport mode (and the one-shot
    suppression flag) before it sends the tick query; when the awaited
    answer arrives, a non-null answer is written to [currentTick]
    without looking at the mode or the position again, and a null answer
    leaves it as it is; [pauseTrack] stores the answer in the same way. *)
Lemma awaited_tick_stored_unchecked (sent : bool) (r : Replies) (w : World) :
  result (updateTimeline_begin w)
    = Normal (if isPlaying w
              then if suppressFirstSynthRead w then None else Some (synth (player w))
              else None)
  /\ currentTick (timing (world (updateTimeline_resume (Some sent) r w)))
     = match safeSynthCall_value sent (tickReply r) with
       | Some t => t
       | None => currentTick (timing w)
       end
  /\ isPlaying (world (updateTimeline_resume (Some sent) r w)) = isPlaying w
  /\ currentTick (timing (world (pauseTrack_resume sent r w)))
     = match safeSynthCall_value sent (tickReply r) with
       | Some t => t
       | None => currentTick (timing w)
       end.
Proof.
  destruct w as [[cur tot tempo pq spt] [sy nc tc pl ct ls] pls ci ip ap lo su ra pt pe].
  destruct r as [tk tt' tp la lt lp sp].
  split; [|split; [|split]].
  - unfold updateTimeline_begin. destruct ip, su, sy; exec; reflexivity.
  - unfold updateTimeline_resume.
    destruct sent, sy, tk as [tk|]; exec;
      (destruct (Z.eqb_spec tot 0); exec; reflexivity).
  - unfold updateTimeline_resume.
    destruct sent, sy, tk as [tk|]; exec;
      (destruct (Z.eqb_spec tot 0); exec; reflexivity).
  - unfold pauseTrack_resume.
    destruct sent, sy, tk as [tk|]; exec; try reflexivity;
      (use_timeline; destruct tc, ra, pt; exec; now destruct (Hnp eq_refl)).
Qed.

(* ===================================================================== *)
(** ** The adapter: seek *)
(* ===================================================================== *)

(** C10, as stated, fails at [+Infinity]: [seek(Infinity)] forwards
    [Infinity] to the synthesizer, which is not an integer. *)
Lemma seek_infinity_not_integer :
  events (seek (VNum PosInf) (initial_world [])) = [SeekPlayer PosInf]
  /\ ~ is_nonneg_integer PosInf.
Proof.
  split; [reflexivity|].
  intros [z [_ H]]. discriminate H.
Qed.

(** C10, amended.  [seek(x)] does nothing when there is no synthesizer;
    otherwise it forwards exactly [max(0, floor(Number(x) || 0))], resets
    the current-time mirror to 0 when that tick is 0 and leaves it as it
    was when not; the forwarded tick is a non-negative integer for every
    argument except one that converts to [+Infinity], for which it is
    [+Infinity]. *)
Theorem seek_forwards_clamped_floor (x : jsval) (w : World) :
  seek x w =
    (if synth (player w)
     then mkOutcome (Normal tt)
            (upd_player
               (set_currentTime
                  (if strict_eq (seek_target x) (num 0) then 0
                   else currentTime (player w))) w)
            [SeekPlayer (seek_target x)]
     else mkOutcome (Normal tt) w [])
  /\ seek_target x = forwarded_tick (Number x)
  /\ (is_nonneg_integer (seek_target x)
      \/ (Number x = PosInf /\ seek_target x = PosInf)).
Proof.
  split; [|split].
  - unfold seek, the_synth. rewrite bind_gets.
    destruct (synth (player w)); reflexivity.
  - apply seek_target_forwarded.
  - rewrite seek_target_forwarded.
    destruct (Number x) as [q| | |]; simpl.
    + left. exists (Z.max 0 (Qfloor q)). split; [lia|reflexivity].
    + left. exists 0. split; [lia|reflexivity].
    + right. split; reflexivity.
    + left. exists 0. split; [lia|reflexivity].
Qed.

(* ===================================================================== *)
(** ** Invariants carried through the script *)
(* ===================================================================== *)

Section Keeps.
Variable I : World -> list Event -> Prop.

Lemma keeps_ret {A} (a : A) : keeps I (ret a).
Proof. intros w h H. cbn. now rewrite app_nil_r. Qed.

Lemma keeps_throw {A} : keeps I (@throw A).
Proof. intros w h H. cbn. now rewrite app_nil_r. Qed.

Lemma keeps_gets {A} (f : World -> A) : keeps I (gets f).
Proof. intros w h H. cbn. now rewrite app_nil_r. Qed.

Lemma keeps_modify (f : World -> World) :
  (forall w h, I w h -> I (f w) h) -> keeps I (modify f).
Proof. intros Hf w h H. cbn. rewrite app_nil_r. now apply Hf. Qed.

Lemma keeps_emit (e : Event) :
  (forall w h, I w h -> I w (h ++ [e])) -> keeps I (emit e).
Proof. intros He w h H. cbn. now apply He. Qed.

Lemma keeps_bind {A B} (m : Act A) (k : A -> Act B) :
  keeps I m -> (forall a, keeps I (k a)) -> keeps I (bind m k).
Proof.
  intros Hm Hk w h H. unfold bind.
  specialize (Hm w h H).
  destruct (m w) as [[a|] w1 e1]; cbn in *; [|exact Hm].
  specialize (Hk a w1 (h ++ e1) Hm).
  destruct (k a w1) as [r w2 e2]; cbn in *.
  now rewrite app_assoc.
Qed.

Lemma keeps_try (c : Act unit) : keeps I c -> keeps I (try_ c).
Proof.
  intros Hc w h H. unfold try_. specialize (Hc w h H).
  now destruct (c w).
Qed.

Lemma keeps_try_catch {A} (c handler : Act A) :
  keeps I c -> keeps I handler -> keeps I (try_catch c handler).
Proof.
  intros Hc Hh w h H. unfold try_catch.
  specialize (Hc w h H).
  destruct (c w) as [[a|] w1 e1]; cbn in *; [exact Hc|].
  specialize (Hh w1 (h ++ e1) Hc).
  destruct (handler w1) as [r w2 e2]; cbn in *.
  now rewrite app_assoc.
Qed.

Lemma keeps_when (b : bool) (c : Act unit) : keeps I c -> keeps I (when b c).
Proof. intros Hc. destruct b; [exact Hc|apply keeps_ret]. Qed.

Lemma keeps_must {A} (o : option A) : keeps I (must o).
Proof. destruct o; [apply keeps_ret|apply keeps_throw]. Qed.

Lemma keeps_answer {A} (c : completion A) : keeps I (answer c).
Proof. destruct c; [apply keeps_ret|apply keeps_throw]. Qed.

Lemma yields_ret (t : Task) : task_keeps I t -> yields I (ret t).
Proof.
  intros Ht. split; [apply keeps_ret|].
  intros w rest E. cbn in E. now injection E as <-.
Qed.

Lemma yields_throw : yields I throw.
Proof. split; [apply keeps_throw|]. intros w rest E. discriminate E. Qed.

Lemma yields_bind {A} (m : Act A) (k : A -> Act Task) :
  keeps I m -> (forall a, yields I (k a)) -> yields I (bind m k).
Proof.
  intros Hm Hk. split.
  - apply keeps_bind; [exact Hm|]. intros a. apply Hk.
  - intros w rest. unfold bind.
    destruct (m w) as [[a|] w1 e1]; [|discriminate].
    destruct (k a w1) as [res w2 e2] eqn:E. cbn [result]. intros ->.
    apply (proj2 (Hk a) w1). now rewrite E.
Qed.

Lemma yields_try_catch (c handler : Act Task) :
  yields I c -> yields I handler -> yields I (try_catch c handler).
Proof.
  intros Hc Hh. split.
  - apply keeps_try_catch; [apply Hc|apply Hh].
  - intros w rest. unfold try_catch.
    destruct (c w) as [[t|] w1 e1] eqn:E.
    + cbn [result]. intros H. injection H as <-.
      apply (proj2 Hc w). now rewrite E.
    + destruct (handler w1) as [res w2 e2] eqn:E2. cbn [result]. intros ->.
      apply (proj2 Hh w1). now rewrite E2.
Qed.

Lemma task_keeps_Suspended (c : Act Task) : yields I c -> task_keeps I (Suspended c).
Proof. intros [Hk Hr]. now apply keeps_Suspended. Qed.

Lemma keeps_yields_bind {B} (m : Act Task) (k : Task -> Act B) :
  yields I m -> (forall t, task_keeps I t -> keeps I (k t)) -> keeps I (bind m k).
Proof.
  intros [Hm Hr] Hk w h H. unfold bind.
  specialize (Hm w h H). specialize (Hr w).
  destruct (m w) as [[t|] w1 e1]; cbn in *; [|exact Hm].
  specialize (Hk t (Hr t eq_refl) w1 (h ++ e1) Hm).
  destruct (k t w1) as [r w2 e2]; cbn in *.
  now rewrite app_assoc.
Qed.

Lemma keeps_finish (t : Task) : task_keeps I t -> keeps I (finish t).
Proof.
  induction 1 as [|resume Hk Hr IH].
  - apply keeps_ret.
  - intros w h H. cbn [finish].
    specialize (Hk w h H). specialize (IH w).
    destruct (resume w) as [[rest|] w1 e1]; cbn in *; [|exact Hk].
    specialize (IH rest eq_refl w1 (h ++ e1) Hk).
    destruct (finish rest w1) as [r w2 e2]; cbn in *.
    now rewrite app_assoc.
Qed.

Lemma yields_resume_once (t : Task) : task_keeps I t -> yields I (resume_once t).
Proof.
  intros Ht. destruct Ht as [|resume Hk Hr]; cbn [resume_once].
  - apply yields_ret. constructor.
  - apply yields_try_catch; [now split|]. apply yields_ret. constructor.
Qed.

Lemma keeps_interleave (turns : list bool) (a b : Task) :
  task_keeps I a -> task_keeps I b -> keeps I (interleave turns a b).
Proof.
  revert a b. induction turns as [|[|] later IH]; intros a b Ha Hb; cbn [interleave].
  - apply keeps_bind; [|intros _]; unfold detached; apply keeps_try;
      now apply keeps_finish.
  - apply keeps_yields_bind; [now apply yields_resume_once|].
    intros a' Ha'. now apply IH.
  - apply keeps_yields_bind; [now apply yields_resume_once|].
    intros b' Hb'. now apply IH.
Qed.
End Keeps.

(** Take a script apart, one step, by the shape it has. *)
Ltac keep_step :=
  match goal with
  | |- task_keeps _ Finished => apply keeps_Finished
  | |- task_keeps _ (Suspended _) => apply task_keeps_Suspended
  | H : task_keeps ?I ?t |- task_keeps ?I ?t => exact H
  | H : forall r, task_keeps ?I (stopTrack_task r) |- task_keeps ?I (stopTrack_task _) =>
      apply H
  | H : forall r next, task_keeps ?I next -> yields ?I (updateTimeline_lazy r next)
    |- yields ?I (updateTimeline_lazy _ _) => apply H
  | H : forall r next, task_keeps ?I next -> yields ?I (updateTimeline_started r next)
    |- yields ?I (updateTimeline_started _ _) => apply H
  | H : forall item r next, task_keeps ?I next -> yields ?I (proceed item r next)
    |- yields ?I (proceed _ _ _) => apply H
  | H : forall i c r next, task_keeps ?I next -> yields ?I (loadTrack_started i c r next)
    |- yields ?I (loadTrack_started _ _ _ _) => apply H
  | H : forall c r, yields ?I (onEnded_started c r)
    |- yields ?I (onEnded_started _ _) => apply H
  | H : forall c r, yields ?I (checkForTrackEnd_started c r)
    |- yields ?I (checkForTrackEnd_started _ _) => apply H
  | |- yields _ (ret _) => apply yields_ret
  | |- yields _ throw => apply yields_throw
  | |- yields _ (bind _ _) => apply yields_bind; [|intros ?]
  | |- yields _ (try_catch _ _) => apply yields_try_catch
  | |- yields _ (if ?b then _ else _) => destruct b eqn:?
  | |- yields _ (match ?x with _ => _ end) => destruct x eqn:?
  | |- keeps _ (interleave _ _ _) => apply keeps_interleave
  | |- keeps _ (@bind Task _ _ _) => apply keeps_yields_bind; [|intros ? ?]
  | |- keeps _ (ret _) => apply keeps_ret
  | |- keeps _ throw => apply keeps_throw
  | |- keeps _ (gets _) => apply keeps_gets
  | |- keeps _ (must _) => apply keeps_must
  | |- keeps _ (answer _) => apply keeps_answer
  | |- keeps _ (bind _ _) => apply keeps_bind; [|intros ?]
  | |- keeps _ (try_ _) => apply keeps_try
  | |- keeps _ (try_catch _ _) => apply keeps_try_catch
  | |- keeps _ (when _ _) => apply keeps_when
  | |- keeps _ (if ?b then _ else _) => destruct b eqn:?
  | |- keeps _ (match ?x with _ => _ end) => destruct x eqn:?
  end.

Ltac open_world w :=
  destruct w as [[cur tot tempo pq spt] [sy nc tc pl ct ls] pls ci ip ap lo su ra pt pe].

(** The small functions of the script and of the adapter. *)
Ltac open_base :=
  unfold updateTimeline_begin, updateTimeline_resume, applyTick,
    pauseLowPowerCallback, cancelPauseLowPower, clearPauseLowPowerTimer,
    startUiLoop, stopUiLoop, safePlayerCall_setAudioState, safeSynthCall,
    safeSynthCall_send, call_seek, detached, the_synth, the_timing,
    loadMIDI, _waitForReady, _safeSynthCall, synth_query, play, pause, seek,
    setAudioState, setIdle.

(** The handlers. *)
Ltac open_top :=
  unfold keydown, playClicked, togglePlayPause, rewindToBeginning,
    prevTrack, nextTrack, seekInput, seekInput_begin, heartbeat,
    checkForTrackEnd, onEnded, timerFires, applySelectedSf2, sf2Chosen,
    testChordClicked, testBeepClicked, demoClicked, player_loadSF2.

(** What is known of a function is used before the function is taken
    apart by [opener]; [leaf] settles the writes and the commands. *)
Ltac keep_using opener leaf :=
  repeat first
    [ progress cbn [handle perform]
    | solve [auto 1]
    | keep_step
    | progress opener
    | match goal with
      | |- keeps _ (modify _) => apply keeps_modify; solve [leaf]
      | |- keeps _ (emit _) => apply keeps_emit; solve [leaf]
      end ].

(** The transport functions, one after the other, each from the ones
    before; [low] opens the functions under them that the invariant at
    hand does not need taken as a whole. *)
Ltac keep_transport I low leaf :=
  assert (Kup : forall r, keeps I (updateTimeline r))
    by (intros; unfold updateTimeline; keep_using ltac:(open_base; low) leaf);
  assert (Kplay : keeps I playTrack)
    by first [assumption | unfold playTrack; keep_using ltac:(open_base; low) leaf];
  assert (Kload : forall i r, keeps I (loadTrack i r))
    by first [assumption | intros; unfold loadTrack; keep_using ltac:(open_base; low) leaf];
  assert (Kstop : forall r, keeps I (stopTrack r))
    by (intros; unfold stopTrack; keep_using ltac:(open_base; low) leaf);
  assert (Kpause : forall r, keeps I (pauseTrack r))
    by (intros; unfold pauseTrack, pauseTrack_begin, pauseTrack_resume;
        keep_using ltac:(open_base; low) leaf).

(** The calls that a frame leaves behind, piece by piece, and the frame. *)
Ltac keep_frame I low leaf :=
  assert (Ylazy : forall r next, task_keeps I next -> yields I (updateTimeline_lazy r next))
    by first [assumption | intros; unfold updateTimeline_lazy; keep_using ltac:(open_base; low) leaf];
  assert (Ytl : forall r next, task_keeps I next -> yields I (updateTimeline_started r next))
    by first [assumption | intros; unfold updateTimeline_started; keep_using ltac:(open_base; low) leaf];
  assert (Tplay : task_keeps I playTrack_task)
    by first [assumption | unfold playTrack_task; keep_using ltac:(open_base; low) leaf];
  assert (Tstop : forall r, task_keeps I (stopTrack_task r))
    by first [assumption | intros; unfold stopTrack_task, stopTrack_end;
        keep_using ltac:(open_base; low) leaf];
  assert (Yproceed : forall item r next, task_keeps I next -> yields I (proceed item r next))
    by first [assumption | intros; cbv beta zeta delta [proceed];
        keep_using ltac:(open_base; low) leaf];
  assert (Yload : forall i c r next, task_keeps I next ->
                  yields I (loadTrack_started i c r next))
    by first [assumption | intros; unfold loadTrack_started; keep_using ltac:(open_base; low) leaf];
  assert (Yended : forall c r, yields I (onEnded_started c r))
    by first [assumption | intros; unfold onEnded_started; keep_using ltac:(open_base; low) leaf];
  assert (Ycheck : forall c r, yields I (checkForTrackEnd_started c r))
    by first [assumption | intros; unfold checkForTrackEnd_started; keep_using ltac:(open_base; low) leaf];
  assert (Kframe : forall r c turns, keeps I (uiLoop r c turns))
    by first [assumption | intros; unfold uiLoop; keep_using ltac:(open_base; low) leaf].

Ltac keep_handlers low leaf :=
  keep_using ltac:(open_top; open_base; low) leaf.

Lemma keeps_addToPlaylist (I : World -> list Event -> Prop) (files : list PlaylistItem) :
  (forall f w h, I w h -> I (set_playlist (playlist w ++ [f]) w) h) ->
  keeps I (addToPlaylist files).
Proof.
  intros Hpush. induction files as [|f files IH]; cbn [addToPlaylist].
  - apply keeps_ret.
  - apply keeps_bind; [|intros _; exact IH].
    destruct (supported (extension_of (item_name f))); [|apply keeps_ret].
    apply keeps_modify. intros w h. apply Hpush.
Qed.

Lemma keeps_handle_all (I : World -> list Event -> Prop) (es : list UiEvent) :
  Forall (fun e => keeps I (handle e)) es -> keeps I (handle_all es).
Proof.
  induction 1 as [|e es He _ IH]; cbn [handle_all].
  - apply keeps_ret.
  - apply keeps_bind; [|intros _; exact IH].
    unfold detached. now apply keeps_try.
Qed.

(* ===================================================================== *)
(** ** The current index *)
(* ===================================================================== *)

Ltac page_leaf :=
  intros [[? ? ? ? ?] [[|] ? ? ? ? ?] ? ? ? ? ? ? ? ? ?] ?;
  unfold page_sound, index_valid, ready_while_playing, getTrackCount;
  cbn [currentIndex isPlaying player synth playlist upd_timing upd_player
       set_isPlaying set_suppressFirstSynthRead set_rafId
       set_pauseLowPowerTimer set_pendingTimeout set_autoplay set_loopOn
       set_nodeConnected set_tickConnected set_playing set_currentTime
       set_lastSmfBytes initialised set_playlist];
  try rewrite length_app; cbn [length];
  intuition (try discriminate; try lia).

Lemma page_sound_playTrack : keeps page_sound playTrack.
Proof.
  intros w h [[Hidx Hpl] Hs]. unfold playTrack. rewrite bind_gets.
  destruct (Z.ltb_spec (currentIndex w) 0).
  - now repeat split.
  - open_world w. unfold page_sound, index_valid, ready_while_playing, getTrackCount in *.
    cbn [currentIndex isPlaying player synth playlist] in *.
    destruct sy, nc, tc, ra, pt; exec; repeat split; intros; try lia; auto.
Qed.

Lemma page_sound_loadTrack (index : Z) (r : Replies) :
  keeps page_sound (loadTrack index r).
Proof.
  assert (Kup : forall r, keeps page_sound (updateTimeline r))
    by (intros; unfold updateTimeline; keep_using ltac:(open_base) page_leaf).
  intros w h H. unfold loadTrack. rewrite bind_gets.
  destruct ((index <? 0) || (getTrackCount w <=? index)) eqn:G.
  { cbn. now rewrite app_nil_r. }
  apply orb_false_elim in G. destruct G as [G1 G2].
  apply Z.ltb_ge in G1. apply Z.leb_gt in G2.
  rewrite bind_gets.
  destruct (nth_error (playlist w) (Z.to_nat index)) as [item|].
  2:{ cbn. now rewrite app_nil_r. }
  rewrite bind_modify.
  match goal with
  | |- page_sound (world (?c ?w0)) _ =>
      assert (K : keeps page_sound c)
        by keep_using ltac:(open_base; unfold parsePpqFromSmfHeader) page_leaf;
      apply (K w0 h)
  end.
  destruct H as [[Hidx Hpl] Hs].
  unfold page_sound, index_valid, ready_while_playing, getTrackCount in *.
  open_world w. cbn in *. repeat split; intros; auto; lia.
Qed.

Lemma page_sound_loadTrack_started (index : Z) (cached : bool) (r : Replies) (next : Task) :
  (forall item r next, task_keeps page_sound next -> yields page_sound (proceed item r next)) ->
  task_keeps page_sound next ->
  yields page_sound (loadTrack_started index cached r next).
Proof.
  intros Yproceed Hnext. unfold loadTrack_started.
  assert (Hmod : forall item (k : Act Task),
            yields page_sound k ->
            forall w, (index <? 0) || (getTrackCount w <=? index) = false ->
            nth_error (playlist w) (Z.to_nat index) = Some item ->
            (forall h, page_sound w h ->
               page_sound (world ((modify (set_currentIndex index) ;; k) w))
                          (h ++ events ((modify (set_currentIndex index) ;; k) w)))
            /\ (forall rest, result ((modify (set_currentIndex index) ;; k) w) = Normal rest ->
                task_keeps page_sound rest)).
  { intros item k [Kk Kr] w G Hnth. rewrite bind_modify.
    apply orb_false_elim in G. destruct G as [G1 G2].
    apply Z.ltb_ge in G1. apply Z.leb_gt in G2.
    split; [|intros rest; apply Kr].
    intros h H. apply Kk.
    destruct H as [[Hidx Hpl] Hs].
    unfold page_sound, index_valid, ready_while_playing, getTrackCount in *.
    open_world w. cbn in *. repeat split; intros; auto; lia. }
  assert (Hk : forall item, yields page_sound
                 (if cached then proceed item r next
                  else ret (Suspended (proceed item r next)))).
  { intros item. destruct cached; [now apply Yproceed|].
    apply yields_ret, task_keeps_Suspended. now apply Yproceed. }
  split.
  - intros w h H. rewrite bind_gets.
    destruct ((index <? 0) || (getTrackCount w <=? index)) eqn:G.
    { cbn. now rewrite app_nil_r. }
    rewrite bind_gets.
    destruct (nth_error (playlist w) (Z.to_nat index)) as [item|] eqn:Hnth.
    2:{ cbn. now rewrite app_nil_r. }
    now apply (Hmod item _ (Hk item) w G Hnth).
  - intros w rest. rewrite bind_gets.
    destruct ((index <? 0) || (getTrackCount w <=? index)) eqn:G.
    { cbn. intros E. now injection E as <-. }
    rewrite bind_gets.
    destruct (nth_error (playlist w) (Z.to_nat index)) as [item|] eqn:Hnth.
    2:{ cbn. intros E. now injection E as <-. }
    now apply (Hmod item _ (Hk item) w G Hnth).
Qed.

Lemma remove_at_length {A} (n : nat) (l : list A) :
  (n < length l)%nat -> S (length (remove_at n l)) = length l.
Proof.
  revert n. induction l as [|x l IH]; intros n Hn; [inversion Hn|].
  destruct n as [|n]; [reflexivity|].
  cbn [remove_at length] in *. rewrite IH; [reflexivity|lia].
Qed.

Lemma remove_at_beyond {A} (n : nat) (l : list A) :
  (length l <= n)%nat -> remove_at n l = l.
Proof.
  revert n. induction l as [|x l IH]; intros n Hn; [now destruct n|].
  destruct n as [|n]; [inversion Hn|].
  cbn [remove_at length] in *. rewrite IH; [reflexivity|lia].
Qed.

(** Removing one entry at a position that exists shortens the list by
    one; at a position past the end nothing is removed. *)
Lemma splice_one_length {A} (start : Z) (l : list A) :
  0 <= start ->
  Z.of_nat (length (splice_one start l))
  = if start <? Z.of_nat (length l) then Z.of_nat (length l) - 1
    else Z.of_nat (length l).
Proof.
  intros Hs. unfold splice_one.
  destruct (Z.ltb_spec start 0); [lia|].
  destruct (Z.ltb_spec start (Z.of_nat (length l))).
  - rewrite Z.min_l by lia.
    assert (Hn : (Z.to_nat start < length l)%nat) by lia.
    pose proof (remove_at_length _ l Hn). lia.
  - rewrite Z.min_r by lia. rewrite remove_at_beyond; [reflexivity|lia].
Qed.

Lemma page_sound_removeClicked (i : Z) (r : Replies) :
  0 <= i -> keeps page_sound (removeClicked i r).
Proof.
  intros Hi w h [[Hidx Hpl] Hs].
  unfold removeClicked. rewrite bind_gets.
  pose proof (splice_one_length i (playlist w) Hi) as Hlen.
  destruct (Z.eqb_spec i (currentIndex w)) as [E|E].
  - (* the current entry: stop *)
    rewrite !bind_modify. cbn [when]. unfold detached. rewrite try_eq.
    cbn [world events].
    match goal with
    | |- page_sound (world (?c ?w0)) _ =>
        destruct (synth (player w)) eqn:Hsy
    end.
    + match goal with
      | |- context [stopTrack r ?w0] =>
          destruct (stopTrack_ready r w0) as (tm' & ct' & su' & evs & Eq & _);
            [open_world w; exact Hsy|]; rewrite Eq
      end.
      open_world w. unfold page_sound, index_valid, ready_while_playing, getTrackCount in *.
      cbn in *. destruct (i <? Z.of_nat (length pls)); repeat split; intros;
        try discriminate; try lia.
    + open_world w. unfold page_sound, index_valid, ready_while_playing, getTrackCount in *.
      cbn [currentIndex isPlaying player synth playlist] in *. subst sy.
      unfold stopTrack, set_playlist. exec.
      destruct ip; [now specialize (Hs eq_refl)|].
      destruct (i <? Z.of_nat (length pls)); repeat split; intros;
        try discriminate; lia.
  - open_world w. unfold page_sound, index_valid, ready_while_playing, getTrackCount in *.
    cbn [currentIndex isPlaying player synth playlist] in *.
    destruct (Z.ltb_spec i ci); unfold set_playlist; exec;
      destruct (Z.ltb_spec i (Z.of_nat (length pls))); repeat split; intros;
      auto; try lia.
Qed.

Lemma page_sound_handle (e : UiEvent) : occurs e -> keeps page_sound (handle e).
Proof.
  intros Hocc.
  pose proof page_sound_playTrack as Kplay0.
  pose proof page_sound_loadTrack as Kload0.
  assert (Kadd : forall files, keeps page_sound (addToPlaylist files))
    by (intros files; apply keeps_addToPlaylist; intros f; page_leaf).
  keep_transport page_sound
    ltac:(unfold setMainNodeEnabled, setHeartbeatEnabled, safeClearTimeout,
            schedulePauseLowPower)
    page_leaf.
  assert (Ylazy0 : forall r next, task_keeps page_sound next ->
                  yields page_sound (updateTimeline_lazy r next))
    by (intros; unfold updateTimeline_lazy; keep_using ltac:(open_base) page_leaf).
  assert (Ytl0 : forall r next, task_keeps page_sound next ->
                yields page_sound (updateTimeline_started r next))
    by (intros; unfold updateTimeline_started; keep_using ltac:(open_base) page_leaf).
  assert (Yproceed0 : forall item r next, task_keeps page_sound next ->
                     yields page_sound (proceed item r next))
    by (intros; cbv beta zeta delta [proceed];
        keep_using ltac:(open_base; unfold parsePpqFromSmfHeader) page_leaf).
  assert (Yload0 : forall i c r next, task_keeps page_sound next ->
                  yields page_sound (loadTrack_started i c r next))
    by (intros; now apply page_sound_loadTrack_started).
  keep_frame page_sound
    ltac:(unfold setMainNodeEnabled, setHeartbeatEnabled, safeClearTimeout,
            schedulePauseLowPower)
    page_leaf.
  destruct e as [op| | | |i r| | | | | | |];
    [destruct op| | | |now apply page_sound_removeClicked| | | | | | |];
    keep_handlers
      ltac:(unfold setMainNodeEnabled, setHeartbeatEnabled, safeClearTimeout,
              schedulePauseLowPower)
      page_leaf.
Qed.

(** X1. However the page is used, the current index stays -1 or a position
    of the playlist, and a track is selected whenever the transport is
    playing: for every sequence of buttons, keys, slider moves, frames,
    heartbeats, timer callbacks, files added and entries played or
    removed, whatever the synthesizer answers. *)
Theorem current_index_stays_valid (es : list UiEvent) (w : World) :
  index_valid w -> ready_while_playing w -> Forall occurs es ->
  index_valid (world (handle_all es w)).
Proof.
  intros Hidx Hs Hocc.
  assert (K : keeps page_sound (handle_all es)).
  { apply keeps_handle_all. rewrite Forall_forall in *.
    intros e He. apply page_sound_handle. now apply Hocc. }
  exact (proj1 (K w [] (conj Hidx Hs))).
Qed.

(** Two entries; play the first, remove it, go to the previous one. *)
Lemma current_index_stays_valid_witness :
  index_valid
    (world (handle_all [Transport (OpToggle quiet); EntryRemove 0 quiet;
                        Transport (OpPrev quiet)]
                       (initial_world [sample_item; sample_item]))).
Proof.
  apply current_index_stays_valid.
  - split; [split; [discriminate|reflexivity]|discriminate].
  - discriminate.
  - repeat constructor. discriminate.
Defined.

(* ===================================================================== *)
(** ** Timing, timer and audio graph *)
(* ===================================================================== *)

Lemma header_verdict_positive (buf : list byte) (v : Z) :
  header_verdict buf = UseResolution v -> 0 < v.
Proof.
  unfold header_verdict.
  destruct (magic_matches buf); [|discriminate].
  destruct (u16_at buf 12) as [u|]; [|discriminate].
  destruct (Z.testbit u 15); [discriminate|].
  destruct (Z.ltb_spec 0 u); [|discriminate].
  congruence.
Qed.

Lemma sec_per_tick_positive (tempo resolution : Z) :
  0 < tempo -> 0 < resolution -> (0 < sec_per_tick tempo resolution)%Q.
Proof.
  intros Ht Hr. unfold sec_per_tick.
  assert (H1 : (0 < inject_Z tempo)%Q) by (change 0%Q with (inject_Z 0); now rewrite <- Zlt_Qlt).
  assert (H2 : (0 < inject_Z resolution)%Q) by (change 0%Q with (inject_Z 0); now rewrite <- Zlt_Qlt).
  assert (H3 : (0 < inject_Z 1000000)%Q) by reflexivity.
  unfold Qdiv. apply Qmult_lt_0_compat; [apply Qmult_lt_0_compat|]; try assumption;
    now apply Qinv_lt_0_compat.
Qed.

Ltac timing_leaf :=
  intros [[? ? ? ? ?] ? ? ? ? ? ? ? ? ? ?] ?;
  unfold timed, timing_sound, timing_consistent, updateFromSynth, reset, setSecPerTick,
    set_ppq, set_currentTick, DEFAULT_PPQ, DEFAULT_TEMPO_US_PER_QUARTER;
  cbn [timing upd_timing upd_player set_isPlaying set_suppressFirstSynthRead
       set_rafId set_pauseLowPowerTimer set_pendingTimeout set_autoplay
       set_loopOn set_playlist set_currentIndex
       ppq tempoUsPerQuarter totalTicks currentTick secPerTick];
  repeat match goal with
         | |- context [match ?o with Some _ => _ | None => _ end] => destruct o
         | |- context [if 0 <? ?x then _ else _] => destruct (Z.ltb_spec 0 x)
         | H : (0 <? _) = true |- _ => apply Z.ltb_lt in H
         end;
  intuition (try lia).

Lemma timed_parsePpq (C : Prop) (buf : list byte) :
  keeps (timed C) (parsePpqFromSmfHeader buf).
Proof.
  intros w h H. rewrite parsePpqFromSmfHeader_verdict. cbn [world events].
  rewrite app_nil_r.
  destruct (header_verdict buf) as [v| |] eqn:E; cbn [apply_verdict]; [| |exact H].
  - apply header_verdict_positive in E. revert w h H. timing_leaf.
  - revert w h H. timing_leaf.
Qed.

Lemma timed_handle (C : Prop) (e : UiEvent) : keeps (timed C) (handle e).
Proof.
  pose proof (timed_parsePpq C) as Hparse.
  assert (Hadd : forall files, keeps (timed C) (addToPlaylist files))
    by (intros files; apply keeps_addToPlaylist; intros f; timing_leaf).
  keep_transport (timed C)
    ltac:(unfold setMainNodeEnabled, setHeartbeatEnabled, safeClearTimeout,
            schedulePauseLowPower)
    timing_leaf.
  keep_frame (timed C)
    ltac:(unfold setMainNodeEnabled, setHeartbeatEnabled, safeClearTimeout,
            schedulePauseLowPower)
    timing_leaf.
  destruct e as [op| | | | | | | | | | |];
    [destruct op| | | | | | | | | | |];
    keep_handlers
      ltac:(unfold removeClicked, setMainNodeEnabled, setHeartbeatEnabled,
              safeClearTimeout, schedulePauseLowPower)
      timing_leaf.
Qed.

(** X2. Resolution and tempo stay positive and the length stays
    non-negative through every use of the page, whatever the files hold
    and the synthesizer answers; and once the seconds per tick have been
    computed from tempo and resolution, they always agree with the two,
    and are positive. *)
Theorem timing_stays_sound (es : list UiEvent) (w : World) :
  timing_sound (timing w) ->
  let s := timing (world (handle_all es w)) in
  timing_sound s
  /\ (timing_consistent (timing w) ->
      timing_consistent s /\ (0 < secPerTick s)%Q).
Proof.
  intros Hs s.
  assert (K : keeps (timed (timing_consistent (timing w))) (handle_all es)).
  { apply keeps_handle_all. rewrite Forall_forall. intros e _. apply timed_handle. }
  destruct (K w [] (conj Hs (fun H => H))) as [Hs' Hc'].
  split; [exact Hs'|]. intros Hc. specialize (Hc' Hc). split; [exact Hc'|].
  fold s in Hc'. rewrite Hc'. destruct Hs' as (Hp & Ht & _).
  now apply sec_per_tick_positive.
Qed.

(** A file whose header holds resolution 0 is loaded and played. *)
Lemma timing_stays_sound_witness :
  let w := initial_world [mkItem "zero.mid" [x4d; x54; x68; x64; x00; x00; x00; x06;
                                             x00; x00; x00; x01; x00; x00]] in
  timing_sound (timing (world (handle_all [Transport (OpToggle quiet)] w))).
Proof.
  intros w.
  apply (timing_stays_sound [Transport (OpToggle quiet)] w).
  repeat split; discriminate.
Defined.

Ltac timer_leaf :=
  intros [? ? ? ? ? ? ? ? ? ? ?] ?;
  unfold timer_sound, timer_held;
  cbn [pendingTimeout pauseLowPowerTimer upd_timing upd_player set_isPlaying
       set_suppressFirstSynthRead set_rafId set_pauseLowPowerTimer
       set_pendingTimeout set_autoplay set_loopOn set_playlist set_currentIndex];
  intuition congruence.

Lemma timer_sound_clear : keeps timer_sound safeClearTimeout.
Proof.
  intros w h H. open_world w. unfold timer_sound, timer_held in *.
  cbn [pendingTimeout pauseLowPowerTimer] in *.
  destruct pt; exec; [congruence|].
  intros Hp. now apply H.
Qed.

Lemma timer_sound_schedule : keeps timer_sound schedulePauseLowPower.
Proof.
  intros w h H. open_world w. unfold timer_sound, timer_held in *.
  destruct pt; exec; reflexivity.
Qed.

Lemma timer_sound_handle (e : UiEvent) : keeps timer_sound (handle e).
Proof.
  pose proof timer_sound_clear as Kclear.
  pose proof timer_sound_schedule as Ksched.
  assert (Kadd : forall files, keeps timer_sound (addToPlaylist files))
    by (intros files; apply keeps_addToPlaylist; intros f; timer_leaf).
  keep_transport timer_sound
    ltac:(unfold parsePpqFromSmfHeader, setMainNodeEnabled, setHeartbeatEnabled)
    timer_leaf.
  keep_frame timer_sound
    ltac:(unfold parsePpqFromSmfHeader, setMainNodeEnabled, setHeartbeatEnabled)
    timer_leaf.
  destruct e as [op| | | | | | | | | | |];
    [destruct op| | | | | | | | | | |];
    keep_handlers
      ltac:(unfold removeClicked, parsePpqFromSmfHeader, setMainNodeEnabled,
              setHeartbeatEnabled)
      timer_leaf.
Qed.

(** X3. At most one low-power timer is pending at any time.  Through every
    use of the page, a timer that is pending is the one the variable
    [pauseLowPowerTimer] holds; so when [schedulePauseLowPower] arms a new
    timer, none is pending any more: one that was pending has been
    cleared first. *)
Theorem one_timer_pending (es : list UiEvent) (w : World) :
  timer_held w ->
  let w' := world (handle_all es w) in
  timer_held w'
  /\ pendingTimeout (world (safeClearTimeout w')) = None
  /\ (pendingTimeout w' <> None ->
      events (schedulePauseLowPower w') = [ClearTimeout; SetTimeout PAUSE_LOW_POWER_MS]).
Proof.
  intros H w'.
  assert (K : keeps timer_sound (handle_all es)).
  { apply keeps_handle_all. rewrite Forall_forall. intros e _. apply timer_sound_handle. }
  specialize (K w [] H). cbn [app] in K. fold w' in K.
  unfold timer_sound, timer_held in K.
  split; [exact K|].
  open_world w'. cbn [pendingTimeout pauseLowPowerTimer] in K.
  split.
  - destruct pt; exec; [reflexivity|].
    destruct pe; [|reflexivity]. now discriminate K.
  - intros Hp. specialize (K Hp). subst pt. exec. reflexivity.
Qed.

(** Play, then pause: a timer is pending, and is cleared before the next
    one is armed. *)
Lemma one_timer_pending_witness :
  let w' := world (handle_all [Transport (OpToggle quiet); Transport (OpPause quiet)]
                              (initial_world [sample_item])) in
  pendingTimeout w' = Some PAUSE_LOW_POWER_MS
  /\ events (schedulePauseLowPower w') = [ClearTimeout; SetTimeout PAUSE_LOW_POWER_MS].
Proof.
  intros w'. split; [reflexivity|].
  apply (one_timer_pending [Transport (OpToggle quiet); Transport (OpPause quiet)]
           (initial_world [sample_item])).
  - intros Hp. now contradiction Hp.
  - discriminate.
Defined.


Lemma graph_after_snoc (h : list Event) (e : Event) (g : Graph) :
  graph_after (h ++ [e]) g = graph_step (graph_after h g) e.
Proof. unfold graph_after. now rewrite fold_left_app. Qed.

Ltac graph_leaf :=
  intros [? [[|] ? ? ? ? ?] ? ? ? ? ? ? ? ? ?] ?;
  unfold graph_sound, graph_of;
  try rewrite graph_after_snoc;
  cbn [player synth nodeConnected tickConnected upd_timing upd_player
       set_isPlaying set_suppressFirstSynthRead set_rafId
       set_pauseLowPowerTimer set_pendingTimeout set_autoplay set_loopOn
       set_playlist set_currentIndex set_playing set_currentTime
       set_lastSmfBytes initialised graph_step];
  intuition (try discriminate; try congruence).

Lemma graph_sound_node (g0 : Graph) (enabled : bool) :
  keeps (graph_sound g0) (setMainNodeEnabled enabled).
Proof.
  intros w h [Hs Hg]. open_world w. unfold graph_sound, graph_of in *.
  cbn [player synth nodeConnected tickConnected] in *. subst sy.
  unfold setMainNodeEnabled.
  destruct enabled, nc; exec; cbn [app];
    rewrite ?app_nil_r, ?graph_after_snoc, ?Hg; split; reflexivity.
Qed.

Lemma graph_sound_tick (g0 : Graph) (enabled : bool) :
  keeps (graph_sound g0) (setHeartbeatEnabled enabled).
Proof.
  intros w h [Hs Hg]. open_world w. unfold graph_sound, graph_of in *.
  cbn [player synth nodeConnected tickConnected] in *. subst sy.
  unfold setHeartbeatEnabled.
  destruct enabled, tc; exec; cbn [app];
    rewrite ?app_nil_r, ?graph_after_snoc, ?Hg; split; reflexivity.
Qed.

Lemma graph_sound_handle (g0 : Graph) (e : UiEvent) :
  keeps (graph_sound g0) (handle e).
Proof.
  pose proof (graph_sound_node g0) as Knode.
  pose proof (graph_sound_tick g0) as Ktick.
  assert (Kadd : forall files, keeps (graph_sound g0) (addToPlaylist files)).
  { intros files; apply keeps_addToPlaylist; intros f; graph_leaf. }
  keep_transport (graph_sound g0)
    ltac:(unfold parsePpqFromSmfHeader, safeClearTimeout, schedulePauseLowPower)
    graph_leaf.
  keep_frame (graph_sound g0)
    ltac:(unfold parsePpqFromSmfHeader, safeClearTimeout, schedulePauseLowPower)
    graph_leaf.
  destruct e as [op| | | | | | | | | | |];
    [destruct op| | | | | | | | | | |];
    keep_handlers
      ltac:(unfold removeClicked, parsePpqFromSmfHeader, safeClearTimeout,
              schedulePauseLowPower)
      graph_leaf.
Qed.

(** X4. With the adapter initialised, its two connection flags always tell
    what the connect and disconnect commands sent so far have made of the
    audio graph, and no such command is ever sent without need: never a
    connect for a node that is connected, never a disconnect for one that
    is not. *)
Theorem connections_follow_commands (es : list UiEvent) (w : World) :
  synth (player w) = true ->
  let o := handle_all es w in
  graph_after (events o) (graph_of w) = graph_of (world o).
Proof.
  intros Hs o.
  assert (K : keeps (graph_sound (graph_of w)) (handle_all es)).
  { apply keeps_handle_all. rewrite Forall_forall. intros e _. apply graph_sound_handle. }
  exact (proj2 (K w [] (conj Hs eq_refl))).
Qed.

(** Play, pause, and the timer firing. *)
Lemma connections_follow_commands_witness :
  let w := initial_world [sample_item] in
  let o := handle_all [Transport (OpToggle quiet); Transport (OpPause quiet);
                       Transport OpTimer] w in
  synth (player w) = true
  /\ graph_after (events o) (graph_of w) = graph_of (world o).
Proof.
  intros w o. split; [reflexivity|].
  apply (connections_follow_commands
           [Transport (OpToggle quiet); Transport (OpPause quiet); Transport OpTimer] w).
  reflexivity.
Defined.

(* ===================================================================== *)
(** ** The heartbeat worklet *)
(* ===================================================================== *)

Lemma Qceiling_le_iff (q : Q) (z : Z) : (q <= inject_Z z)%Q <-> Qceiling q <= z.
Proof.
  split; intros H.
  - rewrite <- (Qceiling_Z z). now apply Qceiling_resp_le.
  - apply Qle_trans with (inject_Z (Qceiling q)); [apply Qle_ceiling|].
    now rewrite <- Zle_Qle.
Qed.

(** [q] samples are reached after [z] quanta of 128 exactly when [z] is
    at least [q / 128]. *)
Lemma quanta_reach (q : Q) (z : Z) :
  (q <= inject_Z (128 * z + 128))%Q <-> Qceiling (q / 128) <= z + 1.
Proof.
  rewrite <- Qceiling_le_iff.
  assert (E : (inject_Z (128 * z + 128) == inject_Z (z + 1) * 128)%Q).
  { change 128%Q with (inject_Z 128). rewrite <- inject_Z_mult.
    apply inject_Z_injective. lia. }
  rewrite E. split; intros H.
  - apply Qle_shift_div_r; [reflexivity|exact H].
  - assert (Hq : (q == q / 128 * 128)%Q) by (field; discriminate).
    rewrite Hq. apply Qmult_le_compat_r; [exact H|discriminate].
Qed.

Lemma period_positive (q : Q) : (128 <= q)%Q -> 1 <= Qceiling (q / 128).
Proof.
  intros H. rewrite <- (Qceiling_Z 1). apply Qceiling_resp_le.
  apply Qle_shift_div_l; [reflexivity|]. exact H.
Qed.

(** From [m] quanta after the last message, [n] more quanta post a
    message each time a whole period is completed. *)
Lemma render_count (q : Q) (n : nat) :
  (128 <= q)%Q ->
  forall m : Z, 0 <= m < Qceiling (q / 128) ->
  Z.of_nat (length (fst (render n (mkWorklet (Fin q) (128 * m) 128))))
  = (m + Z.of_nat n) / Qceiling (q / 128).
Proof.
  intros Hq. pose proof (period_positive q Hq) as Hp.
  set (p := Qceiling (q / 128)) in *.
  induction n as [|n IH]; intros m Hm.
  - cbn [render fst length]. rewrite Z.add_0_r. symmetry. apply Z.div_small. lia.
  - cbn [render]. unfold process.
    cbn [samplesSinceLastPost samplesPerQuantum fireEveryNSamples num_ge num].
    destruct (Qle_bool q (inject_Z (128 * m + 128))) eqn:E.
    + apply Qle_bool_iff, quanta_reach in E. fold p in E.
      specialize (IH 0 ltac:(lia)). rewrite Z.mul_0_r, Z.add_0_l in IH.
      destruct (render n (mkWorklet (Fin q) 0 128)) as [more k''].
      cbn [fst length app] in *.
      replace (m + Z.of_nat (S n)) with (1 * p + Z.of_nat n) by lia.
      rewrite Z.div_add_l by lia. lia.
    + assert (Hlt : m + 1 < p).
      { destruct (Z.lt_ge_cases (m + 1) p) as [H|H]; [exact H|].
        apply quanta_reach, Qle_bool_iff in H. congruence. }
      specialize (IH (m + 1) ltac:(lia)).
      replace (128 * (m + 1)) with (128 * m + 128) in IH by lia.
      destruct (render n (mkWorklet (Fin q) (128 * m + 128) 128)) as [more k''].
      cbn [fst length app] in *.
      rewrite IH. f_equal. lia.
Qed.

Lemma render_never (n : nat) (s : Z) :
  fst (render n (mkWorklet PosInf s 128)) = [].
Proof.
  revert s. induction n as [|n IH]; intros s; [reflexivity|].
  cbn [render]. unfold process.
  cbn [samplesSinceLastPost samplesPerQuantum fireEveryNSamples num_ge num].
  specialize (IH (s + 128)).
  destruct (render n (mkWorklet PosInf (s + 128) 128)). exact IH.
Qed.

(** X5. The heartbeat worklet posts its message once per period and at no
    other time: with [N] the number the constructor keeps for
    [fireEveryNSamples] (at least 128, the value asked for when that is a
    larger number, 1024 when none is given), the quanta rendered so far
    have produced one message for every [ceil(N / 128)] of them; with an
    infinite [N] no message is ever posted.  As the adapter sets it up
    ([AUDIO_BUFFER_SIZE], 2048 samples), that is one message every 16
    quanta. *)
Theorem heartbeat_once_per_period (fireEvery : jsval) (n : nat) :
  match fireEveryNSamples (HeartbeatWorklet_new fireEvery) with
  | Fin q =>
      (128 <= q)%Q
      /\ Z.of_nat (length (fst (render n (HeartbeatWorklet_new fireEvery))))
         = Z.of_nat n / Qceiling (q / 128)
  | PosInf => fst (render n (HeartbeatWorklet_new fireEvery)) = []
  | NaN | NegInf => False
  end
  /\ Z.of_nat (length (fst (render n (HeartbeatWorklet_new (VNum (num AUDIO_BUFFER_SIZE))))))
     = Z.of_nat n / 16.
Proof.
  assert (G : forall q, (128 <= q)%Q ->
              Z.of_nat (length (fst (render n (mkWorklet (Fin q) 0 128))))
              = Z.of_nat n / Qceiling (q / 128)).
  { intros q Hq. pose proof (period_positive q Hq).
    apply (render_count q n Hq 0). lia. }
  split.
  - unfold HeartbeatWorklet_new. cbn [fireEveryNSamples].
    destruct (Number fireEvery) as [q| | |]; unfold or_else, truthy.
    + destruct (Qeq_bool q 0); cbn [negb].
      * change (Math_max (num 128) (num 1024)) with (Fin (inject_Z 1024)).
        split; [discriminate|]. now apply G.
      * unfold Math_max, num.
        destruct (Qle_bool (inject_Z 128) q) eqn:E.
        -- apply Qle_bool_iff in E. split; [exact E|]. now apply G.
        -- split; [apply Qle_refl|]. apply G. apply Qle_refl.
    + change (Math_max (num 128) (num 1024)) with (Fin (inject_Z 1024)).
      split; [discriminate|]. now apply G.
    + cbn [Math_max num]. apply render_never.
    + cbn [Math_max num]. split; [apply Qle_refl|]. apply G. apply Qle_refl.
  - change (HeartbeatWorklet_new (VNum (num AUDIO_BUFFER_SIZE)))
      with (mkWorklet (Fin (inject_Z 2048)) 0 128).
    rewrite G by discriminate. reflexivity.
Qed.

(* ===================================================================== *)
(** ** The latest FluidSynth *)
(* ===================================================================== *)

Section Sorting.
Context {A : Type}.
Variable cmp : A -> A -> Z.

Lemma insert_sorted_In (x y : A) (l : list A) :
  In y (insert_sorted cmp x l) <-> y = x \/ In y l.
Proof.
  induction l as [|z l IH]; cbn [insert_sorted].
  - cbn. intuition.
  - destruct (cmp x z <=? 0); cbn [In]; [intuition|].
    rewrite IH. cbn [In]. intuition.
Qed.

Lemma array_sort_In (y : A) (l : list A) : In y (array_sort cmp l) <-> In y l.
Proof.
  induction l as [|x l IH]; cbn [array_sort]; [reflexivity|].
  rewrite insert_sorted_In, IH. cbn [In]. intuition.
Qed.

Hypothesis cmp_trans : forall a b c, cmp a b <= 0 -> cmp b c <= 0 -> cmp a c <= 0.
Hypothesis cmp_total : forall a b, 0 < cmp a b -> cmp b a <= 0.
Hypothesis cmp_refl : forall a, cmp a a <= 0.

(** The first element of the sorted array comes before every other
    one, or compares equal to it. *)
Lemma array_sort_first (l : list A) (first : A) (others : list A) :
  array_sort cmp l = first :: others ->
  forall y, In y l -> cmp first y <= 0.
Proof.
  revert first others. induction l as [|x l IH]; intros first others E y Hy.
  - destruct Hy.
  - cbn [array_sort] in E.
    destruct (array_sort cmp l) as [|h rest] eqn:El.
    + cbn in E. injection E as <- _.
      destruct Hy as [<-|Hy]; [apply cmp_refl|].
      apply (array_sort_In y) in Hy. rewrite El in Hy. destruct Hy.
    + cbn [insert_sorted] in E.
      destruct (Z.leb_spec (cmp x h) 0) as [Hle|Hgt]; injection E as <- _.
      * destruct Hy as [<-|Hy]; [apply cmp_refl|].
        apply cmp_trans with h; [exact Hle|]. now apply (IH h rest).
      * destruct Hy as [<-|Hy]; [now apply cmp_total|].
        now apply (IH h rest).
Qed.
End Sorting.

Lemma compare_versions_le (a b : VersionedFile) :
  compare_versions a b <= 0 <-> version_le (version_numbers b) (version_numbers a).
Proof.
  unfold compare_versions, version_le.
  destruct (version_numbers a) as [[a1 a2] a3].
  destruct (version_numbers b) as [[b1 b2] b3].
  destruct (Z.eqb_spec (b1 - a1) 0); cbn [negb]; [|lia].
  destruct (Z.eqb_spec (b2 - a2) 0); cbn [negb]; lia.
Qed.

Lemma filter_Boolean_In {A B} (g : A -> option B) (l : list A) (b : B) :
  In b (filter_Boolean (map g l)) <-> exists a, In a l /\ g a = Some b.
Proof.
  induction l as [|x l IH]; cbn [map filter_Boolean].
  - split; [intros []|intros (a & [] & _)].
  - destruct (g x) as [b'|] eqn:E; cbn [In]; rewrite IH; split.
    + intros [<-|(a & Ha & Eg)]; [exists x; auto|exists a; auto].
    + intros (a & [<-|Ha] & Eg); [left; congruence|right; exists a; auto].
    + intros (a & Ha & Eg). exists a; auto.
    + intros (a & [<-|Ha] & Eg); [congruence|exists a; auto].
Qed.

(** What is found is a name of the directory that has the form. *)
Lemma findLatest_listed (files : list string) (found : VersionedFile) :
  findLatestFluidSynth (Some files) = latest_is found ->
  In (file found) files /\ FLUIDSYNTH_PATTERN (file found) = Some (version found).
Proof.
  unfold findLatestFluidSynth.
  set (g := fun f => match FLUIDSYNTH_PATTERN f with
                     | Some group1 => Some (mkVersioned f group1)
                     | None => None
                     end).
  destruct (array_sort compare_versions (filter_Boolean (map g files)))
    as [|first others] eqn:E; [discriminate|].
  intros H. injection H as <-.
  assert (Hf : In first (filter_Boolean (map g files))).
  { apply (array_sort_In compare_versions). rewrite E. now left. }
  apply filter_Boolean_In in Hf. destruct Hf as (f & Hf & Eg). unfold g in Eg.
  destruct (FLUIDSYNTH_PATTERN f) as [v|] eqn:Ef; [|discriminate].
  injection Eg as <-. cbn [file version]. now split.
Qed.

(** X6. [findLatestFluidSynth] gives [null] only for a directory that
    does not exist and [undefined] only when no name in the directory has
    the form libfluidsynth-MAJOR.MINOR.PATCH-with-libsndfile.js; otherwise
    it gives a name of the directory that has this form, with its
    version, and no name of that form in the directory has a higher
    version, the three numbers being compared as numbers, major first.
    (Numbers of up to 15 digits, which JavaScript holds exactly.) *)
Theorem latest_is_highest (listing : option (list string)) :
  (forall files f, listing = Some files -> In f files -> short_version f) ->
  match findLatestFluidSynth listing with
  | latest_null => listing = None
  | latest_undefined =>
      exists files, listing = Some files
      /\ forall f, In f files -> FLUIDSYNTH_PATTERN f = None
  | latest_is found =>
      exists files, listing = Some files
      /\ In (file found) files
      /\ FLUIDSYNTH_PATTERN (file found) = Some (version found)
      /\ forall f v, In f files -> FLUIDSYNTH_PATTERN f = Some v ->
         version_le (version_numbers (mkVersioned f v)) (version_numbers found)
  end.
Proof.
  intros _. destruct listing as [files|]; [|reflexivity].
  unfold findLatestFluidSynth.
  set (g := fun f => match FLUIDSYNTH_PATTERN f with
                     | Some group1 => Some (mkVersioned f group1)
                     | None => None
                     end).
  assert (Hin : forall v, In v (filter_Boolean (map g files)) <->
                exists f, In f files /\ g f = Some v)
    by (intros v; apply filter_Boolean_In).
  destruct (array_sort compare_versions (filter_Boolean (map g files)))
    as [|found others] eqn:E.
  - exists files. split; [reflexivity|]. intros f Hf.
    destruct (FLUIDSYNTH_PATTERN f) as [v|] eqn:Ef; [|reflexivity].
    assert (H : In (mkVersioned f v) (array_sort compare_versions (filter_Boolean (map g files)))).
    { apply array_sort_In, Hin. exists f. split; [exact Hf|]. unfold g. now rewrite Ef. }
    rewrite E in H. destruct H.
  - exists files. split; [reflexivity|].
    destruct (findLatest_listed files found) as [Hf Ef].
    { unfold findLatestFluidSynth. fold g. now rewrite E. }
    split; [exact Hf|]. split; [exact Ef|].
    intros f' v' Hf' Ef'.
    apply compare_versions_le.
    apply (array_sort_first compare_versions) with (l := filter_Boolean (map g files))
                                                  (others := others).
    + intros a b c. rewrite !compare_versions_le. unfold version_le.
      destruct (version_numbers a) as [[a1 a2] a3].
      destruct (version_numbers b) as [[b1 b2] b3].
      destruct (version_numbers c) as [[c1 c2] c3]. lia.
    + intros a b. rewrite compare_versions_le. unfold compare_versions, version_le.
      destruct (version_numbers a) as [[a1 a2] a3].
      destruct (version_numbers b) as [[b1 b2] b3].
      destruct (Z.eqb_spec (b1 - a1) 0); cbn [negb]; [|lia].
      destruct (Z.eqb_spec (b2 - a2) 0); cbn [negb]; lia.
    + intros a. apply compare_versions_le. unfold version_le.
      destruct (version_numbers a) as [[a1 a2] a3]. lia.
    + exact E.
    + apply Hin. exists f'. split; [exact Hf'|]. unfold g. now rewrite Ef'.
Qed.

(** Version 2.10.0 is later than 2.9.1 and than 2.4.6. *)
Lemma latest_is_highest_witness :
  findLatestFluidSynth
    (Some ["libfluidsynth-2.9.1-with-libsndfile.js"; "README.md";
           "libfluidsynth-2.10.0-with-libsndfile.js";
           "libfluidsynth-2.4.6-with-libsndfile.js";
           "libfluidsynth-2.4.6.js"]%string)
  = latest_is (mkVersioned "libfluidsynth-2.10.0-with-libsndfile.js" "2.10.0")
  /\ exists files,
       In "libfluidsynth-2.10.0-with-libsndfile.js"%string files
       /\ forall f v, In f files -> FLUIDSYNTH_PATTERN f = Some v ->
          version_le (version_numbers (mkVersioned f v)) (2, 10, 0).
Proof.
  split; [reflexivity|].
  destruct (latest_is_highest
              (Some ["libfluidsynth-2.9.1-with-libsndfile.js"; "README.md";
                     "libfluidsynth-2.10.0-with-libsndfile.js";
                     "libfluidsynth-2.4.6-with-libsndfile.js";
                     "libfluidsynth-2.4.6.js"]%string))
    as (files & _ & Hin & _ & Hmax).
  - intros files f E Hf v Ev. injection E as <-.
    repeat (destruct Hf as [<-|Hf];
            [vm_compute in Ev; try discriminate Ev; injection Ev as <-;
             repeat constructor|]).
    destruct Hf.
  - exists files. split; [exact Hin|exact Hmax].
Defined.

(* --------------------------------------------------------------------- *)

Lemma strip_prefix_app (p s r : string) : strip_prefix p s = Some r -> s = (p ++ r)%string.
Proof.
  revert s. induction p as [|a p IH]; intros s H; cbn [strip_prefix] in H.
  - now injection H as ->.
  - destruct s as [|b s]; [discriminate|].
    destruct (Ascii.eqb_spec a b) as [->|]; [|discriminate].
    cbn [String.append]. f_equal. now apply IH.
Qed.

Lemma digits_of_app (s d r : string) : digits_of s = (d, r) -> s = (d ++ r)%string.
Proof.
  revert d r. induction s as [|c s IH]; intros d r H; cbn [digits_of] in H.
  - now injection H as <- <-.
  - destruct (is_digit c).
    + destruct (digits_of s) as [d' r'] eqn:E. injection H as <- <-.
      cbn [String.append]. f_equal. now apply IH.
    + now injection H as <- <-.
Qed.

Lemma toLowerCase_app (x y : string) :
  toLowerCase (x ++ y) = (toLowerCase x ++ toLowerCase y)%string.
Proof. induction x as [|c x IH]; cbn [String.append toLowerCase]; [reflexivity|now rewrite IH]. Qed.

Lemma ends_with_app (suffix x y : string) :
  ends_with suffix y = true -> ends_with suffix (x ++ y) = true.
Proof.
  intros H. induction x as [|c x IH]; [exact H|].
  cbn [String.append ends_with]. rewrite IH. apply orb_true_r.
Qed.

(** A name of the form that [findLatestFluidSynth] looks for is one of
    the files that the build copies. *)
Lemma versioned_name_is_external (f v : string) :
  FLUIDSYNTH_PATTERN f = Some v -> EXTERNAL_FILES_PATTERN f = true.
Proof.
  unfold FLUIDSYNTH_PATTERN. intros H.
  destruct (strip_prefix "libfluidsynth-" f) as [r1|] eqn:E1; [|discriminate].
  destruct (digits_of r1) as [a r2] eqn:Ea. apply digits_of_app in Ea.
  destruct a as [|a0 a]; [discriminate|].
  destruct (strip_prefix "." r2) as [r3|] eqn:E2; [|discriminate].
  destruct (digits_of r3) as [b r4] eqn:Eb. apply digits_of_app in Eb.
  destruct b as [|b0 b]; [discriminate|].
  destruct (strip_prefix "." r4) as [r5|] eqn:E3; [|discriminate].
  destruct (digits_of r5) as [c r6] eqn:Ec. apply digits_of_app in Ec.
  destruct c as [|c0 c]; [discriminate|].
  destruct (String.eqb_spec r6 "-with-libsndfile.js") as [E6|]; [|discriminate].
  apply strip_prefix_app in E1, E2, E3. subst.
  unfold EXTERNAL_FILES_PATTERN.
  repeat rewrite toLowerCase_app.
  assert (Hjs : ends_with ".js" (toLowerCase "-with-libsndfile.js") = true) by reflexivity.
  apply orb_true_iff. left. apply orb_true_iff. left.
  repeat (apply ends_with_app). exact Hjs.
Qed.

Lemma readFile_writeFile (name g : string) (content : list byte) (d : Dir) :
  readFile g (writeFile name content d)
  = if String.eqb name g then Some content else readFile g d.
Proof.
  unfold writeFile. cbn [readFile].
  destruct (String.eqb_spec name g) as [->|Hne]; [reflexivity|].
  induction d as [|[n c] d IH]; [reflexivity|].
  cbn [filter fst readFile].
  destruct (String.eqb_spec n name) as [->|Hn]; cbn [negb].
  - destruct (String.eqb_spec name g); [contradiction|]. exact IH.
  - cbn [readFile]. destruct (String.eqb n g); [reflexivity|exact IH].
Qed.

Lemma readFile_listed (f : string) (d : Dir) :
  In f (readdirSync d) -> exists content, readFile f d = Some content.
Proof.
  induction d as [|[n c] d IH]; [intros []|].
  cbn [readdirSync map fst In readFile]. intros [->|H].
  - rewrite String.eqb_refl. now exists c.
  - destruct (String.eqb n f); [now exists c|]. now apply IH.
Qed.

(** Copying the files of [dir] named in [files], all of them names of
    [dir], does not throw; afterwards each of them is in the target as it
    is in [dir], and the rest of the target is as before. *)
Lemma copy_each (dir : Dir) (files : list string) (dist : Dir) :
  (forall f, In f files -> In f (readdirSync dir)) ->
  exists d,
    fold_left (fun acc f => match acc with
                            | Some d => copyFileSync dir f d f
                            | None => None
                            end) files (Some dist) = Some d
    /\ forall g, readFile g d = if existsb (String.eqb g) files
                                then readFile g dir else readFile g dist.
Proof.
  revert dist. induction files as [|f files IH]; intros dist Hall.
  - exists dist. split; reflexivity.
  - cbn [fold_left]. unfold copyFileSync at 2.
    destruct (readFile_listed f dir (Hall f (or_introl eq_refl))) as [c Ec].
    rewrite Ec.
    destruct (IH (writeFile f c dist)) as (d & Ed & Hd).
    { intros g Hg. apply Hall. now right. }
    exists d. split; [exact Ed|].
    intros g. rewrite Hd. cbn [existsb].
    rewrite readFile_writeFile.
    destruct (existsb (String.eqb g) files); [now rewrite orb_true_r|].
    rewrite orb_false_r. rewrite (String.eqb_sym g f).
    destruct (String.eqb_spec f g) as [->|]; [now rewrite Ec|reflexivity].
Qed.

(** X7. The build copies the latest FluidSynth under the name that the
    generated configuration points to.  For an externals directory that
    exists and holds regular files, the copy does not fail; every file of the
    directory with extension js, wasm or data is in dist/externals with
    its contents; and when [findLatestFluidSynth] finds a version, the
    file libfluidsynth-with-libsndfile.js of dist/externals holds the
    contents of that version: the file named by the path that
    [generateConfig] writes for a build. *)
Theorem build_copies_latest (dir dist : Dir) :
  exists d,
    copyExternals (Some dir) dist = Some d
    /\ (forall f, In f (readdirSync dir) -> EXTERNAL_FILES_PATTERN f = true ->
        f <> "libfluidsynth-with-libsndfile.js"%string ->
        readFile f d = readFile f dir)
    /\ (forall latest,
          findLatestFluidSynth (Some (readdirSync dir)) = latest_is latest ->
          (exists content, readFile (file latest) dir = Some content)
          /\ readFile "libfluidsynth-with-libsndfile.js" d = readFile (file latest) dir
          /\ fluidsynthPath false latest
             = ("./externals/" ++ "libfluidsynth-with-libsndfile.js")%string).
Proof.
  unfold copyExternals.
  destruct (copy_each dir (filter EXTERNAL_FILES_PATTERN (readdirSync dir)) dist)
    as (d1 & E1 & H1).
  { intros f Hf. apply filter_In in Hf. now destruct Hf. }
  rewrite E1.
  assert (Hin : forall f, In f (readdirSync dir) -> EXTERNAL_FILES_PATTERN f = true ->
                readFile f d1 = readFile f dir).
  { intros f Hf He. rewrite H1.
    assert (Hex : existsb (String.eqb f) (filter EXTERNAL_FILES_PATTERN (readdirSync dir)) = true).
    { apply existsb_exists. exists f. split; [|apply String.eqb_refl].
      apply filter_In. now split. }
    now rewrite Hex. }
  destruct (findLatestFluidSynth (Some (readdirSync dir))) as [| |latest] eqn:El.
  - exists d1. split; [reflexivity|]. split; [intros f Hf He _; now apply Hin|].
    intros latest H. discriminate H.
  - exists d1. split; [reflexivity|]. split; [intros f Hf He _; now apply Hin|].
    intros latest H. discriminate H.
  - destruct (findLatest_listed _ _ El) as [Hl Hp].
    pose proof (versioned_name_is_external _ _ Hp) as He.
    destruct (readFile_listed _ _ Hl) as [c Ec].
    unfold copyFileSync. rewrite (Hin _ Hl He), Ec.
    eexists. split; [reflexivity|]. split.
    + intros f Hf Hef Hne. rewrite readFile_writeFile.
      destruct (String.eqb_spec "libfluidsynth-with-libsndfile.js" f) as [<-|_];
        [contradiction|]. now apply Hin.
    + intros latest' H. injection H as <-.
      split; [now exists c|]. split; [|reflexivity].
      rewrite readFile_writeFile, String.eqb_refl. now rewrite Ec.
Qed.

(* ===================================================================== *)
(** ** Adding to the playlist and removing from it *)
(* ===================================================================== *)

Lemma str_split_dotless (s : string) : dotless s = true -> str_split "." s = [s].
Proof.
  induction s as [|c r IH]; cbn [dotless str_split]; [reflexivity|].
  intros H. apply andb_prop in H. destruct H as [Hc Hr].
  apply negb_true_iff in Hc. rewrite Hc, (IH Hr). reflexivity.
Qed.

Lemma last_cons_nonempty {A} (x d : A) (l : list A) : l <> [] -> last (x :: l) d = last l d.
Proof. destruct l; [congruence|reflexivity]. Qed.

(** A name that ends in a dot and a piece without dots splits into at
    least two pieces, the last of which is that piece. *)
Lemma str_split_ending (base ext : string) :
  dotless ext = true ->
  exists piece pieces,
    str_split "." (base ++ "." ++ ext) = piece :: pieces
    /\ pieces <> [] /\ last pieces EmptyString = ext.
Proof.
  intros Hext. induction base as [|c r IH].
  - cbn [String.append str_split]. rewrite Ascii.eqb_refl.
    rewrite str_split_dotless by exact Hext.
    exists EmptyString, [ext]. repeat split. discriminate.
  - destruct IH as (piece & pieces & E & Hne & Hlast).
    cbn [String.append str_split]. cbn [String.append] in E. rewrite E.
    destruct (Ascii.eqb c ".").
    + exists EmptyString, (piece :: pieces). repeat split; [discriminate|].
      now rewrite last_cons_nonempty.
    + exists (String c piece), pieces. repeat split; assumption.
Qed.

Lemma extension_after_last_dot (base ext : string) :
  dotless ext = true -> extension_of (base ++ "." ++ ext) = toLowerCase ext.
Proof.
  intros Hext. unfold extension_of.
  destruct (str_split_ending base ext Hext) as (piece & pieces & E & Hne & Hlast).
  rewrite E, last_cons_nonempty by exact Hne. now rewrite Hlast.
Qed.

Lemma addToPlaylist_filters (files : list PlaylistItem) (w : World) :
  addToPlaylist files w
  = mkOutcome (Normal tt)
      (set_playlist
         (playlist w ++ filter (fun f => supported (extension_of (item_name f))) files) w)
      [].
Proof.
  revert w. induction files as [|f files IH]; intros w.
  - cbn [addToPlaylist filter]. rewrite app_nil_r. now open_world w.
  - cbn [addToPlaylist filter].
    destruct (supported (extension_of (item_name f))).
    + rewrite bind_modify, IH. open_world w. cbn [playlist set_playlist].
      now rewrite <- app_assoc.
    + rewrite bind_ret_l. apply IH.
Qed.

(** X8. [addToPlaylist] appends to the playlist, in the order given, the
    files whose extension is one of the supported ones, and changes
    nothing else: the entries already there keep their positions, so the
    current index still points to the same entry.  The extension is what
    follows the last dot of the name, letter case ignored; a name without
    a dot counts as a whole as its extension. *)
Theorem addToPlaylist_appends_supported (files : list PlaylistItem) (w : World) :
  let accepted := filter (fun f => supported (extension_of (item_name f))) files in
  addToPlaylist files w
  = mkOutcome (Normal tt) (set_playlist (playlist w ++ accepted) w) []
  /\ (forall i item, nth_error (playlist w) i = Some item ->
      nth_error (playlist w ++ accepted) i = Some item)
  /\ (forall base ext, dotless ext = true ->
      extension_of (base ++ "." ++ ext) = toLowerCase ext)
  /\ (forall name, dotless name = true -> extension_of name = toLowerCase name).
Proof.
  intros accepted. split; [apply addToPlaylist_filters|]. split; [|split].
  - intros i item H. rewrite nth_error_app1; [exact H|].
    apply nth_error_Some. congruence.
  - apply extension_after_last_dot.
  - intros name H. unfold extension_of. now rewrite str_split_dotless.
Qed.

(** What is chosen and what is left out. *)
Example addToPlaylist_example :
  map item_name
    (playlist (world (addToPlaylist
       [mkItem "a.MID" []; mkItem "notes.txt" []; mkItem "b.tar.midi" [];
        mkItem "mid" []; mkItem "c.mid." []; mkItem "d.Ms2Mml" []]
       (initial_world [sample_item]))))
  = ["demo.MID"; "a.MID"; "b.tar.midi"; "mid"; "d.Ms2Mml"]%string.
Proof. reflexivity. Qed.

Lemma remove_at_nth {A} (n j : nat) (l : list A) :
  nth_error (remove_at n l) j
  = nth_error l (if (j <? n)%nat then j else S j).
Proof.
  revert n j. induction l as [|x l IH]; intros n j.
  - destruct n, j; cbn [remove_at]; try reflexivity;
      destruct (_ <? _)%nat; reflexivity.
  - destruct n as [|n]; cbn [remove_at]; [reflexivity|].
    destruct j as [|j]; [reflexivity|].
    cbn [nth_error]. rewrite IH.
    change (S j <? S n)%nat with (j <? n)%nat.
    now destruct (j <? n)%nat.
Qed.

(** X9. Removing an entry of the playlist that is not the current one
    leaves the current track what it was: the current index is moved down
    by one when the entry removed was before it, so that it points to the
    same entry as before; the other entries keep their order; nothing is
    sent to the adapter or the synthesizer, and the transport and the
    timing state are untouched. *)
Theorem remove_keeps_current_track (i : Z) (r : Replies) (w : World) :
  0 <= i < getTrackCount w -> 0 <= currentIndex w < getTrackCount w ->
  i <> currentIndex w ->
  let o := removeClicked i r w in
  result o = Normal tt /\ events o = []
  /\ nth_error (playlist (world o)) (Z.to_nat (currentIndex (world o)))
     = nth_error (playlist w) (Z.to_nat (currentIndex w))
  /\ 0 <= currentIndex (world o) < getTrackCount (world o)
  /\ getTrackCount (world o) = getTrackCount w - 1
  /\ (forall j, nth_error (playlist (world o)) j
                = nth_error (playlist w) (if (j <? Z.to_nat i)%nat then j else S j))
  /\ isPlaying (world o) = isPlaying w
  /\ timing (world o) = timing w
  /\ player (world o) = player w.
Proof.
  intros Hi Hc Hne o. subst o.
  pose proof (splice_one_length i (playlist w) (proj1 Hi)) as Hlen.
  assert (Hsp : splice_one i (playlist w) = remove_at (Z.to_nat i) (playlist w)).
  { unfold splice_one. unfold getTrackCount in Hi.
    destruct (Z.ltb_spec i 0); [lia|]. now rewrite Z.min_l by lia. }
  unfold getTrackCount in *.
  destruct (Z.ltb_spec i (Z.of_nat (length (playlist w)))); [|lia].
  unfold removeClicked. rewrite bind_gets.
  destruct (Z.eqb_spec i (currentIndex w)); [contradiction|].
  open_world w. cbn [currentIndex playlist] in *.
  destruct (Z.ltb_spec i ci); unfold set_playlist; exec; rewrite Hsp in *;
    (split; [reflexivity|]); (split; [reflexivity|]);
    (split; [rewrite remove_at_nth|]);
    repeat split; try lia; try (intros; apply remove_at_nth).
  - replace (Z.to_nat (ci - 1) <? Z.to_nat i)%nat with false
      by (symmetry; apply Nat.ltb_ge; lia).
    f_equal. lia.
  - replace (Z.to_nat ci <? Z.to_nat i)%nat with true
      by (symmetry; apply Nat.ltb_lt; lia).
    reflexivity.
Qed.

(** Three entries, the third current: remove the first. *)
Lemma remove_keeps_current_track_witness :
  let w := set_currentIndex 2
             (initial_world [mkItem "a.mid" []; mkItem "b.mid" []; mkItem "c.mid" []]) in
  let o := removeClicked 0 quiet w in
  currentIndex (world o) = 1
  /\ nth_error (playlist (world o)) (Z.to_nat (currentIndex (world o)))
     = nth_error (playlist w) (Z.to_nat (currentIndex w)).
Proof.
  intros w o. split; [reflexivity|].
  apply (remove_keeps_current_track 0 quiet w).
  - split; [lia|reflexivity].
  - split; [discriminate|reflexivity].
  - discriminate.
Defined.

Lemma stopTrack_pauses_first (r : Replies) (w : World) :
  exists rest, events (stopTrack r w) = CallPause :: rest.
Proof.
  unfold stopTrack, bind at 1, emit.
  match goal with
  | |- context [match ?c with mkOutcome _ _ _ => _ end] => destruct c as [res w2 e2]
  end.
  now exists e2.
Qed.

(** X10. Removing the current entry stops the player: with the adapter
    initialised, the page is left with no track selected (index -1), not
    playing, the playhead at tick 0, no UI frame requested and no timer
    held, the audio nodes disconnected; the adapter is told to pause, and
    play is not called.  The other entries keep their order. *)
Theorem remove_current_stops (i : Z) (r : Replies) (w : World) :
  synth (player w) = true -> 0 <= i < getTrackCount w -> i = currentIndex w ->
  let o := removeClicked i r w in
  result o = Normal tt
  /\ currentIndex (world o) = -1
  /\ isPlaying (world o) = false
  /\ currentTick (timing (world o)) = 0
  /\ rafId (world o) = false
  /\ pauseLowPowerTimer (world o) = false
  /\ nodeConnected (player (world o)) = false
  /\ tickConnected (player (world o)) = false
  /\ getTrackCount (world o) = getTrackCount w - 1
  /\ (forall j, nth_error (playlist (world o)) j
                = nth_error (playlist w) (if (j <? Z.to_nat i)%nat then j else S j))
  /\ In CallPause (events o)
  /\ ~ In CallPlay (events o).
Proof.
  intros Hs Hi Hc o. subst o.
  pose proof (splice_one_length i (playlist w) (proj1 Hi)) as Hlen.
  assert (Hsp : splice_one i (playlist w) = remove_at (Z.to_nat i) (playlist w)).
  { unfold splice_one. unfold getTrackCount in Hi.
    destruct (Z.ltb_spec i 0); [lia|]. now rewrite Z.min_l by lia. }
  unfold getTrackCount in *.
  destruct (Z.ltb_spec i (Z.of_nat (length (playlist w)))); [|lia].
  unfold removeClicked. rewrite bind_gets.
  destruct (Z.eqb_spec i (currentIndex w)); [|contradiction].
  rewrite !bind_modify. cbn [when]. unfold detached. rewrite try_eq.
  cbn [result world events].
  match goal with
  | |- context [stopTrack r ?w0] =>
      destruct (stopTrack_pauses_first r w0) as [rest Hfirst];
      destruct (stopTrack_ready r w0)
        as (tm' & ct' & su' & evs & Eq & Htick & _ & Hnoplay & _ & _ & _);
        [open_world w; exact Hs|]; rewrite Eq in *; clear Eq
  end.
  cbn [events] in Hfirst. subst evs.
  open_world w. cbn [world events currentIndex isPlaying timing player playlist
    rafId pauseLowPowerTimer nodeConnected tickConnected set_playlist
    set_currentIndex] in *.
  rewrite Hsp in *.
  repeat split; try assumption; try lia; try (intros; apply remove_at_nth).
  now left.
Qed.

(** One entry, playing: remove it. *)
Lemma remove_current_stops_witness :
  let w := world (togglePlayPause quiet (initial_world [sample_item])) in
  let o := removeClicked 0 quiet w in
  isPlaying w = true
  /\ currentIndex (world o) = -1
  /\ isPlaying (world o) = false
  /\ getTrackCount (world o) = 0.
Proof.
  intros w o.
  destruct (remove_current_stops 0 quiet w) as (_ & Hidx & Hplay & _ & _ & _ & _ & _ & Hlen & _).
  - reflexivity.
  - split; [lia|reflexivity].
  - reflexivity.
  - repeat split; assumption.
Defined.

(* ===================================================================== *)
(** ** Next and Previous *)
(* ===================================================================== *)

(** Loading an entry and playing it, adapter initialised: what is left
    of the page. *)
Lemma load_then_play (n : Z) (r : Replies) (w : World) :
  synth (player w) = true -> 0 <= n < getTrackCount w ->
  let o := (loadTrack n r ;; detached playTrack) w in
  result o = Normal tt
  /\ currentIndex (world o) = n
  /\ isPlaying (world o) = true
  /\ synth (player (world o)) = true
  /\ playlist (world o) = playlist w
  /\ loopOn (world o) = loopOn w
  /\ autoplay (world o) = autoplay w
  /\ In CallPlay (events o).
Proof.
  intros Hs Hn o. subst o.
  destruct (nth_error (playlist w) (Z.to_nat n)) as [item|] eqn:Hnth.
  2:{ apply nth_error_None in Hnth. unfold getTrackCount in Hn. lia. }
  destruct (loadTrack_ready n r w item Hs (proj1 Hn) Hnth)
    as (tm' & ct' & ls' & su' & evs & E & _).
  unfold bind. rewrite E. unfold detached. rewrite try_eq.
  match goal with
  | |- context [playTrack ?W] =>
      rewrite (playTrack_ready W eq_refl ltac:(cbn [currentIndex]; lia))
  end.
  cbn [result world events currentIndex isPlaying player synth playlist loopOn autoplay].
  repeat split. apply in_or_app. right. cbn [app]. in_trace.
Qed.

Lemma nextTrack_loads_next (r : Replies) (w : World) :
  0 < getTrackCount w ->
  nextTrack r w = (loadTrack (getNextIndexForButton w) r ;; detached playTrack) w.
Proof.
  intros Hlen. unfold nextTrack. rewrite bind_gets.
  destruct (Z.eqb_spec (getTrackCount w) 0); [lia|]. now rewrite bind_gets.
Qed.

Lemma prevTrack_loads_previous (r : Replies) (w : World) :
  0 < getTrackCount w ->
  prevTrack r w = (loadTrack (getPrevIndexForButton w) r ;; detached playTrack) w.
Proof.
  intros Hlen. unfold prevTrack. rewrite bind_gets.
  destruct (Z.eqb_spec (getTrackCount w) 0); [lia|]. now rewrite bind_gets.
Qed.

Lemma next_index_in_range (w : World) :
  0 < getTrackCount w -> -1 <= currentIndex w < getTrackCount w ->
  getNextIndexForButton w = (currentIndex w + 1) mod getTrackCount w
  /\ 0 <= getNextIndexForButton w < getTrackCount w.
Proof.
  intros Hlen Hc. unfold getNextIndexForButton, js_rem.
  destruct (Z.eqb_spec (getTrackCount w) 0); [lia|].
  rewrite Z.rem_mod_nonneg by lia.
  split; [reflexivity|]. apply Z.mod_pos_bound. lia.
Qed.

Lemma prev_index_in_range (w : World) :
  0 < getTrackCount w -> 0 <= currentIndex w < getTrackCount w ->
  getPrevIndexForButton w = (currentIndex w - 1) mod getTrackCount w
  /\ 0 <= getPrevIndexForButton w < getTrackCount w.
Proof.
  intros Hlen Hc. unfold getPrevIndexForButton, js_rem.
  destruct (Z.eqb_spec (getTrackCount w) 0); [lia|].
  rewrite Z.rem_mod_nonneg by lia.
  replace (currentIndex w - 1 + getTrackCount w)
    with (currentIndex w - 1 + 1 * getTrackCount w) by lia.
  rewrite Z.mod_add by lia.
  split; [reflexivity|]. apply Z.mod_pos_bound. lia.
Qed.

(** X11. The Next and Previous buttons undo each other.  With the adapter
    initialised and a track of the playlist selected, Next loads and
    plays the entry after the current one, the first after the last;
    Previous the entry before it, the last before the first; and pressing
    one and then the other leaves the track selected that was selected
    before. *)
Theorem next_and_previous_undo (r1 r2 : Replies) (w : World) :
  synth (player w) = true -> 0 <= currentIndex w < getTrackCount w ->
  let len := getTrackCount w in
  currentIndex (world (nextTrack r1 w)) = (currentIndex w + 1) mod len
  /\ currentIndex (world (prevTrack r1 w)) = (currentIndex w - 1) mod len
  /\ isPlaying (world (nextTrack r1 w)) = true
  /\ isPlaying (world (prevTrack r1 w)) = true
  /\ currentIndex (world (prevTrack r2 (world (nextTrack r1 w)))) = currentIndex w
  /\ currentIndex (world (nextTrack r2 (world (prevTrack r1 w)))) = currentIndex w.
Proof.
  intros Hs Hc len. assert (Hlen : 0 < len) by (unfold len; lia).
  destruct (next_index_in_range w Hlen ltac:(lia)) as [En Hn].
  destruct (prev_index_in_range w Hlen Hc) as [Ep Hp].
  rewrite (nextTrack_loads_next r1 w Hlen), (prevTrack_loads_previous r1 w Hlen).
  destruct (load_then_play _ r1 w Hs Hn) as (_ & In1 & Ip1 & Is1 & Il1 & _).
  destruct (load_then_play _ r1 w Hs Hp) as (_ & In2 & Ip2 & Is2 & Il2 & _).
  set (wn := world ((loadTrack (getNextIndexForButton w) r1;; detached playTrack) w)) in *.
  set (wp := world ((loadTrack (getPrevIndexForButton w) r1;; detached playTrack) w)) in *.
  assert (Ln : getTrackCount wn = len) by (unfold getTrackCount, len; now rewrite Il1).
  assert (Lp : getTrackCount wp = len) by (unfold getTrackCount, len; now rewrite Il2).
  split; [now rewrite In1, En|]. split; [now rewrite In2, Ep|].
  split; [exact Ip1|]. split; [exact Ip2|].
  split.
  - rewrite (prevTrack_loads_previous r2 wn) by lia.
    destruct (prev_index_in_range wn ltac:(lia) ltac:(lia)) as [E H].
    destruct (load_then_play _ r2 wn Is1 H) as (_ & -> & _).
    rewrite E, Ln, In1, En. fold len.
    rewrite Zminus_mod_idemp_l. replace (currentIndex w + 1 - 1) with (currentIndex w) by lia.
    apply Z.mod_small. exact Hc.
  - rewrite (nextTrack_loads_next r2 wp) by lia.
    destruct (next_index_in_range wp ltac:(lia) ltac:(lia)) as [E H].
    destruct (load_then_play _ r2 wp Is2 H) as (_ & -> & _).
    rewrite E, Lp, In2, Ep. fold len.
    rewrite Zplus_mod_idemp_l. replace (currentIndex w - 1 + 1) with (currentIndex w) by lia.
    apply Z.mod_small. exact Hc.
Qed.

(** Three entries, the last one current: Next goes to the first, and
    Previous comes back. *)
Lemma next_and_previous_undo_witness :
  let w := playing_last_tick 3 2 false true in
  currentIndex (world (nextTrack quiet w)) = 0
  /\ currentIndex (world (prevTrack quiet (world (nextTrack quiet w)))) = 2.
Proof.
  intros w.
  destruct (next_and_previous_undo quiet quiet w) as (Hn & _ & _ & _ & Hb & _).
  - reflexivity.
  - split; [discriminate|reflexivity].
  - split; [exact Hn|exact Hb].
Defined.

(** X12. With no track selected and a playlist that is not empty, Next
    loads and plays the first entry, and Previous loads and plays the
    entry before the last one (the only entry when there is one): the
    index -1 is stepped from like any other. *)
Theorem buttons_from_no_selection (r : Replies) (w : World) :
  synth (player w) = true -> currentIndex w = -1 -> 0 < getTrackCount w ->
  currentIndex (world (nextTrack r w)) = 0
  /\ currentIndex (world (prevTrack r w))
     = (if getTrackCount w =? 1 then 0 else getTrackCount w - 2)
  /\ isPlaying (world (nextTrack r w)) = true
  /\ isPlaying (world (prevTrack r w)) = true.
Proof.
  intros Hs Hc Hlen.
  assert (En : getNextIndexForButton w = 0).
  { unfold getNextIndexForButton, js_rem. rewrite Hc.
    destruct (Z.eqb_spec (getTrackCount w) 0); [lia|]. apply Z.rem_0_l. lia. }
  assert (Ep : getPrevIndexForButton w
               = if getTrackCount w =? 1 then 0 else getTrackCount w - 2).
  { unfold getPrevIndexForButton, js_rem. rewrite Hc.
    destruct (Z.eqb_spec (getTrackCount w) 0); [lia|].
    destruct (Z.eqb_spec (getTrackCount w) 1) as [E|E].
    - rewrite E. reflexivity.
    - rewrite Z.rem_small by lia. lia. }
  rewrite (nextTrack_loads_next r w Hlen), (prevTrack_loads_previous r w Hlen).
  destruct (load_then_play (getNextIndexForButton w) r w Hs ltac:(lia))
    as (_ & In1 & Ip1 & _).
  destruct (load_then_play (getPrevIndexForButton w) r w Hs)
    as (_ & In2 & Ip2 & _).
  { rewrite Ep. destruct (Z.eqb_spec (getTrackCount w) 1); lia. }
  repeat split; congruence.
Qed.

(** Four entries, none selected: Previous starts the third. *)
Lemma buttons_from_no_selection_witness :
  let w := initial_world [sample_item; sample_item; sample_item; sample_item] in
  currentIndex (world (nextTrack quiet w)) = 0
  /\ currentIndex (world (prevTrack quiet w)) = 2.
Proof.
  intros w.
  destruct (buttons_from_no_selection quiet w) as (Hn & Hp & _).
  - reflexivity.
  - reflexivity.
  - reflexivity.
  - split; [exact Hn|exact Hp].
Defined.

(* ===================================================================== *)
(** ** Pause and resume, rewind, and the controls with nothing to play *)
(* ===================================================================== *)

(** X13. Play after Pause goes on from where the synthesizer was when it
    was paused.  With the adapter initialised and a track selected,
    [pauseTrack] keeps the tick the synthesizer reports (the tick held
    before when it reports none); the play button then plays without
    loading anything: it seeks the adapter to that tick, then calls play,
    and the transport is playing again with the playhead at that tick. *)
Theorem resume_where_paused (r r' : Replies) (w : World) :
  synth (player w) = true -> 0 <= currentIndex w ->
  let tick := match tickReply r with
              | Some t => t
              | None => currentTick (timing w)
              end in
  let paused := world (pauseTrack r w) in
  let o := togglePlayPause r' paused in
  isPlaying paused = false
  /\ currentTick (timing paused) = tick
  /\ result o = Normal tt
  /\ isPlaying (world o) = true
  /\ currentTick (timing (world o)) = tick
  /\ In CallPlay (events o)
  /\ precedes (CallSeek (VNum (num tick))) CallPlay (events o)
  /\ (forall bytes, ~ In (CallLoadMIDI bytes) (events o)).
Proof.
  intros Hs Hidx tick paused o.
  destruct (pauseTrack_ready r w Hs) as (tm' & su' & evs & E & Htick & _).
  fold tick in Htick.
  unfold o, paused. clear o paused. rewrite E. cbn [world].
  unfold togglePlayPause. rewrite bind_gets. cbn [isPlaying].
  rewrite !bind_gets. cbn [currentIndex].
  destruct (Z.eqb_spec (currentIndex w) (-1)); [lia|].
  cbn [andb when]. rewrite bind_ret_l. unfold detached. rewrite try_eq.
  match goal with
  | |- context [playTrack ?W] => rewrite (playTrack_ready W eq_refl Hidx)
  end.
  cbn [result world events timing isPlaying currentTick player nodeConnected
       tickConnected rafId pauseLowPowerTimer].
  rewrite Htick.
  split; [reflexivity|]. split; [reflexivity|]. split; [reflexivity|].
  split; [reflexivity|]. split; [reflexivity|].
  split; [in_trace|].
  split; [cbn [app]; apply precedes_head; discriminate|].
  intros bytes. destruct (nodeConnected (player w)); not_in_trace.
Qed.

(** Paused while the synthesizer was at tick 40. *)
Lemma resume_where_paused_witness :
  let w := world (togglePlayPause quiet (initial_world [sample_item])) in
  let paused := world (pauseTrack (at_tick 40) w) in
  currentTick (timing paused) = 40
  /\ precedes (CallSeek (VNum (num 40))) CallPlay (events (togglePlayPause quiet paused)).
Proof.
  intros w paused.
  destruct (resume_where_paused (at_tick 40) quiet w) as (_ & Ht & _ & _ & _ & _ & Hp & _).
  - reflexivity.
  - discriminate.
  - split; [exact Ht|exact Hp].
Defined.

(** X14. Rewind goes to the beginning without changing whether the player
    plays.  With the adapter initialised and a track selected,
    [rewindToBeginning] seeks the synthesizer to tick 0, directly and
    through the adapter, and sends nothing else but queries; it calls
    neither play nor pause, and the transport flag and the selection stay
    as they were.  The playhead is left at 0 when the transport is not
    playing; while it is playing, the timeline update that ends the
    function reads the position back, and the playhead is left at what
    the synthesizer answers. *)
Theorem rewind_keeps_play_state (r : Replies) (w : World) :
  synth (player w) = true -> currentIndex w <> -1 ->
  let o := rewindToBeginning r w in
  result o = Normal tt
  /\ isPlaying (world o) = isPlaying w
  /\ currentIndex (world o) = currentIndex w
  /\ playing (player (world o)) = playing (player w)
  /\ (exists queries,
        events o = [SeekPlayer (num 0); CallSeek (VNum (num 0)); SeekPlayer (num 0)]
                   ++ queries
        /\ Forall is_query queries)
  /\ currentTick (timing (world o))
     = (if isPlaying w && negb (suppressFirstSynthRead w)
        then match tickReply r with Some t => t | None => 0 end
        else 0).
Proof.
  intros Hs Hidx o. subst o.
  unfold rewindToBeginning. rewrite bind_gets.
  destruct (Z.eqb_spec (currentIndex w) (-1)); [contradiction|].
  open_world w. cbn [player synth] in Hs. subst sy.
  destruct r as [tk tt' tp la lt lp sp].
  unfold updateTimeline, updateTimeline_begin, updateTimeline_resume.
  assert (Hq : forall q, is_query (Ask q)) by (intros q; now exists q).
  destruct ip, su, tk as [tk|]; exec;
    (destruct (Z.eqb_spec tot 0); exec; cbn [app];
     (split; [reflexivity|]); (split; [reflexivity|]); (split; [reflexivity|]);
     (split; [reflexivity|]);
     (split; [eexists; split; [reflexivity|repeat constructor; apply Hq]|reflexivity])).
Qed.

(** Rewind while playing, the synthesizer still at tick 57 when asked. *)
Lemma rewind_keeps_play_state_witness :
  let w := set_suppressFirstSynthRead false
             (world (togglePlayPause quiet (initial_world [sample_item]))) in
  let o := rewindToBeginning (at_tick 57) w in
  isPlaying (world o) = true /\ currentTick (timing (world o)) = 57.
Proof.
  intros w o.
  destruct (rewind_keeps_play_state (at_tick 57) w) as (_ & Hp & _ & _ & _ & Ht).
  - reflexivity.
  - discriminate.
  - split; [exact Hp|exact Ht].
Defined.

(** X15. With an empty playlist and nothing selected or playing, the
    controls other than Stop do nothing at all: the play button, Next,
    Previous, Rewind, a UI frame, a heartbeat, and every key but S leave
    the page as it is and send nothing (making the adapter, which
    [ensurePlayer] does when there is none, apart). *)
Theorem nothing_to_play (r : Replies) (cached : bool) (turns : list bool) (w : World) :
  playlist w = [] -> currentIndex w = -1 -> isPlaying w = false ->
  (forall op, In op [OpToggle r; OpNext r; OpPrev r; OpRewind r; OpPlay;
                     OpFrame r cached turns; OpHeartbeat r; OpLoad 0 r] ->
     perform op w = mkOutcome (Normal tt) w [])
  /\ (forall code key, key <> "s"%string -> key <> "S"%string ->
      keydown code key r w = mkOutcome (Normal tt) w []).
Proof.
  intros Hp Hc Hi.
  open_world w. cbn [playlist currentIndex isPlaying] in *. subst pls ci ip.
  assert (Hops : forall op, In op [OpToggle r; OpNext r; OpPrev r; OpRewind r; OpPlay;
                                   OpFrame r cached turns; OpHeartbeat r; OpLoad 0 r] ->
     perform op (mkWorld (mkTiming cur tot tempo pq spt) (mkPlayer sy nc tc pl ct ls)
                   [] (-1) false ap lo su ra pt pe)
     = mkOutcome (Normal tt)
         (mkWorld (mkTiming cur tot tempo pq spt) (mkPlayer sy nc tc pl ct ls)
            [] (-1) false ap lo su ra pt pe) []).
  { intros op Hop. cbn [In] in Hop.
    repeat (destruct Hop as [<-|Hop]; [reflexivity|]). destruct Hop. }
  split; [exact Hops|].
  intros code key Hs1 Hs2. unfold keydown.
  apply String.eqb_neq in Hs1, Hs2. rewrite Hs1, Hs2. cbn [orb].
  pose proof (Hops (OpToggle r) ltac:(cbn; auto)) as Ht.
  pose proof (Hops (OpNext r) ltac:(cbn; auto)) as Hn.
  pose proof (Hops (OpPrev r) ltac:(cbn; auto)) as Hv.
  pose proof (Hops (OpRewind r) ltac:(cbn; auto)) as Hr.
  cbn [perform] in Ht, Hn, Hv, Hr.
  unfold detached.
  destruct (String.eqb code "Space"); [now rewrite try_eq, Ht|].
  destruct (String.eqb code "ArrowRight"); [now rewrite try_eq, Hn|].
  destruct (String.eqb code "ArrowLeft"); [now rewrite try_eq, Hv|].
  destruct (String.eqb code "ArrowDown"); [now rewrite try_eq, Hr|].
  reflexivity.
Qed.

(** The page as it is first shown, with the space bar pressed. *)
Lemma nothing_to_play_witness :
  keydown "Space" " " quiet (initial_world [])
  = mkOutcome (Normal tt) (initial_world []) [].
Proof.
  apply (nothing_to_play quiet true [] (initial_world [])); try reflexivity; discriminate.
Defined.

(* ===================================================================== *)
(** ** Before the adapter is initialised *)
(* ===================================================================== *)

(** X16. While the adapter exists but has no synthesizer yet (a control
    used while [ensurePlayer] still waits for the adapter it has just
    made), the transport cannot be started: [pauseTrack] and [stopTrack] throw at their call of
    [player.pause()] and change nothing; [playTrack] throws at
    [player.play()], before the transport flag is set.  The play button
    pressed then on a page with files and nothing selected reports the
    failed load with an alert, and leaves the first entry selected and
    the transport not playing.  After that, once the adapter is
    initialised, the play button no longer loads the entry, since one is
    selected: it tells the synthesizer to play, and no file has been
    handed to it. *)
Theorem controls_before_ready (r r' : Replies) (w : World) :
  synth (player w) = false ->
  (0 <= currentIndex w ->
     result (playTrack w) = Thrown
     /\ isPlaying (world (playTrack w)) = isPlaying w
     /\ ~ In PlayPlayer (events (playTrack w)))
  /\ pauseTrack r w = mkOutcome Thrown w [CallPause]
  /\ stopTrack r w = mkOutcome Thrown w [CallPause]
  /\ (isPlaying w = false -> currentIndex w = -1 ->
      forall item rest, playlist w = item :: rest ->
      let o := togglePlayPause r w in
      result o = Normal tt
      /\ In Alert (events o)
      /\ isPlaying (world o) = false
      /\ currentIndex (world o) = 0
      /\ (forall bytes, ~ In (AddSMFDataToPlayer bytes) (events o))
      /\ let o' := togglePlayPause r' (upd_player initialised (world o)) in
         isPlaying (world o') = true
         /\ In PlayPlayer (events o')
         /\ (forall bytes, ~ In (CallLoadMIDI bytes) (events o'))
         /\ (forall bytes, ~ In (AddSMFDataToPlayer bytes) (events o'))).
Proof.
  intros Hs. open_world w. cbn [player synth] in Hs. subst sy.
  split; [|split; [|split]].
  - intros Hidx. cbn [currentIndex] in Hidx. unfold playTrack. rewrite bind_gets.
    cbn [currentIndex]. destruct (Z.ltb_spec ci 0); [lia|].
    exec. repeat split. not_in_trace.
  - destruct r as [tk tt' tp la lt lp sp]. unfold pauseTrack, pauseTrack_resume.
    exec. reflexivity.
  - unfold stopTrack. exec. reflexivity.
  - intros Hip Hci item rest Hpl.
    cbn [isPlaying currentIndex playlist] in Hip, Hci, Hpl. subst ip ci pls.
    assert (Eo : togglePlayPause r
                   (mkWorld (mkTiming cur tot tempo pq spt) (mkPlayer false nc tc pl ct ls)
                      (item :: rest) (-1) false ap lo su ra pt pe)
                 = mkOutcome (Normal tt)
                     (mkWorld (mkTiming cur tot tempo pq spt)
                        (mkPlayer false nc tc pl ct ls)
                        (item :: rest) 0 false ap lo true ra pt pe)
                     [CallPause; Alert; CallSeek (VNum (num cur)); CallPlay; CtxResume]).
    { unfold togglePlayPause. rewrite bind_gets. cbn [isPlaying].
      rewrite !bind_gets. cbn [currentIndex]. rewrite Z.eqb_refl.
      unfold getTrackCount at 1. cbn [playlist length].
      replace (0 <? Z.of_nat (S (length rest))) with true
        by (symmetry; apply Z.ltb_lt; lia).
      cbn [andb when].
      pose proof (loadTrack_not_ready 0 r
                    (mkWorld (mkTiming cur tot tempo pq spt) (mkPlayer false nc tc pl ct ls)
                       (item :: rest) (-1) false ap lo su ra pt pe)
                    item eq_refl ltac:(lia) eq_refl) as E.
      unfold bind at 1. rewrite E. clear E. unfold detached. rewrite try_eq.
      unfold playTrack. rewrite bind_gets.
      cbn [set_currentIndex currentIndex timing player playlist
           isPlaying autoplay loopOn suppressFirstSynthRead rafId
           pauseLowPowerTimer pendingTimeout world events].
      exec. reflexivity. }
    intros o. subst o. rewrite Eo. cbn [result world events].
    split; [reflexivity|]. split; [in_trace|]. split; [reflexivity|].
    split; [reflexivity|]. split; [intros bytes; not_in_trace|].
    cbv zeta. unfold upd_player, initialised.
    cbn [timing player playlist currentIndex isPlaying autoplay loopOn
         suppressFirstSynthRead rafId pauseLowPowerTimer pendingTimeout
         playing currentTime lastSmfBytes].
    unfold togglePlayPause. rewrite bind_gets. cbn [isPlaying].
    rewrite !bind_gets. cbn [currentIndex Z.eqb andb when]. rewrite bind_ret_l.
    rewrite try_eq.
    match goal with
    | |- context [playTrack ?W] => rewrite (playTrack_ready W eq_refl ltac:(cbn; lia))
    end.
    cbn [world events isPlaying player nodeConnected tickConnected rafId
         pauseLowPowerTimer app].
    split; [reflexivity|]. split; [in_trace|].
    split; intros bytes; destruct ra, pt; not_in_trace.
Qed.

(** A page with one file, the play button pressed too early, and again
    when the adapter is ready. *)
Lemma controls_before_ready_witness :
  let w := mkWorld TimingState_new (mkPlayer false false false false 0 None)
             [sample_item] (-1) false true false false false false None in
  let o := togglePlayPause quiet w in
  let o' := togglePlayPause quiet (upd_player initialised (world o)) in
  In Alert (events o)
  /\ isPlaying (world o') = true
  /\ forall bytes, ~ In (AddSMFDataToPlayer bytes) (events o ++ events o').
Proof.
  intros w o o'.
  destruct (controls_before_ready quiet quiet w eq_refl) as (_ & _ & _ & H).
  destruct (H eq_refl eq_refl sample_item [] eq_refl)
    as (_ & Ha & _ & _ & Hn & Hp & _ & _ & Hn').
  split; [exact Ha|]. split; [exact Hp|].
  intros bytes Hin. apply in_app_or in Hin. destruct Hin as [Hin|Hin].
  - now apply (Hn bytes).
  - now apply (Hn' bytes).
Defined.

(* ===================================================================== *)
(** ** Track after track *)
(* ===================================================================== *)

(** One end of track in a playlist of several entries: the entry that
    [getNextIndexForPlayer] names is loaded and played, or the player
    stops where it is. *)
Lemma end_of_track_step (r : Replies) (w : World) :
  isPlaying w = true -> synth (player w) = true -> end_declared r w = true ->
  0 <= currentIndex w < getTrackCount w -> 2 <= getTrackCount w ->
  let w' := world (checkForTrackEnd r w) in
  playlist w' = playlist w /\ loopOn w' = loopOn w /\ autoplay w' = autoplay w
  /\ synth (player w') = true
  /\ match getNextIndexForPlayer w with
     | Some n => currentIndex w' = n /\ isPlaying w' = true
     | None => currentIndex w' = currentIndex w /\ isPlaying w' = false
     end.
Proof.
  intros Hip Hs Hend Hidx Hlen w'. subst w'.
  rewrite (checkForTrackEnd_declared r w Hip Hs Hend). cbn [world].
  unfold onEnded. rewrite bind_modify, !bind_gets.
  assert (Hl : getTrackCount (set_isPlaying false w) = getTrackCount w) by now destruct w.
  assert (Hn : getNextIndexForPlayer (set_isPlaying false w) = getNextIndexForPlayer w)
    by now destruct w.
  rewrite Hl.
  destruct (Z.eqb_spec (getTrackCount w) 1); [lia|].
  rewrite bind_gets, Hn.
  destruct (getNextIndexForPlayer w) as [k|] eqn:En.
  - assert (Hr : 0 <= k < getTrackCount w).
    { unfold getNextIndexForPlayer, hasSingleTrack, js_rem in En.
      destruct (Z.eqb_spec (getTrackCount w) 0); [lia|].
      destruct (Z.eqb_spec (getTrackCount w) 1); [lia|].
      destruct (loopOn w).
      - injection En as <-. rewrite Z.rem_mod_nonneg by lia.
        apply Z.mod_pos_bound. lia.
      - destruct (autoplay w); [|discriminate].
        destruct (Z.ltb_spec (currentIndex w) (getTrackCount w - 1)); [|discriminate].
        injection En as <-. lia. }
    destruct (nth_error (playlist w) (Z.to_nat k)) as [item|] eqn:Hnth.
    2:{ apply nth_error_None in Hnth. unfold getTrackCount in Hr. lia. }
    unfold detached. rewrite try_eq. cbn [world].
    destruct (loadTrack_ready k r (set_isPlaying false w) item)
      as (tm' & ct' & ls' & su' & evs & E & _);
      [now destruct w|lia|now destruct w|].
    unfold bind. rewrite E.
    match goal with
    | |- context [playTrack ?W] =>
        rewrite (playTrack_ready W eq_refl ltac:(cbn [currentIndex]; lia))
    end.
    destruct w. cbn. repeat split.
  - unfold detached. rewrite try_eq. cbn [world].
    destruct (stopTrack_ready r (set_isPlaying false w)) as (tm' & ct' & su' & evs & E & _);
      [now destruct w|].
    rewrite E. destruct w. cbn. repeat split.
Qed.

Lemma heartbeats_step (r : Replies) (rs : list Replies) (w : World) :
  world (run (map OpHeartbeat (r :: rs)) w)
  = world (run (map OpHeartbeat rs) (world (checkForTrackEnd r w))).
Proof.
  cbn [map run perform]. unfold detached, heartbeat. unfold bind at 1.
  rewrite try_eq.
  destruct (run (map OpHeartbeat rs) (world (checkForTrackEnd r w))). reflexivity.
Qed.

Lemma end_declared_stopped (r : Replies) (w : World) :
  synthPlaying r = false -> end_declared r w = true.
Proof. intros H. unfold end_declared. rewrite H. apply orb_true_r. Qed.

(** X17. With Loop on and several entries, the player goes round the
    playlist: each time the synthesizer is found stopped at the end of a
    track, the next entry is loaded and played, the first after the last,
    so that after [n] ends of track the entry [n] places further on,
    counted round the playlist, is playing. *)
Theorem loop_goes_round (rs : list Replies) (w : World) :
  isPlaying w = true -> synth (player w) = true -> loopOn w = true ->
  2 <= getTrackCount w -> 0 <= currentIndex w < getTrackCount w ->
  Forall (fun r => synthPlaying r = false) rs ->
  let w' := world (run (map OpHeartbeat rs) w) in
  currentIndex w' = (currentIndex w + Z.of_nat (length rs)) mod getTrackCount w
  /\ isPlaying w' = true
  /\ playlist w' = playlist w.
Proof.
  intros Hip Hs Hloop Hlen Hidx Hrs. revert w Hip Hs Hloop Hlen Hidx.
  induction Hrs as [|r rs Hr _ IH]; intros w Hip Hs Hloop Hlen Hidx w'; subst w'.
  - cbn [map run length ret world]. rewrite Z.add_0_r.
    split; [symmetry; now apply Z.mod_small|]. split; [exact Hip|reflexivity].
  - rewrite heartbeats_step.
    destruct (end_of_track_step r w Hip Hs (end_declared_stopped r w Hr) Hidx Hlen)
      as (Hpl & Hlo & _ & Hsy & Hnext).
    assert (En : getNextIndexForPlayer w = Some ((currentIndex w + 1) mod getTrackCount w)).
    { unfold getNextIndexForPlayer, hasSingleTrack, js_rem.
      destruct (Z.eqb_spec (getTrackCount w) 0); [lia|].
      destruct (Z.eqb_spec (getTrackCount w) 1); [lia|].
      rewrite Hloop. now rewrite Z.rem_mod_nonneg by lia. }
    rewrite En in Hnext. destruct Hnext as [Hci Hp].
    set (w1 := world (checkForTrackEnd r w)) in *.
    assert (Hl1 : getTrackCount w1 = getTrackCount w)
      by (unfold getTrackCount; now rewrite Hpl).
    specialize (IH w1 Hp Hsy ltac:(congruence) ltac:(lia)).
    rewrite Hl1, Hci in IH.
    destruct IH as (Hc' & Hp' & Hpl').
    { apply Z.mod_pos_bound. lia. }
    split; [|split; [exact Hp'|congruence]].
    rewrite Hc'. cbn [length]. rewrite Zplus_mod_idemp_l. f_equal. lia.
Qed.

(** Three entries, the second playing: four ends of track lead to the
    third. *)
Lemma loop_goes_round_witness :
  currentIndex (world (run (map OpHeartbeat [quiet_end; quiet_end; quiet_end; quiet_end])
                           (playing_last_tick 3 1 true false))) = 2.
Proof.
  apply (loop_goes_round [quiet_end; quiet_end; quiet_end; quiet_end]
           (playing_last_tick 3 1 true false)); try reflexivity.
  - discriminate.
  - split; [discriminate|reflexivity].
  - repeat constructor.
Defined.

(** X18. With Autoplay on and Loop off, the player plays the rest of the
    playlist once and stops on the last entry: after [n] ends of track
    the entry [n] places further on is playing, as long as there is one;
    the end of the last entry stops the player, which stays on that entry
    and plays no more, whatever heartbeats follow. *)
Theorem autoplay_plays_to_the_end (rs : list Replies) (w : World) :
  isPlaying w = true -> synth (player w) = true ->
  loopOn w = false -> autoplay w = true ->
  2 <= getTrackCount w -> 0 <= currentIndex w < getTrackCount w ->
  Forall (fun r => synthPlaying r = false) rs ->
  let w' := world (run (map OpHeartbeat rs) w) in
  let target := currentIndex w + Z.of_nat (length rs) in
  currentIndex w' = Z.min target (getTrackCount w - 1)
  /\ isPlaying w' = (target <? getTrackCount w).
Proof.
  intros Hip Hs Hloop Hauto Hlen Hidx Hrs.
  (* once stopped, heartbeats change nothing *)
  assert (Hidle : forall rs' w0, isPlaying w0 = false ->
                  world (run (map OpHeartbeat rs') w0) = w0).
  { induction rs' as [|r' rs' IH']; intros w0 H0; [reflexivity|].
    rewrite heartbeats_step.
    assert (E : checkForTrackEnd r' w0 = mkOutcome (Normal tt) w0 []).
    { unfold checkForTrackEnd. rewrite try_eq. unfold the_synth.
      rewrite !bind_gets, H0. reflexivity. }
    rewrite E. cbn [world]. now apply IH'. }
  revert w Hip Hs Hloop Hauto Hlen Hidx.
  induction Hrs as [|r rs Hr _ IH]; intros w Hip Hs Hloop Hauto Hlen Hidx w' target;
    subst w' target.
  - cbn [map run length ret world]. rewrite Z.add_0_r.
    rewrite Z.min_l by lia. split; [reflexivity|].
    rewrite Hip. symmetry. apply Z.ltb_lt. lia.
  - rewrite heartbeats_step.
    destruct (end_of_track_step r w Hip Hs (end_declared_stopped r w Hr) Hidx Hlen)
      as (Hpl & Hlo & Hau & Hsy & Hnext).
    set (w1 := world (checkForTrackEnd r w)) in *.
    assert (Hl1 : getTrackCount w1 = getTrackCount w)
      by (unfold getTrackCount; now rewrite Hpl).
    assert (En : getNextIndexForPlayer w
                 = if currentIndex w <? getTrackCount w - 1
                   then Some (currentIndex w + 1) else None).
    { unfold getNextIndexForPlayer, hasSingleTrack.
      destruct (Z.eqb_spec (getTrackCount w) 0); [lia|].
      destruct (Z.eqb_spec (getTrackCount w) 1); [lia|].
      now rewrite Hloop, Hauto. }
    rewrite En in Hnext. cbn [length].
    destruct (Z.ltb_spec (currentIndex w) (getTrackCount w - 1)) as [Hlt|Hge].
    + destruct Hnext as [Hci Hp].
      specialize (IH w1 Hp Hsy ltac:(congruence) ltac:(congruence) ltac:(lia) ltac:(lia)).
      cbv zeta in IH. rewrite Hl1, Hci in IH. destruct IH as [Hc' Hp'].
      rewrite Hc', Hp'.
      replace (currentIndex w + 1 + Z.of_nat (length rs))
        with (currentIndex w + Z.of_nat (S (length rs))) by lia.
      split; reflexivity.
    + destruct Hnext as [Hci Hp]. rewrite (Hidle rs w1 Hp), Hci, Hp.
      rewrite Z.min_r by lia. split; [lia|].
      symmetry. apply Z.ltb_ge. lia.
Qed.

(** Four entries, the second playing: two ends of track lead to the
    last, a third stops the player there. *)
Lemma autoplay_plays_to_the_end_witness :
  let w := playing_last_tick 4 1 false true in
  let after rs := world (run (map OpHeartbeat rs) w) in
  (currentIndex (after [quiet_end; quiet_end]) = 3
   /\ isPlaying (after [quiet_end; quiet_end]) = true)
  /\ (currentIndex (after [quiet_end; quiet_end; quiet_end]) = 3
      /\ isPlaying (after [quiet_end; quiet_end; quiet_end]) = false).
Proof.
  intros w after. split.
  - apply (autoplay_plays_to_the_end [quiet_end; quiet_end] w); try reflexivity.
    + discriminate.
    + split; [discriminate|reflexivity].
    + repeat constructor.
  - apply (autoplay_plays_to_the_end [quiet_end; quiet_end; quiet_end] w); try reflexivity.
    + discriminate.
    + split; [discriminate|reflexivity].
    + repeat constructor.
Defined.

(* ===================================================================== *)
(** ** Stop *)
(* ===================================================================== *)

(** X19. Stop always brings the synthesizer back to tick 0 and never throws
    once the adapter is initialised.  When the adapter has cached the
    bytes of a track, [stopTrack] resets the player of the synthesizer,
    hands it these bytes again and seeks it to 0; when the synthesizer
    rejects the bytes, or when no bytes are cached, it falls back on
    [player.seek(0)].  In each case the transport is left not playing
    with the playhead at 0, both audio nodes are disconnected, the
    context is told to suspend, no UI frame and no timer stay pending,
    and play is not called. *)
Theorem stop_rewinds_the_synthesizer (r : Replies) (w : World) :
  synth (player w) = true ->
  let o := stopTrack r w in
  result o = Normal tt
  /\ isPlaying (world o) = false
  /\ currentTick (timing (world o)) = 0
  /\ (exists rest,
        events o
        = match lastSmfBytes (player w) with
          | Some smf =>
              [CallPause; StopPlayer; StopPlayer; ResetPlayer; AddSMFDataToPlayer smf]
              ++ (if loadAccepted r then [SeekPlayer (num 0)]
                  else [CallSeek (VNum (num 0)); SeekPlayer (num 0)])
          | None => [CallPause; StopPlayer; CallSeek (VNum (num 0)); SeekPlayer (num 0)]
          end ++ rest
        /\ ~ In CallPlay rest /\ ~ In PlayPlayer rest
        /\ In CtxSuspendAfterDrain rest)
  /\ nodeConnected (player (world o)) = false
  /\ tickConnected (player (world o)) = false
  /\ rafId (world o) = false
  /\ pauseLowPowerTimer (world o) = false
  /\ (pauseLowPowerTimer w = true -> pendingTimeout (world o) = None).
Proof.
  intros Hs o. subst o.
  open_world w. cbn [player synth] in Hs. subst sy.
  destruct r as [tk tt' tp la lt lp sp].
  unfold stopTrack.
  destruct ls as [smf|], la; exec; use_timeline; destruct nc, tc, ra, pt; exec;
    destruct (Hnp eq_refl) as [Hc Hsu];
    (split; [reflexivity|]); (split; [reflexivity|]); (split; [exact Hc|]);
    (split; [eexists; split; [cbn [app]; reflexivity|];
             split; [not_in_trace|split; [not_in_trace|in_trace]]|]);
    repeat split; intros; congruence.
Qed.

(** Stop while the first track plays, the bytes accepted again. *)
Lemma stop_rewinds_the_synthesizer_witness :
  let w := world (togglePlayPause quiet (initial_world [sample_item])) in
  isPlaying w = true
  /\ isPlaying (world (stopTrack quiet w)) = false
  /\ currentTick (timing (world (stopTrack quiet w))) = 0.
Proof.
  intros w.
  destruct (stop_rewinds_the_synthesizer quiet w eq_refl) as (_ & Hp & Ht & _).
  split; [reflexivity|]. split; [exact Hp|exact Ht].
Defined.

(* ===================================================================== *)
(** ** Soundfonts *)
(* ===================================================================== *)

Ltac sf_run :=
  cbv beta iota zeta delta
    [Soundfont.loadSF2 Soundfont._loadSF2IntoBothSynths Soundfont._ensureTestSynth
     Soundfont._safeSynthCall Soundfont.method_of Soundfont._waitForReady
     Soundfont.andThen Soundfont.pure Soundfont.fail Soundfont.read
     Soundfont.write Soundfont.send Soundfont.reply
     Soundfont.set_hasSynth Soundfont.set_sfontId Soundfont.set_sfontBytes
     Soundfont.set_hasTestSynth
     Soundfont.hasSynth Soundfont.sfontId Soundfont.sfontBytes Soundfont.hasTestSynth
     Soundfont.mainLoad Soundfont.testFirstLoad Soundfont.testLoad
     Soundfont.outcome Soundfont.fonts Soundfont.calls
     tl String.eqb Ascii.eqb Bool.eqb app].

(** X20. When a soundfont replaces another ([loadSF2] with [unloadPrevious]
    set), the main synthesizer is asked to unload with no argument at
    all: the id of the font held goes where [_safeSynthCall] expects the
    name of the synthesizer, and nothing is left to pass on.  The test
    synthesizer is asked to unload the id that the main synthesizer has
    just given to the new font.  On an adapter that holds a font and has
    its test synthesizer, the calls are: unload on main without argument,
    load on main, unload of the new id on test, load on test. *)
Theorem soundfont_replaced_without_its_id
    (data : list byte) (unloadPrevious : bool) (a : Soundfont.Answers)
    (s : Soundfont.Fonts) :
  let run := Soundfont.loadSF2 data unloadPrevious a s in
  (forall args,
     In (Soundfont.call Soundfont.main Soundfont.unloadSFont args) (Soundfont.calls run) ->
     args = [])
  /\ (forall args,
        In (Soundfont.call Soundfont.test Soundfont.unloadSFont args) (Soundfont.calls run) ->
        exists new, Soundfont.mainLoad a = Normal new /\ args = [Soundfont.id_arg new])
  /\ (forall old new,
        unloadPrevious = true ->
        Soundfont.sfontId s = Some old -> Soundfont.hasTestSynth s = true ->
        Soundfont.mainLoad a = Normal new -> Soundfont.testLoad a = Normal tt ->
        run = Soundfont.mkRun (Normal tt)
                (Soundfont.mkFonts true (Some new) (Some data) true)
                [Soundfont.call Soundfont.main Soundfont.unloadSFont [];
                 Soundfont.call Soundfont.main Soundfont.loadSFont [Soundfont.bytes_arg data];
                 Soundfont.call Soundfont.test Soundfont.unloadSFont [Soundfont.id_arg new];
                 Soundfont.call Soundfont.test Soundfont.loadSFont [Soundfont.bytes_arg data]]).
Proof.
  intros run. subst run.
  destruct s as [sy id bytes ts], a as [ml tf tl'].
  split; [|split].
  - intros args.
    destruct unloadPrevious, id as [old|], ts, ml as [new|], tf as [[]|], tl' as [[]|];
      sf_run; cbn [In]; intros H;
      repeat (destruct H as [H|H]; [try discriminate H; now injection H|]);
      now destruct H.
  - intros args.
    destruct unloadPrevious, id as [old|], ts, ml as [new|], tf as [[]|], tl' as [[]|];
      sf_run; cbn [In]; intros H;
      repeat (destruct H as [H|H];
              [try discriminate H; injection H as <-; eexists; split; reflexivity|]);
      now destruct H.
  - intros old new -> Hid Hts Hml Htl. cbn in Hid, Hts, Hml, Htl. subst.
    sf_run. reflexivity.
Qed.

(** X21. How [loadSF2] fails.  It waits for the synthesizer and caches the
    bytes before anything else, so the bytes are cached however it ends.
    It completes normally exactly when the main synthesizer accepts the
    font, the test synthesizer is there or can be given the font when it
    is created, and the test synthesizer accepts the font at the end;
    otherwise it throws.  When the main synthesizer rejects the font, the
    id kept is the old one and the test synthesizer is not touched; when
    it accepts, the new id is kept even if the test synthesizer fails
    afterwards.  On the first load, with every call accepted, the test
    synthesizer is given the font twice: when it is created, and again at
    the end. *)
Theorem soundfont_load_failures
    (data : list byte) (unloadPrevious : bool) (a : Soundfont.Answers)
    (s : Soundfont.Fonts) :
  let run := Soundfont.loadSF2 data unloadPrevious a s in
  Soundfont.sfontBytes (Soundfont.fonts run) = Some data
  /\ (Soundfont.outcome run = Normal tt <->
      (exists new, Soundfont.mainLoad a = Normal new)
      /\ (Soundfont.hasTestSynth s = true \/ Soundfont.testFirstLoad a = Normal tt)
      /\ Soundfont.testLoad a = Normal tt)
  /\ (Soundfont.mainLoad a = Thrown ->
      Soundfont.outcome run = Thrown
      /\ Soundfont.sfontId (Soundfont.fonts run) = Soundfont.sfontId s
      /\ Soundfont.hasTestSynth (Soundfont.fonts run) = Soundfont.hasTestSynth s
      /\ forall m args, ~ In (Soundfont.call Soundfont.test m args) (Soundfont.calls run))
  /\ (forall new, Soundfont.mainLoad a = Normal new ->
      Soundfont.sfontId (Soundfont.fonts run) = Some new)
  /\ (Soundfont.sfontId s = None -> Soundfont.hasTestSynth s = false ->
      forall new, Soundfont.mainLoad a = Normal new ->
      Soundfont.testFirstLoad a = Normal tt -> Soundfont.testLoad a = Normal tt ->
      Soundfont.calls run
      = [Soundfont.call Soundfont.main Soundfont.loadSFont [Soundfont.bytes_arg data];
         Soundfont.waitForReady; Soundfont.newTestSynth;
         Soundfont.call Soundfont.test Soundfont.loadSFont [Soundfont.bytes_arg data]]
        ++ (if unloadPrevious
            then [Soundfont.call Soundfont.test Soundfont.unloadSFont [Soundfont.id_arg new]]
            else [])
        ++ [Soundfont.call Soundfont.test Soundfont.loadSFont [Soundfont.bytes_arg data]]).
Proof.
  intros run. subst run.
  destruct s as [sy id bytes ts], a as [ml tf tl'].
  cbn [Soundfont.mainLoad Soundfont.testFirstLoad Soundfont.testLoad
       Soundfont.sfontId Soundfont.hasTestSynth].
  split; [|split; [|split; [|split]]].
  - destruct unloadPrevious, id as [old|], ts, ml as [new|], tf as [[]|], tl' as [[]|];
      sf_run; reflexivity.
  - destruct unloadPrevious, id as [old|], ts, ml as [new|], tf as [[]|], tl' as [[]|];
      sf_run;
      (split;
       [ intros H; try discriminate H; repeat split; eauto
       | intros ([new' H1] & [H2|H2] & H3);
         try discriminate H1; try discriminate H2; try discriminate H3; reflexivity ]).
  - intros ->.
    destruct unloadPrevious, id as [old|], ts; sf_run;
      (repeat split; intros m args H; cbn [In] in H;
       repeat (destruct H as [H|H]; [discriminate H|]); now destruct H).
  - intros new ->.
    destruct unloadPrevious, id as [old|], ts, tf as [[]|], tl' as [[]|];
      sf_run; reflexivity.
  - intros -> -> new -> -> ->. destruct unloadPrevious; sf_run; reflexivity.
Qed.

(* ===================================================================== *)
(** ** Soundfont handlers of the page *)
(* ===================================================================== *)

Lemma pauseTrack_calls_pause (r : Replies) (w : World) :
  synth (player w) = true ->
  In CallPause (events (pauseTrack r w)) /\ ~ In Alert (events (pauseTrack r w)).
Proof.
  intros Hs. open_world w. cbn [player synth] in Hs. subst sy.
  destruct r as [tk tt' tp la lt lp sp].
  unfold pauseTrack, pauseTrack_resume.
  destruct tk as [tk|]; exec; use_timeline; destruct tc, ra, pt; exec;
    (split; [in_trace|not_in_trace]).
Qed.

(** X22. Selecting another soundfont keeps the transport where it was.
    With the adapter initialised and a track selected, [applySelectedSf2]
    never throws.  When the soundfont is loaded, the transport plays or
    not as before and the playhead is the tick held when the soundfont
    was selected; while playing, the player is paused for the load and
    started again afterwards, seeking to that tick.  When the load fails,
    an alert is shown, play is not called, and a player that was playing
    is left paused with the low-power timer armed; a player that was not
    playing is neither paused nor started.  When the file cannot be
    fetched, the alert is all that happens. *)
Theorem soundfont_switch_keeps_position
    (name : string) (data : list byte) (loaded : completion unit)
    (r : Replies) (w : World) :
  name <> EmptyString -> synth (player w) = true -> 0 <= currentIndex w ->
  let o := applySelectedSf2 name (Some data) loaded r w in
  result o = Normal tt
  /\ match loaded with
     | Normal _ =>
         isPlaying (world o) = isPlaying w
         /\ currentTick (timing (world o)) = currentTick (timing w)
         /\ ~ In Alert (events o)
         /\ (isPlaying w = true ->
             In CallPlay (events o)
             /\ precedes CallPause CallPlay (events o)
             /\ precedes (CallSeek (VNum (num (currentTick (timing w))))) CallPlay
                         (events o))
         /\ (isPlaying w = false ->
             ~ In CallPause (events o) /\ ~ In CallPlay (events o))
     | Thrown =>
         In Alert (events o)
         /\ isPlaying (world o) = false
         /\ ~ In CallPlay (events o)
         /\ (isPlaying w = true -> pendingTimeout (world o) = Some PAUSE_LOW_POWER_MS)
     end
  /\ applySelectedSf2 name None loaded r w = mkOutcome (Normal tt) w [Alert].
Proof.
  intros Hname Hs Hidx o. subst o.
  unfold applySelectedSf2. apply String.eqb_neq in Hname. rewrite Hname.
  split; [|split].
  - unfold try_catch.
    match goal with
    | |- context [match ?c with mkOutcome _ _ _ => _ end] =>
        destruct c as [[[]|] w1 e1]; reflexivity
    end.
  - unfold player_loadSF2.
    destruct (isPlaying w) eqn:Hip.
    + (* playing: pause, load, play *)
      pose proof (pauseTrack_calls_pause r w Hs) as [Hcp Hna].
      destruct (pauseTrack_ready r w Hs)
        as (tm' & su' & evs & E & Htick & _ & _ & _ & Hnoplay).
      rewrite E in Hcp, Hna. cbn [events] in Hcp, Hna.
      open_world w. cbn [timing currentTick isPlaying player synth currentIndex
        nodeConnected currentTime lastSmfBytes playlist autoplay loopOn] in *.
      subst sy ip.
      destruct loaded as [[]|]; exec; rewrite E; exec.
      * match goal with
        | |- context [playTrack ?W] => rewrite (playTrack_ready W eq_refl Hidx)
        end.
        exec. cbn [app].
        split; [reflexivity|]. split; [reflexivity|].
        split; [intros Hin; apply in_app_or in Hin; destruct Hin as [Hin|Hin];
                [now apply Hna|revert Hin; destruct nc; not_in_trace]|].
        split; [|discriminate]. intros _.
        split; [apply in_or_app; right; in_trace|].
        split.
        -- now apply precedes_after.
        -- apply precedes_app; [exact Hnoplay|]. cbn [app].
           apply precedes_head. discriminate.
      * cbn [app]. rewrite ?app_nil_r.
        split; [apply in_or_app; right; now left|].
        split; [reflexivity|].
        split; [|reflexivity].
        intros Hin. apply in_app_or in Hin. destruct Hin as [Hin|[Hin|[]]];
          [now apply Hnoplay|discriminate Hin].
    + (* not playing: load only *)
      open_world w. cbn [timing currentTick isPlaying player synth] in *. subst sy ip.
      destruct loaded as [[]|]; exec.
      * repeat split; try discriminate; try (intros []).
      * split; [now left|]. split; [reflexivity|].
        split; [intros [H|[]]; discriminate H|discriminate].
  - reflexivity.
Qed.

(** The soundfont changed while the first track plays. *)
Lemma soundfont_switch_keeps_position_witness :
  let w := world (togglePlayPause quiet (initial_world [sample_item])) in
  let o := applySelectedSf2 "gm.sf2" (Some []) (Normal tt) (at_tick 40) w in
  isPlaying w = true
  /\ isPlaying (world o) = true
  /\ currentTick (timing (world o)) = 0.
Proof.
  intros w o.
  destruct (soundfont_switch_keeps_position "gm.sf2" [] (Normal tt) (at_tick 40) w)
    as (_ & (Hp & Ht & _) & _).
  - discriminate.
  - reflexivity.
  - discriminate.
  - split; [reflexivity|]. split; [exact Hp|exact Ht].
Defined.

(* ===================================================================== *)
(** ** The demo button *)
(* ===================================================================== *)

(** X23. The demo button adds the demo file at the end of the playlist and
    plays it.  With the adapter initialised and the file fetched,
    [demoClicked] never throws; the playlist is the one before with an
    entry demo.MID holding the bytes fetched after it, also when there is
    such an entry already; this new entry is the one selected, its bytes
    are handed to the adapter, and the transport is playing.  When the
    file cannot be fetched, an alert is all that happens. *)
Theorem demo_is_added_and_played (bytes : list byte) (r : Replies) (w : World) :
  synth (player w) = true ->
  let o := demoClicked (Some bytes) r w in
  result o = Normal tt
  /\ playlist (world o) = playlist w ++ [mkItem "demo.MID" bytes]
  /\ currentIndex (world o) = getTrackCount w
  /\ isPlaying (world o) = true
  /\ In (CallLoadMIDI bytes) (events o)
  /\ In CallPlay (events o)
  /\ demoClicked None r w = mkOutcome (Normal tt) w [Alert].
Proof.
  intros Hs o. subst o. unfold demoClicked.
  set (demo := mkItem "demo.MID" bytes).
  set (w1 := set_playlist (playlist w ++ [demo]) w).
  assert (Hs1 : synth (player w1) = true) by (now open_world w).
  assert (Hp1 : playlist w1 = playlist w ++ [demo]) by (now open_world w).
  assert (Hlen : getTrackCount w1 - 1 = getTrackCount w).
  { unfold getTrackCount. rewrite Hp1, length_app. cbn [length]. lia. }
  assert (Hnth : nth_error (playlist w1) (Z.to_nat (getTrackCount w1 - 1)) = Some demo).
  { rewrite Hlen, Hp1. unfold getTrackCount. rewrite Nat2Z.id.
    rewrite nth_error_app2 by lia. now rewrite Nat.sub_diag. }
  assert (H0 : 0 <= getTrackCount w1 - 1) by (rewrite Hlen; unfold getTrackCount; lia).
  destruct (loadTrack_ready (getTrackCount w1 - 1) r w1 demo Hs1 H0 Hnth)
    as (tm' & ct' & ls' & su' & evs & E & Hload & _).
  assert (Erun : try_catch
                   (blob <- must (Some bytes) ;;
                    addToPlaylist [mkItem "demo.MID" blob] ;;
                    len <- gets getTrackCount ;;
                    loadTrack (len - 1) r ;; detached playTrack)
                   (emit Alert) w
                 = (loadTrack (getTrackCount w1 - 1) r ;; detached playTrack) w1).
  { unfold try_catch. cbn [must]. rewrite bind_ret_l.
    unfold bind at 1. rewrite addToPlaylist_filters.
    change (filter (fun f => supported (extension_of (item_name f)))
              [mkItem "demo.MID" bytes]) with [demo].
    fold w1. rewrite bind_gets.
    destruct ((loadTrack (getTrackCount w1 - 1) r ;; detached playTrack) w1)
      as [[[]|] w2 e2] eqn:E2; cbn [app]; [reflexivity|].
    exfalso. revert E2. unfold bind. rewrite E. unfold detached. rewrite try_eq.
    discriminate. }
  split; [|split; [|split; [|split; [|split; [|split]]]]]; try reflexivity;
    rewrite Erun; unfold bind; rewrite E; unfold detached; rewrite try_eq;
    match goal with
    | |- context [playTrack ?W] =>
        rewrite (playTrack_ready W eq_refl H0)
    end;
    cbn [result world events currentIndex isPlaying player synth playlist app].
  - reflexivity.
  - exact Hp1.
  - exact Hlen.
  - reflexivity.
  - cbn [item_bytes demo] in Hload. apply in_or_app. now left.
  - apply in_or_app. right. in_trace.
Qed.

(** The demo button pressed on the page as it is first shown, the adapter
    initialised. *)
Lemma demo_is_added_and_played_witness :
  let w := upd_player initialised (initial_world []) in
  let o := demoClicked (Some []) quiet w in
  synth (player w) = true
  /\ currentIndex (world o) = 0
  /\ isPlaying (world o) = true.
Proof.
  intros w o.
  destruct (demo_is_added_and_played [] quiet w eq_refl) as (_ & _ & Hc & Hp & _).
  split; [reflexivity|]. split; [exact Hc|exact Hp].
Defined.
